(** * tadvBuilder: the narrative graph core (Scene.js, Story.js)

    A shallow embedding of [src/builder/core/Scene.js] and
    [src/builder/core/Story.js], and the properties of the specification
    that are settled against it.

    Modelling choices.
    - A JavaScript [Map] iterates in insertion order, and that order is
      observable here (DFS order, serialisation order, [findParent]); a
      [Map] with string keys is an association list with unique keys
      ([JsMap.t]).
    - [Scene] objects are shared by reference ([story.root], [scene.parent],
      the values of [story.scenes]); the object store is a finite map from
      locations to [Scene] records, read with a total lookup since a
      JavaScript reference never dangles.
    - The [Set] of visited keys is only ever queried with [has]; it is a
      [gset string].
    - A call either returns, throws a [TypeError], or runs out of fuel
      (the only unbounded loop of the core is the parent walk of
      [getSceneDepth]; the DFS loop is proved to need a bounded number of
      iterations). *)

From stdpp Require Import base option list strings gmap fin_maps pretty.
From Stdlib Require Import ZArith Lia Ascii.

Local Open Scope string_scope.
Local Open Scope Z_scope.
Local Open Scope list_scope.

#[local] Set Warnings "-clear-no-such-hyp".

(** ** Results of a call *)

Inductive outcome (A : Type) : Type :=
  | Returns (a : A)
  | Throws
  | OutOfFuel.
Arguments Returns {A} a.
Arguments Throws {A}.
Arguments OutOfFuel {A}.

Global Instance outcome_ret : MRet outcome := @Returns.
Global Instance outcome_bind : MBind outcome := λ A B f m,
  match m with
  | Returns a => f a
  | Throws => Throws
  | OutOfFuel => OutOfFuel
  end.

(** ** Insertion-ordered maps with string keys (JavaScript [Map]) *)

Module JsMap.

Definition t (V : Type) : Type := list (string * V).

Fixpoint get {V} (k : string) (m : t V) : option V :=
  match m with
  | [] => None
  | (k', v) :: m' => if decide (k = k') then Some v else get k m'
  end.

Definition has {V} (k : string) (m : t V) : bool :=
  match get k m with Some _ => true | None => false end.

(** [set] keeps the position of an existing key and appends a new one. *)
Fixpoint set {V} (k : string) (v : V) (m : t V) : t V :=
  match m with
  | [] => [(k, v)]
  | (k', v') :: m' =>
      if decide (k = k') then (k, v) :: m' else (k', v') :: set k v m'
  end.

(** The map without the entry of [k]. *)
Fixpoint remove {V} (k : string) (m : t V) : t V :=
  match m with
  | [] => []
  | (k', v') :: m' =>
      if decide (k = k') then m' else (k', v') :: remove k m'
  end.

(** [delete] returns the new map and whether an entry was removed. *)
Definition delete {V} (k : string) (m : t V) : t V * bool :=
  (remove k m, has k m).

Definition keys {V} (m : t V) : list string := m.*1.
Definition values {V} (m : t V) : list V := m.*2.
Definition size {V} (m : t V) : nat := length m.

(** The representation invariant: keys are unique. *)
Definition wf {V} (m : t V) : Prop := NoDup (keys m).

End JsMap.

(** ** JSON-compatible values *)

#[local] Unset Elimination Schemes.
Inductive JValue : Type :=
  | JUndefined
  | JNull
  | JBool (b : bool)
  | JNum (n : Z)
  | JStr (s : string)
  | JArr (items : list JValue)
  | JObj (fields : list (string * JValue)).
#[local] Set Elimination Schemes.

(** [!v] *)
Definition falsy (v : JValue) : bool :=
  match v with
  | JUndefined | JNull | JBool false | JNum 0 | JStr "" => true
  | _ => false
  end.

(** [v.name]; [None] when the access throws (on [null] and [undefined]). *)
Definition prop (v : JValue) (name : string) : option JValue :=
  match v with
  | JUndefined | JNull => None
  | JObj fields => Some (default JUndefined (JsMap.get name fields))
  | _ => Some JUndefined
  end.

(** ** Scene *)

Abbreviation loc := nat.

Record Scene : Type := mkScene {
  key : string;
  text : string;
  parent : option loc;
  choices : JsMap.t string
}.

Global Instance Scene_inhabited : Inhabited Scene :=
  populate (mkScene "" "" None []).

Definition set_text (t : string) (s : Scene) : Scene :=
  mkScene (key s) t (parent s) (choices s).
Definition set_parent (p : option loc) (s : Scene) : Scene :=
  mkScene (key s) (text s) p (choices s).
Definition set_choices (c : JsMap.t string) (s : Scene) : Scene :=
  mkScene (key s) (text s) (parent s) c.

(** One element of the [choices] array given to the constructor or found
    in a serialised scene: [{text, next}]. *)
Record Choice : Type := mkChoice { c_text : string; c_next : string }.

(** The constructor's [choices] argument: a [Map], an array, or [null]. *)
Inductive ChoicesInit : Type :=
  | InitNone
  | InitPairs (cs : list Choice)
  | InitMap (m : JsMap.t string).

Definition newScene (k t : string) (p : option loc) (cs : ChoicesInit) : Scene :=
  let init : JsMap.t string :=
    match cs with
    | InitMap m => foldl (λ acc '(next, choiceText), JsMap.set next choiceText acc) [] m
    | InitPairs l =>
        foldl (λ acc c,
                 if decide (c_next c ≠ "" ∧ c_text c ≠ "")
                 then JsMap.set (c_next c) (c_text c) acc else acc) [] l
    | InitNone => []
    end in
  mkScene k t p init.

Definition addChoice (t next : string) (s : Scene) : Scene * bool :=
  if JsMap.has next (choices s) then (s, false)
  else (set_choices (JsMap.set next t (choices s)) s, true).

Definition updateChoiceText (next newText : string) (s : Scene) : Scene * bool :=
  if JsMap.has next (choices s)
  then (set_choices (JsMap.set next newText (choices s)) s, true)
  else (s, false).

Definition removeChoice (next : string) (s : Scene) : Scene * bool :=
  let '(m, b) := JsMap.delete next (choices s) in (set_choices m s, b).

Definition getAllChoices (s : Scene) : list Choice :=
  (λ '(next, t), mkChoice t next) <$> choices s.

(** [choicesAreEqual(newChoices)]: the argument is a [Map] or [null];
    reading [null.size] throws. *)
Definition choicesAreEqual (newChoices : option (JsMap.t string)) (s : Scene)
  : outcome bool :=
  match newChoices with
  | None => Throws
  | Some nc =>
      if negb (Nat.eqb (JsMap.size (choices s)) (JsMap.size nc)) then Returns false
      else Returns (forallb (λ '(k, v), bool_decide (JsMap.get k nc = Some v))
                            (choices s))
  end.

(** White space of [String.prototype.trim] among the code units 0..255. *)
Definition is_white_space (c : Ascii.ascii) : bool :=
  let n := Ascii.nat_of_ascii c in
  (Nat.eqb n 9 || Nat.eqb n 10 || Nat.eqb n 11 || Nat.eqb n 12 || Nat.eqb n 13
   || Nat.eqb n 32 || Nat.eqb n 160)%bool.

Fixpoint trim_start (s : string) : string :=
  match s with
  | EmptyString => EmptyString
  | String c s' => if is_white_space c then trim_start s' else s
  end.

Definition trim (s : string) : string :=
  String.rev (trim_start (String.rev (trim_start s))).

(** [updateContent(newText, newChoices)]: [newText] is [Some] for a string
    and [None] for any other value; [newChoices] is [Some] for a [Map] and
    [None] for [null]. [this.choices = newChoices] binds the scene to the
    caller's [Map] object; the record holds the contents of that [Map]
    (see the remark on the store below). *)
Definition updateContent (newText : option string)
    (newChoices : option (JsMap.t string)) (s : Scene) : outcome (Scene * bool) :=
  let '(s1, edited) :=
    match newText with
    | Some t => if decide (trim t ≠ "") then (set_text t s, true) else (s, false)
    | None => (s, false)
    end in
  eq ← choicesAreEqual newChoices s1;
  if (eq : bool) then Returns (s1, edited)
  else match newChoices with
       | Some nc => Returns (set_choices nc s1, true)
       | None => Returns (set_choices [] s1, true)
       end.

(** [toJSON()] *)
Definition toJSON (s : Scene) : JValue :=
  let choicesArray :=
    (λ '(next, t), JObj [("text", JStr t); ("next", JStr next)]) <$> choices s in
  if Nat.eqb (length choicesArray) 0 then JObj [("text", JStr (text s))]
  else JObj [("text", JStr (text s)); ("choices", JArr choicesArray)].

Section FromJson.
(** [JSON.parse] belongs to the host; [None] stands for a [SyntaxError]. *)
Variable JSON_parse : string → option JValue.

Definition fromJson_choice (s : Scene) (c : JValue) : Scene :=
  if falsy c then s
  else match prop c "text", prop c "next" with
       | Some (JStr t), Some (JStr n) => (addChoice t n s).1
       | _, _ => s
       end.

Definition fromJson (k : string) (json : JValue) : outcome (option Scene) :=
  if (bool_decide (k = "") || falsy json)%bool then Returns None
  else
    let parsed : option JValue :=
      match json with
      | JStr raw => JSON_parse raw
      | JObj _ | JArr _ => Some json
      | _ => None
      end in
    match parsed with
    | None => Returns None
    | Some parsedObject =>
        match prop parsedObject "text" with
        | None => Throws
        | Some t =>
            match t with
            | JStr txt =>
                if bool_decide (txt = "") then Returns None
                else
                  let scene := newScene k txt None (InitPairs []) in
                  match prop parsedObject "choices" with
                  | Some (JArr cs) => Returns (Some (foldl fromJson_choice scene cs))
                  | _ => Returns (Some scene)
                  end
            | _ => Returns None
            end
        end
    end.
End FromJson.

(** ** Story *)

Record Story : Type := mkStory {
  scenes : JsMap.t loc;
  root : option loc
}.

(** One entry of the DFS result: [{key, scene, depth}]. *)
Record SceneRef : Type := mkSceneRef {
  ref_key : string;
  ref_scene : loc;
  ref_depth : Z
}.

(** [scene.text || `to ${scene.key}`] *)
Definition label_or_default (t : option string) (k : string) : string :=
  match t with
  | Some s => if decide (s = "") then "to " +:+ k else s
  | None => "to " +:+ k
  end.

(** The store maps a location to the fields of the [Scene] object there,
    the choice table by value. It describes the stories in which no two
    scenes hold the same [Map] object: the constructor and [fromJson]
    create a new [Map] for every scene, and [addScene],
    [changeSceneParent] and [removeScene] never rebind [choices];
    [updateContent] rebinds it to the [Map] it is given, which must then
    be held by no other scene for the store to stay of that kind. On a
    [Map] held by two scenes, [addChoice] and [removeChoice] called on one
    of them would change the table of the other as well. The properties
    of [changeSceneParent] and [removeScene] therefore say of the tables
    of other scenes only what is true in that case too: such a call
    removes or adds entries for the key of the scene it addresses and for
    no other key. *)

(** Calling a [Scene] method on the object at a location. *)
Definition call_addChoice (h : gmap loc Scene) (l : loc) (t next : string)
  : gmap loc Scene :=
  <[l := (addChoice t next (h !!! l)).1]> h.

Definition call_removeChoice (h : gmap loc Scene) (l : loc) (next : string)
  : gmap loc Scene :=
  <[l := (removeChoice next (h !!! l)).1]> h.

Definition write_parent (h : gmap loc Scene) (l : loc) (p : option loc)
  : gmap loc Scene :=
  <[l := set_parent p (h !!! l)]> h.

(** [findParent(sceneKey)] *)
Definition findParent (h : gmap loc Scene) (st : Story) (sceneKey : string)
  : option loc :=
  find (λ l, JsMap.has sceneKey (choices (h !!! l))) (JsMap.values (scenes st)).

(** [getScene(key)] *)
Definition getScene (st : Story) (k : string) : option loc :=
  JsMap.get k (scenes st).

(** [addScene(scene)]: the argument is a reference to a [Scene] object. *)
Definition addScene (scene : loc) (h : gmap loc Scene) (st : Story)
  : gmap loc Scene * Story * bool :=
  let k := key (h !!! scene) in
  if JsMap.has k (scenes st) then (h, st, false)
  else
    let sc := JsMap.set k scene (scenes st) in
    match root st with
    | None => (h, mkStory sc (Some scene), true)
    | Some r =>
        let st1 := mkStory sc (Some r) in
        let label := label_or_default (Some (text (h !!! scene))) k in
        let h1 :=
          match parent (h !!! scene) with
          | None =>
              if Nat.ltb 0 (JsMap.size sc) then
                match findParent h st1 k with
                | Some p => call_addChoice (write_parent h scene (Some p)) p label k
                | None => write_parent (call_addChoice h r label k) scene (Some r)
                end
              else h
          | Some _ => h
          end in
        let h2 :=
          match parent (h1 !!! scene) with
          | Some p =>
              let pk := key (h1 !!! p) in
              match JsMap.get pk sc with
              | Some p' => call_addChoice h1 p' label k
              | None => h1
              end
          | None => h1
          end in
        (h2, st1, true)
    end.

(** [getSceneDepth(scenes, scene)]; the [while] loop follows parent
    references and takes one unit of fuel per iteration. *)
Fixpoint depth_loop (fuel : nat) (h : gmap loc Scene) (current : loc) (depth : Z)
  : outcome Z :=
  match parent (h !!! current) with
  | None => Returns depth
  | Some p =>
      match fuel with
      | O => OutOfFuel
      | S fuel' => depth_loop fuel' h p (depth + 1)
      end
  end.

Definition getSceneDepth (fuel : nat) (h : gmap loc Scene) (sc : JsMap.t loc)
    (scene : loc) : outcome Z :=
  if negb (JsMap.has (key (h !!! scene)) sc) then Returns (-1)
  else depth_loop fuel h scene 0.

(** The children pushed for a scene:
    [Array.from(scene.choices.keys()).map(key => story.getScene(key))
       .filter(child => child && !visited.has(child.key))] *)
Definition dfs_children (h : gmap loc Scene) (st : Story) (visited : gset string)
    (scene : loc) : list loc :=
  filter (λ child, key (h !!! child) ∉ visited)
         (omap (getScene st) (JsMap.keys (choices (h !!! scene)))).

(** [for (let i = children.length - 1; i >= 0; i--) stack.push(...)];
    the head of the list is the top of the stack. *)
Definition push_children (children : list loc) (depth : Z)
    (stack : list (loc * Z)) : list (loc * Z) :=
  foldl (λ stk child, (child, depth) :: stk) stack (reverse children).

(** One iteration of the [while (stack.length > 0)] loop, after the pop. *)
Definition dfs_body (h : gmap loc Scene) (st : Story)
    (top : loc * Z) (stack : list (loc * Z))
    (visited : gset string) (result : list SceneRef)
  : list (loc * Z) * gset string * list SceneRef :=
  let '(scene, depth) := top in
  let k := key (h !!! scene) in
  if decide (k ∈ visited) then (stack, visited, result)
  else
    let visited' := visited ∪ {[k]} in
    let result' := result ++ [mkSceneRef k scene depth] in
    let children := dfs_children h st visited' scene in
    (push_children children (depth + 1) stack, visited', result').

Fixpoint dfs_loop (fuel : nat) (h : gmap loc Scene) (st : Story)
    (stack : list (loc * Z)) (visited : gset string) (result : list SceneRef)
  : outcome (list SceneRef) :=
  match stack with
  | [] => Returns result
  | top :: stack' =>
      match fuel with
      | O => OutOfFuel
      | S fuel' =>
          let '(stack1, visited1, result1) :=
            dfs_body h st top stack' visited result in
          dfs_loop fuel' h st stack1 visited1 result1
      end
  end.

(** [getScenesDFS(story, startScene = story.root)]; a caller that omits
    [startScene] passes [root st]. *)
Definition getScenesDFS (fuel : nat) (h : gmap loc Scene) (st : Story)
    (startScene : option loc) : outcome (list SceneRef) :=
  match startScene with
  | None => Returns []
  | Some s =>
      baseDepth ← (if decide (startScene = root st) then Returns 0
                   else getSceneDepth fuel h (scenes st) s);
      dfs_loop fuel h st [(s, baseDepth)] ∅ []
  end.

(** [hasCircle(story)] *)
Definition points_to_visited (h : gmap loc Scene) (st : Story)
    (visited : gset string) (scene : loc) : bool :=
  existsb (λ nextKey,
             match getScene st nextKey with
             | Some nextScene => bool_decide (key (h !!! nextScene) ∈ visited)
             | None => false
             end)
          (JsMap.keys (choices (h !!! scene))).

Fixpoint hasCircle_loop (h : gmap loc Scene) (st : Story)
    (refs : list SceneRef) (visited : gset string) : bool :=
  match refs with
  | [] => false
  | r :: refs' =>
      if points_to_visited h st visited (ref_scene r) then true
      else hasCircle_loop h st refs' (visited ∪ {[key (h !!! ref_scene r)]})
  end.

Definition hasCircle (fuel : nat) (h : gmap loc Scene) (st : Story)
  : outcome bool :=
  refs ← getScenesDFS fuel h st (root st);
  mret (hasCircle_loop h st refs ∅).

(** [editScene(key, newText, newChoices)] *)
Definition editScene (k : string) (newText : option string)
    (newChoices : option (JsMap.t string)) (h : gmap loc Scene) (st : Story)
  : outcome (gmap loc Scene * bool) :=
  match JsMap.get k (scenes st) with
  | None => Returns (h, false)
  | Some scene =>
      '(s', edited) ← updateContent newText newChoices (h !!! scene);
      mret (<[scene := s']> h, edited)
  end.

(** Reading the property [text] of a primitive string: strings have no
    such property, so the read yields [undefined]. *)
Definition string_prop_text (label : string) : option string := None.

(** [changeSceneParent(key, newParentKey)] *)
Definition changeSceneParent (k newParentKey : string)
    (h : gmap loc Scene) (st : Story) : outcome (gmap loc Scene * bool) :=
  match JsMap.get k (scenes st) with
  | None => Throws (* only a warning is logged; [scene.parent] then throws *)
  | Some scene =>
      match parent (h !!! scene) with
      | None => Throws
      | Some p =>
          let sk := key (h !!! scene) in
          match JsMap.get sk (choices (h !!! p)) with
          | None => Throws
          | Some label =>
              let oldParentChoiceText := string_prop_text label in
              let h1 := call_removeChoice h p sk in
              match JsMap.get newParentKey (scenes st) with
              | None => Returns (write_parent h1 scene None, false)
              | Some newParent =>
                  let h2 := write_parent h1 scene (Some newParent) in
                  Returns (call_addChoice h2 newParent
                             (label_or_default oldParentChoiceText sk) sk, true)
              end
          end
      end
  end.

(** [removeScene(key)] *)
Definition removeScene (fuel : nat) (k : string)
    (h : gmap loc Scene) (st : Story) : outcome (gmap loc Scene * Story * bool) :=
  match JsMap.get k (scenes st) with
  | None => Returns (h, st, false)
  | Some scene =>
      let h1 :=
        match parent (h !!! scene) with
        | Some p => call_removeChoice h p (key (h !!! scene))
        | None => h
        end in
      allScenesBelow ← getScenesDFS fuel h1 st (Some scene);
      let sc := foldl (λ m r, JsMap.remove (ref_key r) m) (scenes st)
                      (reverse allScenesBelow) in
      mret (h1, mkStory sc (root st), true)
  end.

(** ** Obfuscated export (SaveLoad.js)

    [#encryptStory] and the [decryptStory] function of the exported
    viewer (kept base64-encoded in [encryptedViewerPart3]) are modelled
    between the host functions around them: the input of the encryption
    is the byte sequence that [TextEncoder] produces, the output of the
    decryption is the byte sequence handed to [TextDecoder]. Bytes are
    integers. *)

(** Storing a number into a [Uint8Array]. *)
Definition to_uint8 (n : Z) : Z := n mod 256.

(** [keyBytes[i % keyBytes.length]] as an operand of [^]: with an empty
    key the index is [NaN], the read is [undefined], and [^] takes it as
    0. *)
Definition key_byte (keyBytes : list Z) (i : nat) : Z :=
  match keyBytes with
  | [] => 0
  | _ => default 0 (keyBytes !! (i mod length keyBytes)%nat)
  end.

(** [bytes[i] ^ keyBytes[i % keyBytes.length] ^ (i & 0xFF)], stored. *)
Definition mix (keyBytes : list Z) (i : nat) (b : Z) : Z :=
  to_uint8 (Z.lxor (Z.lxor b (key_byte keyBytes i)) (Z.land (Z.of_nat i) 255)).

Definition hex_digit (n : Z) : Ascii.ascii :=
  default "0"%char (String.get (Z.to_nat n) "0123456789abcdef").

(** [b.toString(16).padStart(2, '0')] for an element of a [Uint8Array]. *)
Definition byte_to_hex (b : Z) : string :=
  let digits :=
    if b <? 16 then String (hex_digit b) ""
    else String (hex_digit (b / 16)) (String (hex_digit (b mod 16)) "") in
  if Nat.ltb (String.length digits) 2 then String "0"%char digits else digits.

(** [#encryptStory], from the encoded bytes to the hex string. *)
Definition encryptStory (utf8Bytes keyBytes : list Z) : string :=
  let encrypted := imap (mix keyBytes) utf8Bytes in
  foldl (λ hexString b, hexString +:+ byte_to_hex b) "" encrypted.

(** The value of a hexadecimal digit, in either case. *)
Definition hex_value (c : Ascii.ascii) : option Z :=
  let n := Z.of_nat (Ascii.nat_of_ascii c) in
  if (48 <=? n) && (n <=? 57) then Some (n - 48)
  else if (97 <=? n) && (n <=? 102) then Some (n - 87)
  else if (65 <=? n) && (n <=? 70) then Some (n - 55)
  else None.

(** The longest prefix of hexadecimal digits, as a number; [None] when
    there is no digit. *)
Fixpoint hex_prefix (acc : option Z) (s : string) : option Z :=
  match s with
  | EmptyString => acc
  | String c s' =>
      match hex_value c with
      | Some v => hex_prefix (Some (16 * default 0 acc + v)) s'
      | None => acc
      end
  end.

(** [parseInt(s, 16)]; [None] stands for [NaN]. Leading white space is
    skipped, a sign is read, then a prefix [0x] or [0X] is dropped. *)
Definition parseInt16 (s : string) : option Z :=
  let s1 := trim_start s in
  let '(sign, s2) :=
    match s1 with
    | String "-"%char r => (-1, r)
    | String "+"%char r => (1, r)
    | _ => (1, s1)
    end in
  let s3 :=
    match s2 with
    | String "0"%char (String "x"%char r) => r
    | String "0"%char (String "X"%char r) => r
    | _ => s2
    end in
  (λ v, sign * v) <$> hex_prefix None s3.

(** [encryptedHex.slice(i, i + 2)] for [i = 0, 2, 4, ...]. *)
Fixpoint hex_chunks (s : string) : list string :=
  match s with
  | EmptyString => []
  | String c1 EmptyString => [String c1 ""]
  | String c1 (String c2 s') => String c1 (String c2 "") :: hex_chunks s'
  end.

(** [decryptStory], from the hex string to the decrypted bytes; [None] is
    the [null] returned for an empty string. The array has
    [encryptedHex.length / 2] elements, rounded down; a write past its end
    is ignored, and [NaN] is stored as 0. *)
Definition decryptStory (encryptedHex : string) (keyBytes : list Z)
  : option (list Z) :=
  if Nat.eqb (String.length encryptedHex) 0 then None
  else
    let encrypted :=
      take (String.length encryptedHex / 2)
           ((λ chunk, to_uint8 (default 0 (parseInt16 chunk)))
              <$> hex_chunks encryptedHex) in
    Some (imap (mix keyBytes) encrypted).

(** ** Serialising and loading a story (Story.js) *)

Definition is_digit (c : Ascii.ascii) : bool :=
  let n := Ascii.nat_of_ascii c in (Nat.leb 48 n && Nat.leb n 57)%bool.

Fixpoint all_digits (s : string) : bool :=
  match s with
  | EmptyString => true
  | String c s' => (is_digit c && all_digits s')%bool
  end.

Fixpoint decimal_value (acc : N) (s : string) : N :=
  match s with
  | EmptyString => acc
  | String c s' =>
      decimal_value (10 * acc + N.of_nat (Ascii.nat_of_ascii c - 48))%N s'
  end.

(** A property key that is an array index: the canonical decimal numeral
    of an integer below 2^32 - 1. Such keys are enumerated first, in
    ascending order. *)
Definition array_index (k : string) : option N :=
  match k with
  | EmptyString => None
  | String c r =>
      if (all_digits k
          && (bool_decide (r = EmptyString) || negb (Ascii.eqb c "0"%char)))%bool
      then let n := decimal_value 0 k in
           if (n <? 4294967295)%N then Some n else None
      else None
  end.

Fixpoint insert_index (n : N) (k : string) (v : JValue)
    (fields : list (string * JValue)) : list (string * JValue) :=
  match fields with
  | [] => [(k, v)]
  | (k', v') :: rest =>
      match array_index k' with
      | Some n' =>
          if (n' <? n)%N then (k', v') :: insert_index n k v rest
          else (k, v) :: fields
      | None => (k, v) :: fields
      end
  end.

(** [result[k] = v] on an object created by [{}], for an object [v]; the
    list holds the own properties in enumeration order. Assigning to
    [__proto__] sets the prototype and creates no own property. *)
Definition obj_assign (k : string) (v : JValue) (fields : list (string * JValue))
  : list (string * JValue) :=
  if decide (k = "__proto__") then fields
  else if JsMap.has k fields then JsMap.set k v fields
  else match array_index k with
       | Some n => insert_index n k v fields
       | None => fields ++ [(k, v)]
       end.

(** [Story.toJSON()] *)
Definition Story_toJSON (h : gmap loc Scene) (st : Story) : JValue :=
  JObj (foldl (λ result '(k, scene), obj_assign k (toJSON (h !!! scene)) result)
              [] (scenes st)).

(** [Object.entries(parsedJson)] for a value whose [typeof] is ['object']. *)
Definition object_entries (v : JValue) : list (string * JValue) :=
  match v with
  | JObj fields => fields
  | JArr items => imap (λ i item, (pretty (N.of_nat i), item)) items
  | _ => []
  end.

Section StoryFromJson.
Variable JSON_parse : string → option JValue.

(** The loop of [Story.fromJson]: each scene is created at a fresh
    location and added; the first record that fails to parse ends the
    load with [null]. *)
Fixpoint fromJson_entries (entries : list (string * JValue))
    (h : gmap loc Scene) (st : Story) : outcome (option (gmap loc Scene * Story)) :=
  match entries with
  | [] => Returns (Some (h, st))
  | (k, value) :: rest =>
      r ← fromJson JSON_parse k value;
      match r with
      | None => Returns None
      | Some s =>
          let scene := fresh (dom h) in
          let '(h', st', _) := addScene scene (<[scene := s]> h) st in
          fromJson_entries rest h' st'
      end
  end.

(** [Story.fromJson(parsedJson)] *)
Definition Story_fromJson (parsedJson : JValue) (h : gmap loc Scene)
  : outcome (option (gmap loc Scene * Story)) :=
  match parsedJson with
  | JObj _ | JArr _ =>
      r ← fromJson_entries (object_entries parsedJson) h (mkStory [] None);
      match r with
      | None => Returns None
      | Some (h', st') =>
          if Nat.eqb (JsMap.size (scenes st')) 0 then Returns None
          else Returns (Some (h', st'))
      end
  | _ => Returns None
  end.
End StoryFromJson.

(** ** The ASCII tree (AsciiTreeRenderer.js) *)

(** The element the tree is written into. *)
Record Element : Type := mkElement { el_id : string; textContent : string }.

Definition newline : string := String (Ascii.ascii_of_nat 10) "".

(** [for (let d = 0; d < depth; d++) prefix += (d === depth - 1) ? '|_ ' : '   '] *)
Definition tree_prefix (depth : Z) : string :=
  foldl (λ prefix d,
           prefix +:+ (if decide (Z.of_nat d = depth - 1) then "|_ " else "   "))
        "" (seq 0 (Z.to_nat depth)).

(** [generateTreeAscii(story, parentElement)]: the element after the
    call. The log line reads [parentElement.id] and [story.root.key]
    before either is checked. *)
Definition generateTreeAscii (fuel : nat) (h : gmap loc Scene) (st : Story)
    (parentElement : option Element) : outcome (option Element) :=
  match parentElement with
  | None => Throws
  | Some el =>
      match root st with
      | None => Throws
      | Some _ =>
          scenesWithDepth ← getScenesDFS fuel h st (root st);
          let outputLines :=
            (λ r, tree_prefix (ref_depth r) +:+ ref_key r) <$> scenesWithDepth in
          mret (Some (mkElement (el_id el) (String.concat newline outputLines)))
      end
  end.

(** * Vocabulary of the properties *)

(** ** Serialisation *)

(** The serialised form of one choice. *)
Definition choice_toJSON (c : string * string) : JValue :=
  let '(next, t) := c in JObj [("text", JStr t); ("next", JStr next)].

(** Serialising, deserialising under the same key, and serialising again
    gives the first serialisation back. *)
Definition roundtrip_stable (JSON_parse : string → option JValue) (s : Scene) : Prop :=
  ∃ s', fromJson JSON_parse (key s) (toJSON s) = Returns (Some s')
        ∧ toJSON s' = toJSON s.

(** ** The graph of a story *)

(** An edge of the graph that [getScenesDFS] walks: a choice of the scene
    at [l] whose target resolves to the scene at [c]. *)
Definition edge (h : gmap loc Scene) (st : Story) (l c : loc) : Prop :=
  ∃ k, k ∈ JsMap.keys (choices (h !!! l)) ∧ getScene st k = Some c.

(** Every scene of the collection is stored under its own key, and the
    collection is a [Map]. *)
Definition story_wf (h : gmap loc Scene) (st : Story) : Prop :=
  JsMap.wf (scenes st) ∧ Forall (λ e, key (h !!! e.2) = e.1) (scenes st).

(** [graph_is h st g]: the story holds exactly the scenes listed in [g],
    in that order; each entry gives a scene's key, its location and the
    targets of its choices in order; the first entry is the root. *)
Definition graph_is (h : gmap loc Scene) (st : Story)
    (g : list (string * loc * list string)) : Prop :=
  scenes st = (λ e, (e.1.1, e.1.2)) <$> g
  ∧ root st = (λ e, e.1.2) <$> head g
  ∧ Forall (λ e, key (h !!! e.1.2) = e.1.1
                 ∧ JsMap.keys (choices (h !!! e.1.2)) = e.2) g.

(** [scene_at h st k l targets]: the key [k] resolves to the scene at
    [l], which has that key and whose choices target [targets], in that
    order. Nothing is said about the place of the entry in the collection
    or about other entries. *)
Definition scene_at (h : gmap loc Scene) (st : Story)
    (k : string) (l : loc) (targets : list string) : Prop :=
  getScene st k = Some l
  ∧ key (h !!! l) = k
  ∧ JsMap.keys (choices (h !!! l)) = targets.

(** ** Measure and invariant of the DFS loop *)

(** The iterations a scene can still cause: its own visit and one pop per
    pushed child. *)
Definition weight (h : gmap loc Scene) (l : loc) : nat :=
  S (length (choices (h !!! l))).

Definition work (h : gmap loc Scene) (cand : list loc) (visited : gset string)
  : nat :=
  sum_list_with (λ l, if decide (key (h !!! l) ∈ visited) then 0%nat
                      else weight h l)
                cand.

(** Fuel that lets the DFS loop started at [start] run to completion. *)
Definition dfs_fuel (h : gmap loc Scene) (st : Story) (start : loc) : nat :=
  S (work h (start :: JsMap.values (scenes st)) ∅).

(** The invariant of the DFS loop that gives coverage: emitted keys are
    recorded in the result, and every edge out of a visited scene leads to
    a visited key or to a scene still on the stack. *)
Definition covers (h : gmap loc Scene) (st : Story) (start : loc)
    (stack : list (loc * Z)) (visited : gset string) (result : list SceneRef)
  : Prop :=
  (∀ k, k ∈ visited → k ∈ ref_key <$> result)
  ∧ Forall (λ e, getScene st (key (h !!! e.1)) = Some e.1) stack
  ∧ (key (h !!! start) ∈ visited ∨ start ∈ stack.*1)
  ∧ (∀ l c, key (h !!! l) ∈ visited →
            getScene st (key (h !!! l)) = Some l →
            edge h st l c →
            key (h !!! c) ∈ visited ∨ c ∈ stack.*1).

(** ** Removal *)

(** The store in which [removeScene] runs its DFS: the parent, if any, has
    lost its choice for the scene. *)
Definition detached (h : gmap loc Scene) (scene : loc) : gmap loc Scene :=
  match parent (h !!! scene) with
  | Some p => call_removeChoice h p (key (h !!! scene))
  | None => h
  end.

(** ** Sequences of operations *)

Inductive Op : Type :=
  | OpAddScene (scene : loc)
  | OpEditScene (k : string) (newText : option string)
                (newChoices : option (JsMap.t string))
  | OpChangeSceneParent (k newParentKey : string)
  | OpRemoveScene (k : string).

(** One call on the story; its boolean result is dropped. *)
Definition step (fuel : nat) (op : Op) (σ : gmap loc Scene * Story)
  : outcome (gmap loc Scene * Story) :=
  let '(h, st) := σ in
  match op with
  | OpAddScene scene => mret (addScene scene h st).1
  | OpEditScene k newText newChoices =>
      r ← editScene k newText newChoices h st; mret (r.1, st)
  | OpChangeSceneParent k newParentKey =>
      r ← changeSceneParent k newParentKey h st; mret (r.1, st)
  | OpRemoveScene k =>
      r ← removeScene fuel k h st; mret r.1
  end.

(** A sequence of calls, each of which returns. *)
Fixpoint run (fuel : nat) (ops : list Op) (σ : gmap loc Scene * Story)
  : outcome (gmap loc Scene * Story) :=
  match ops with
  | [] => mret σ
  | op :: ops' => σ' ← step fuel op σ; run fuel ops' σ'
  end.

(** The root is set, and the collection maps the root's key to that very
    scene. *)
Definition root_owned (h : gmap loc Scene) (st : Story) : Prop :=
  ∃ r, root st = Some r ∧ getScene st (key (h !!! r)) = Some r.

Definition is_remove (op : Op) : Prop :=
  match op with OpRemoveScene _ => True | _ => False end.

(** ** Example stories *)

(** Stories built the way the test suite builds them: the scenes are
    created, linked with [addChoice] and added in order. *)
Definition add_all (ls : list loc) (h : gmap loc Scene) (st : Story)
  : gmap loc Scene * Story :=
  foldl (λ '(h, st) l, (addScene l h st).1) (h, st) ls.

Definition scene_with (k t : string) (p : option loc) (edges : list Choice) : Scene :=
  foldl (λ s c, (addChoice (c_text c) (c_next c) s).1) (newScene k t p InitNone) edges.

Definition test_chain : gmap loc Scene * Story :=
  add_all [0; 1; 2]%nat
    {[ 0%nat := scene_with "A" "Root Scene" None [mkChoice "Go to B" "B"];
       1%nat := scene_with "B" "Child Scene" (Some 0%nat) [mkChoice "Go to C" "C"];
       2%nat := scene_with "C" "Grandchild Scene" (Some 1%nat) [] ]}
    (mkStory [] None).

(** The same chain, added in the order [A], [C], [B]: [C] names its
    parent [B] before [B] is in the story. *)
Definition test_chain_acb : gmap loc Scene * Story :=
  add_all [0; 2; 1]%nat
    {[ 0%nat := scene_with "A" "Root Scene" None [mkChoice "Go to B" "B"];
       1%nat := scene_with "B" "Child Scene" (Some 0%nat) [mkChoice "Go to C" "C"];
       2%nat := scene_with "C" "Grandchild Scene" (Some 1%nat) [] ]}
    (mkStory [] None).

Definition test_cycle3 : gmap loc Scene * Story :=
  add_all [0; 1; 2]%nat
    {[ 0%nat := scene_with "A" "Scene A" None [mkChoice "Go to B" "B"];
       1%nat := scene_with "B" "Scene B" None [mkChoice "Go to C" "C"];
       2%nat := scene_with "C" "Scene C" None [mkChoice "Go to A" "A"] ]}
    (mkStory [] None).

Definition test_cycle2 : gmap loc Scene * Story :=
  add_all [0; 1]%nat
    {[ 0%nat := scene_with "A" "Scene A" None [mkChoice "Go to B" "B"];
       1%nat := scene_with "B" "Scene B" None [mkChoice "Go to A" "A"] ]}
    (mkStory [] None).

Definition test_single : gmap loc Scene * Story :=
  add_all [0%nat] {[ 0%nat := scene_with "A" "Scene A" None [] ]} (mkStory [] None).

Definition test_self_loop : gmap loc Scene * Story :=
  add_all [0%nat]
    {[ 0%nat := scene_with "A" "Scene A" None [mkChoice "Again" "A"] ]}
    (mkStory [] None).

Definition test_empty : gmap loc Scene * Story := (∅, mkStory [] None).

(** A story in which [B]'s parent is the root [X], through an edge
    labelled "Go to B", and [A] is another child of [X]. *)
Definition reparent_story : gmap loc Scene * Story :=
  let h0 : gmap loc Scene :=
    {[ 0%nat := newScene "X" "Root Scene" None
                  (InitPairs [mkChoice "Go to B" "B"]);
       1%nat := newScene "A" "Scene A" None InitNone;
       2%nat := newScene "B" "Scene B" None InitNone ]} in
  let '(h1, st1, _) := addScene 0%nat h0 (mkStory [] None) in
  let '(h2, st2, _) := addScene 1%nat h1 st1 in
  let '(h3, st3, _) := addScene 2%nat h2 st2 in
  (h3, st3).

(** A story in which [D] is a child of [A] and also a child of the root
    [R], the parent of [A]. *)
Definition shared_child_story : gmap loc Scene * Story :=
  add_all [0; 1; 2]%nat
    {[ 0%nat := scene_with "R" "Root Scene" None
                  [mkChoice "Go to A" "A"; mkChoice "Go to D" "D"];
       1%nat := scene_with "A" "Scene A" None [mkChoice "Go to D" "D"];
       2%nat := scene_with "D" "Scene D" None [] ]}
    (mkStory [] None).

(** The story with the root [A] alone, and a second scene [B] not yet added. *)
Definition root_only_story : gmap loc Scene * Story :=
  add_all [0%nat]
    {[ 0%nat := scene_with "A" "Root Scene" None [];
       1%nat := scene_with "B" "Child Scene" None [] ]}
    (mkStory [] None).

(** ** Scene construction *)

(** An element of the constructor's array that is kept: both fields are
    truthy. *)
Definition kept_by_constructor (c : Choice) : Prop :=
  c_next c ≠ "" ∧ c_text c ≠ "".

(** A serialised choice record [{text, next}]. *)
Definition choice_record (c : Choice) : JValue :=
  JObj [("text", JStr (c_text c)); ("next", JStr (c_next c))].

(** ** Parent chains *)

(** [parent_path h l n]: following [parent] from [l] reaches a scene
    without parent after [n] steps. *)
Inductive parent_path (h : gmap loc Scene) : loc → nat → Prop :=
  | parent_path_end l : parent (h !!! l) = None → parent_path h l 0
  | parent_path_step l p n :
      parent (h !!! l) = Some p → parent_path h p n → parent_path h l (S n).

(** A set of scenes closed under [parent]: from any of them the parent
    walk never ends. *)
Definition parent_trap (h : gmap loc Scene) (S : loc → Prop) : Prop :=
  ∀ l, S l → ∃ p, parent (h !!! l) = Some p ∧ S p.

(** ** Bytes *)

Definition is_byte (b : Z) : Prop := 0 ≤ b < 256.

(** * Properties *)

(** ** Insertion-ordered maps *)

Section JsMapFacts.
Context {V : Type}.
Implicit Types (m : JsMap.t V) (k : string) (v : V).

Lemma jsmap_get_None k m : JsMap.get k m = None ↔ k ∉ JsMap.keys m.
Proof.
  induction m as [|[k' v'] m IH]; simpl.
  - split; [intros _; apply not_elem_of_nil | done].
  - case_decide as E; subst.
    + split; [done | intros H; exfalso; apply H; left].
    + rewrite IH, not_elem_of_cons. tauto.
Qed.

Lemma jsmap_get_Some_elem k v m : JsMap.get k m = Some v → (k, v) ∈ m.
Proof.
  induction m as [|[k' v'] m IH]; simpl; [done|].
  case_decide; [intros [= ->]; subst; left | intros; right; auto].
Qed.

Lemma jsmap_get_elem k v m : JsMap.wf m → (k, v) ∈ m → JsMap.get k m = Some v.
Proof.
  unfold JsMap.wf, JsMap.keys.
  induction m as [|[k' v'] m IH]; simpl; [by intros _ ?%elem_of_nil|].
  intros [Hk Hm]%NoDup_cons [E | Hin]%elem_of_cons.
  - inversion E; subst. by case_decide.
  - case_decide as E; [subst | by apply IH].
    exfalso; apply Hk. apply (list_elem_of_fmap_2 fst) in Hin. done.
Qed.

Lemma jsmap_has_true k m : JsMap.has k m = true ↔ k ∈ JsMap.keys m.
Proof.
  unfold JsMap.has. destruct (JsMap.get k m) eqn:E.
  - split; [intros _ | done].
    apply jsmap_get_Some_elem in E. by apply (list_elem_of_fmap_2 fst) in E.
  - apply jsmap_get_None in E. split; [done | by intros ?].
Qed.

Lemma jsmap_has_false k m : JsMap.has k m = false ↔ JsMap.get k m = None.
Proof. unfold JsMap.has. destruct (JsMap.get k m); split; congruence. Qed.

(** Setting a key that is not present appends the entry. *)
Lemma jsmap_set_fresh k v m :
  JsMap.get k m = None → JsMap.set k v m = m ++ [(k, v)].
Proof.
  induction m as [|[k' v'] m IH]; simpl; [done|].
  case_decide; [done | intros ?; by rewrite IH].
Qed.

Lemma jsmap_get_set k k' v m :
  JsMap.get k' (JsMap.set k v m)
  = if decide (k' = k) then Some v else JsMap.get k' m.
Proof.
  induction m as [|[k0 v0] m IH]; simpl.
  - repeat case_decide; congruence.
  - repeat (case_decide; simpl; subst); try congruence;
      rewrite IH; by case_decide.
Qed.

Lemma jsmap_get_remove k k' m :
  JsMap.wf m →
  JsMap.get k' (JsMap.remove k m)
  = if decide (k' = k) then None else JsMap.get k' m.
Proof.
  intros Hwf. induction m as [|[k0 v0] m IH]; simpl; [by case_decide|].
  apply NoDup_cons in Hwf as [Hk Hm]. specialize (IH Hm).
  destruct (decide (k = k0)) as [->|Hne]; simpl.
  - destruct (decide (k' = k0)) as [->|]; [by apply jsmap_get_None | done].
  - destruct (decide (k' = k0)) as [->|]; [|done].
    by rewrite decide_False by done.
Qed.

Lemma jsmap_keys_remove_subseteq k m :
  JsMap.keys (JsMap.remove k m) ⊆ JsMap.keys m.
Proof.
  unfold JsMap.keys. induction m as [|[k0 v0] m IH]; simpl; [done|].
  intros x Hx. case_decide; [by right|].
  simpl in Hx. apply elem_of_cons in Hx as [->|Hx]; [left | right; by apply IH].
Qed.

Lemma jsmap_wf_remove k m : JsMap.wf m → JsMap.wf (JsMap.remove k m).
Proof.
  unfold JsMap.wf.
  induction m as [|[k0 v0] m IH]; simpl; [done|].
  unfold JsMap.keys in *; simpl.
  intros [Hk Hm]%NoDup_cons. case_decide; [done|]. simpl.
  apply NoDup_cons. split; [|by apply IH].
  intros Hin. apply Hk. by apply (jsmap_keys_remove_subseteq k m).
Qed.

Lemma jsmap_wf_set k v m : JsMap.wf m → JsMap.wf (JsMap.set k v m).
Proof.
  unfold JsMap.wf, JsMap.keys.
  induction m as [|[k0 v0] m IH]; simpl.
  - intros _. apply NoDup_singleton.
  - intros [Hk Hm]%NoDup_cons. case_decide; subst; simpl.
    + by apply NoDup_cons.
    + apply NoDup_cons. split; [|by apply IH].
      intros Hin. apply Hk.
      assert (JsMap.has k0 (JsMap.set k v m) = true) as Hh
        by by apply jsmap_has_true.
      unfold JsMap.has in Hh. rewrite jsmap_get_set in Hh.
      case_decide; [done|]. by apply jsmap_has_true.
Qed.
End JsMapFacts.

(** ** Scene: content updates *)

Lemma set_text_id (s : Scene) : set_text (text s) s = s.
Proof. by destruct s. Qed.

(** A well-formed choice table is equal to itself under [choicesAreEqual]. *)
Lemma choicesAreEqual_refl (s : Scene) (m : JsMap.t string) :
  choices s = m → JsMap.wf m → choicesAreEqual (Some m) s = Returns true.
Proof.
  intros <- Hwf. unfold choicesAreEqual. rewrite Nat.eqb_refl. simpl. f_equal.
  apply forallb_forall. intros [k v] Hin. apply bool_decide_eq_true.
  apply jsmap_get_elem; [done|]. by apply list_elem_of_In.
Qed.

(** With a choice table equal to the current one, [updateContent] reports
    an edit exactly when [newText] is a non-blank string, whether or not
    it differs from the current text. *)
Lemma updateContent_equal_choices (t : string) (s : Scene) :
  JsMap.wf (choices s) →
  updateContent (Some t) (Some (choices s)) s
  = Returns (if decide (trim t ≠ "") then set_text t s else s,
             bool_decide (trim t ≠ "")).
Proof.
  intros Hwf. unfold updateContent.
  case_decide as E.
  - rewrite (choicesAreEqual_refl (set_text t s) (choices s)) by done. simpl.
    by rewrite bool_decide_eq_true_2.
  - rewrite (choicesAreEqual_refl s (choices s)) by done. simpl.
    by rewrite bool_decide_eq_false_2 by (intros H; by apply H).
Qed.

(** C7. [updateContent] called with [null] as [newChoices] does not return:
    for every scene and every [newText], reading [newChoices.size] in
    [choicesAreEqual] throws before the branch that clears the choices is
    reached. *)
Theorem updateContent_null_choices_throws (newText : option string) (s : Scene) :
  updateContent newText None s = Throws.
Proof.
  unfold updateContent. destruct newText as [t|]; [case_decide|]; reflexivity.
Qed.

(** The same call through [editScene], on the story of the test
    "should update choices to an empty map if provided". *)
Example editScene_null_choices_throws :
  let h : gmap loc Scene := {[ 0%nat := newScene "A" "Root Scene" None InitNone ]} in
  let st := mkStory [("A", 0%nat)] (Some 0%nat) in
  editScene "A" None None h st = Throws.
Proof. reflexivity. Qed.

(** C6. For every scene of the story with a non-blank text, [editScene]
    called with that same text and a choice table equal to the current one
    returns true: the text is assigned, and counted as an edit, without
    being compared with the current text. *)
Theorem editScene_unchanged_returns_true
    (h : gmap loc Scene) (st : Story) (k : string) (scene : loc) :
  JsMap.get k (scenes st) = Some scene →
  trim (text (h !!! scene)) ≠ "" →
  JsMap.wf (choices (h !!! scene)) →
  editScene k (Some (text (h !!! scene))) (Some (choices (h !!! scene))) h st
  = Returns (<[scene := h !!! scene]> h, true).
Proof.
  intros Hk Ht Hwf. unfold editScene. rewrite Hk.
  rewrite updateContent_equal_choices by done. simpl.
  rewrite decide_True by done. rewrite bool_decide_eq_true_2 by done.
  by rewrite set_text_id.
Qed.

Lemma editScene_unchanged_returns_true_witness :
  let h : gmap loc Scene := {[ 0%nat := newScene "A" "Root Scene" None InitNone ]} in
  let st := mkStory [("A", 0%nat)] (Some 0%nat) in
  editScene "A" (Some "Root Scene") (Some []) h st
  = Returns (<[0%nat := h !!! 0%nat]> h, true).
Proof.
  intros h st.
  apply (editScene_unchanged_returns_true h st "A" 0%nat).
  - reflexivity.
  - vm_compute. discriminate.
  - vm_compute. constructor.
Defined.

(** C8. [changeSceneParent] called with a key that is absent from the
    scene collection throws: after the warning there is no [return], and
    [scene.parent] is read on [undefined]. *)
Theorem changeSceneParent_absent_key_throws
    (k newParentKey : string) (h : gmap loc Scene) (st : Story) :
  JsMap.get k (scenes st) = None →
  changeSceneParent k newParentKey h st = Throws.
Proof. intros Hk. unfold changeSceneParent. by rewrite Hk. Qed.

Lemma changeSceneParent_absent_key_throws_witness :
  changeSceneParent "Z" "A"
    {[ 0%nat := newScene "A" "Root Scene" None InitNone ]}
    (mkStory [("A", 0%nat)] (Some 0%nat)) = Throws.
Proof. apply changeSceneParent_absent_key_throws. reflexivity. Defined.

(** ** The object store *)

Section HeapFacts.
Implicit Types (h : gmap loc Scene) (l : loc).

Lemma call_addChoice_lookup h l t next l' :
  call_addChoice h l t next !!! l'
  = if decide (l = l') then (addChoice t next (h !!! l)).1 else h !!! l'.
Proof. unfold call_addChoice. apply lookup_total_insert. Qed.

Lemma call_removeChoice_lookup h l next l' :
  call_removeChoice h l next !!! l'
  = if decide (l = l') then (removeChoice next (h !!! l)).1 else h !!! l'.
Proof. unfold call_removeChoice. apply lookup_total_insert. Qed.

Lemma write_parent_lookup h l p l' :
  write_parent h l p !!! l'
  = if decide (l = l') then set_parent p (h !!! l) else h !!! l'.
Proof. unfold write_parent. apply lookup_total_insert. Qed.

Lemma key_addChoice t next (s : Scene) : key (addChoice t next s).1 = key s.
Proof. unfold addChoice. by destruct (JsMap.has _ _). Qed.

Lemma key_removeChoice next (s : Scene) : key (removeChoice next s).1 = key s.
Proof. reflexivity. Qed.

Lemma parent_addChoice t next (s : Scene) :
  parent (addChoice t next s).1 = parent s.
Proof. unfold addChoice. by destruct (JsMap.has _ _). Qed.

Lemma choices_addChoice t next (s : Scene) :
  JsMap.get next (choices (addChoice t next s).1)
  = Some (default t (JsMap.get next (choices s))).
Proof.
  unfold addChoice, JsMap.has.
  destruct (JsMap.get next (choices s)) eqn:E; simpl; [done|].
  rewrite jsmap_get_set. by case_decide.
Qed.

(** No operation of the core writes the [key] field. *)
Lemma key_call_addChoice h l t next l' :
  key (call_addChoice h l t next !!! l') = key (h !!! l').
Proof.
  rewrite call_addChoice_lookup. case_decide; [subst|done].
  apply key_addChoice.
Qed.

Lemma key_call_removeChoice h l next l' :
  key (call_removeChoice h l next !!! l') = key (h !!! l').
Proof. rewrite call_removeChoice_lookup. by case_decide; subst. Qed.

Lemma key_write_parent h l p l' :
  key (write_parent h l p !!! l') = key (h !!! l').
Proof. rewrite write_parent_lookup. by case_decide; subst. Qed.
End HeapFacts.

(** ** Reparenting *)

(** What [changeSceneParent] does when the scene has a parent [x] other
    than the new parent [a]: the edge is removed from [x], the scene's
    parent becomes [a], and [a] holds an edge to the scene. The label of
    the removed edge is read through [.text] on a string and is lost: a
    fresh edge carries the default label, an existing edge keeps its own. *)
Lemma changeSceneParent_reparents
    (h : gmap loc Scene) (st : Story) (kb ka : string) (b a x : loc) (L : string) :
  getScene st kb = Some b →
  getScene st ka = Some a →
  key (h !!! b) = kb →
  parent (h !!! b) = Some x →
  x ≠ a →
  JsMap.wf (choices (h !!! x)) →
  JsMap.get kb (choices (h !!! x)) = Some L →
  ∃ h', changeSceneParent kb ka h st = Returns (h', true)
        ∧ JsMap.get kb (choices (h' !!! x)) = None
        ∧ parent (h' !!! b) = Some a
        ∧ JsMap.get kb (choices (h' !!! a))
          = Some (default ("to " +:+ kb) (JsMap.get kb (choices (h !!! a)))).
Proof.
  unfold getScene. intros Hb Ha Hkey Hpar Hxa Hwf HL.
  unfold changeSceneParent. rewrite Hb, Hpar, Hkey, HL, Ha.
  eexists. split; [reflexivity|].
  assert (JsMap.get kb (choices (removeChoice kb (h !!! x)).1) = None) as Hrm.
  { simpl. rewrite jsmap_get_remove by done. by rewrite decide_True. }
  split; [|split].
  - rewrite call_addChoice_lookup, decide_False by done.
    rewrite write_parent_lookup. case_decide; subst; simpl;
      rewrite call_removeChoice_lookup, decide_True by done; apply Hrm.
  - rewrite call_addChoice_lookup. case_decide; subst.
    + rewrite parent_addChoice, write_parent_lookup. by rewrite decide_True.
    + rewrite write_parent_lookup. by rewrite decide_True.
  - rewrite call_addChoice_lookup, decide_True by done.
    rewrite choices_addChoice. f_equal. f_equal.
    rewrite write_parent_lookup. case_decide; subst; simpl;
      by rewrite call_removeChoice_lookup, decide_False by done.
Qed.

(** C4. On [reparent_story], [changeSceneParent("B","A")] returns true,
    removes [X]'s edge to [B] and makes [A] the parent of [B], but the edge
    that [A] gains is labelled "to B": the label "Go to B" of the removed
    edge is not preserved. *)
Theorem changeSceneParent_loses_label :
  let '(h, st) := reparent_story in
  JsMap.get "B" (choices (h !!! 0%nat)) = Some "Go to B"
  ∧ parent (h !!! 2%nat) = Some 0%nat
  ∧ ∃ h', changeSceneParent "B" "A" h st = Returns (h', true)
          ∧ JsMap.get "B" (choices (h' !!! 0%nat)) = None
          ∧ parent (h' !!! 2%nat) = Some 1%nat
          ∧ JsMap.get "B" (choices (h' !!! 1%nat)) = Some "to B".
Proof.
  vm_compute. split; [done|]. split; [done|].
  eexists. split; [reflexivity|]. by vm_compute.
Qed.

(** ** Serialisation round trip *)

Lemma fromJson_choice_toJSON (s : Scene) (next t : string) :
  fromJson_choice s (choice_toJSON (next, t)) = (addChoice t next s).1.
Proof. reflexivity. Qed.

Lemma foldl_fromJson_choice (k t : string) (p : option loc)
    (cs acc : JsMap.t string) :
  NoDup (JsMap.keys (acc ++ cs)) →
  foldl fromJson_choice (mkScene k t p acc) (choice_toJSON <$> cs)
  = mkScene k t p (acc ++ cs).
Proof.
  revert acc. induction cs as [|[next lbl] cs IH]; intros acc Hnd.
  - simpl. by rewrite app_nil_r.
  - rewrite fmap_cons. cbn [foldl]. rewrite fromJson_choice_toJSON.
    assert (JsMap.get next acc = None) as Hfresh.
    { apply jsmap_get_None. unfold JsMap.keys in *.
      rewrite fmap_app in Hnd. apply NoDup_app in Hnd as (_ & Hdis & _).
      intros Hin. apply (Hdis _ Hin). left. }
    unfold addChoice, JsMap.has. simpl. rewrite Hfresh. simpl.
    unfold set_choices. simpl. rewrite jsmap_set_fresh by done.
    rewrite IH; [by rewrite <- app_assoc|].
    by rewrite <- app_assoc.
Qed.

Lemma toJSON_choices (s : Scene) :
  toJSON s
  = match choices s with
    | [] => JObj [("text", JStr (text s))]
    | _ :: _ => JObj [("text", JStr (text s));
                      ("choices", JArr (choice_toJSON <$> choices s))]
    end.
Proof. unfold toJSON. by destruct (choices s) as [|[??] ?]. Qed.

(** What deserialisation returns on a serialised scene: the scene itself,
    detached from its parent. *)
Lemma fromJson_toJSON (JSON_parse : string → option JValue) (s : Scene) :
  key s ≠ "" → text s ≠ "" → JsMap.wf (choices s) →
  fromJson JSON_parse (key s) (toJSON s) = Returns (Some (set_parent None s)).
Proof.
  intros Hk Ht Hwf. unfold fromJson.
  rewrite bool_decide_eq_false_2 by done.
  rewrite toJSON_choices.
  destruct s as [k t p cs]; simpl in *.
  destruct cs as [|c cs]; simpl.
  - by rewrite bool_decide_eq_false_2 by done.
  - rewrite bool_decide_eq_false_2 by done. do 2 f_equal.
    exact (foldl_fromJson_choice k t None (c :: cs) [] Hwf).
Qed.

(** C3, as stated: a scene with the constructor's default text (the empty
    string) serialises to a record that [fromJson] rejects, so there is no
    second serialisation. *)
Lemma roundtrip_fails_on_empty_text :
  ¬ roundtrip_stable (λ _, None) (newScene "A" "" None InitNone).
Proof. intros (s' & H & _). vm_compute in H. discriminate. Qed.

(** C3, amended. A scene whose choice table is empty, whatever its key
    and text, serialises to a record with the single field [text]; and
    for every scene with a non-empty key and a non-empty text,
    serialising, deserialising under the same key and serialising again
    yields the first serialisation. *)
Theorem scene_roundtrip_stable
    (JSON_parse : string → option JValue) (s : Scene) :
  (choices s = [] → toJSON s = JObj [("text", JStr (text s))])
  ∧ (key s ≠ "" → text s ≠ "" → JsMap.wf (choices s) →
     roundtrip_stable JSON_parse s).
Proof.
  split.
  - intros Hnil. by rewrite toJSON_choices, Hnil.
  - intros Hk Ht Hwf.
    exists (set_parent None s). split; [by apply fromJson_toJSON | reflexivity].
Qed.

Lemma scene_roundtrip_stable_witness :
  let s0 := newScene "A" "" None InitNone in
  let s1 := newScene "B" "Leaf Scene" (Some 7%nat) InitNone in
  let s2 := newScene "A" "Root Scene" (Some 7%nat)
              (InitPairs [mkChoice "Go to B" "B"; mkChoice "Go to C" "C"]) in
  toJSON s0 = JObj [("text", JStr "")]
  ∧ toJSON s1 = JObj [("text", JStr "Leaf Scene")]
  ∧ roundtrip_stable (λ _, None) s1
  ∧ roundtrip_stable (λ _, None) s2.
Proof.
  intros s0 s1 s2.
  split; [|split; [|split]].
  - apply (proj1 (scene_roundtrip_stable (λ _, None) s0)). reflexivity.
  - apply (proj1 (scene_roundtrip_stable (λ _, None) s1)). reflexivity.
  - apply (proj2 (scene_roundtrip_stable (λ _, None) s1)).
    + vm_compute. discriminate.
    + vm_compute. discriminate.
    + apply (bool_decide_unpack _). vm_compute. exact I.
  - apply (proj2 (scene_roundtrip_stable (λ _, None) s2)).
    + vm_compute. discriminate.
    + vm_compute. discriminate.
    + apply (bool_decide_unpack _). vm_compute. exact I.
Defined.

(** ** Traversal: the loop, one iteration at a time *)

Lemma push_children_app (children : list loc) (depth : Z) (stack : list (loc * Z)) :
  push_children children depth stack = ((λ c, (c, depth)) <$> children) ++ stack.
Proof.
  unfold push_children. revert stack.
  induction children as [|c cs IH]; intros stack; [done|].
  rewrite reverse_cons, foldl_app, IH. reflexivity.
Qed.

Lemma dfs_loop_nil (fuel : nat) h st visited result :
  dfs_loop fuel h st [] visited result = Returns result.
Proof. by destruct fuel. Qed.

Lemma dfs_loop_skip (fuel : nat) h st scene depth stack visited result :
  key (h !!! scene) ∈ visited →
  dfs_loop (S fuel) h st ((scene, depth) :: stack) visited result
  = dfs_loop fuel h st stack visited result.
Proof. intros Hin. cbn [dfs_loop dfs_body]. by rewrite decide_True. Qed.

Lemma dfs_loop_visit (fuel : nat) h st scene depth stack visited result :
  key (h !!! scene) ∉ visited →
  dfs_loop (S fuel) h st ((scene, depth) :: stack) visited result
  = let visited' := visited ∪ {[key (h !!! scene)]} in
    dfs_loop fuel h st
      (((λ c, (c, depth + 1)) <$> dfs_children h st visited' scene) ++ stack)
      visited'
      (result ++ [mkSceneRef (key (h !!! scene)) scene depth]).
Proof.
  intros Hin. cbn [dfs_loop dfs_body]. rewrite decide_False by done.
  by rewrite push_children_app.
Qed.

(** More fuel does not change a result. *)
Lemma dfs_loop_fuel_mono (fuel fuel' : nat) h st stack visited result r :
  (fuel ≤ fuel')%nat →
  dfs_loop fuel h st stack visited result = Returns r →
  dfs_loop fuel' h st stack visited result = Returns r.
Proof.
  revert fuel' stack visited result.
  induction fuel as [|fuel IH]; intros fuel' stack visited result Hle.
  - destruct stack; simpl; [|done]. by rewrite dfs_loop_nil.
  - destruct fuel' as [|fuel']; [lia|].
    destruct stack as [|top stack]; [done|].
    cbn [dfs_loop]. destruct (dfs_body h st top stack visited result) as [[??]?].
    apply IH. lia.
Qed.

Lemma depth_loop_fuel_mono (fuel fuel' : nat) h current depth d :
  (fuel ≤ fuel')%nat →
  depth_loop fuel h current depth = Returns d →
  depth_loop fuel' h current depth = Returns d.
Proof.
  revert fuel' current depth.
  induction fuel as [|fuel IH]; intros fuel' current depth Hle; simpl.
  - destruct fuel'; simpl; by destruct (parent (h !!! current)).
  - destruct fuel' as [|fuel']; [lia|]. simpl.
    destruct (parent (h !!! current)); [|done]. apply IH. lia.
Qed.

Lemma getScenesDFS_fuel_mono (fuel fuel' : nat) h st start r :
  (fuel ≤ fuel')%nat →
  getScenesDFS fuel h st start = Returns r →
  getScenesDFS fuel' h st start = Returns r.
Proof.
  intros Hle. unfold getScenesDFS. destruct start as [s|]; [|done].
  case_decide; simpl.
  - by apply dfs_loop_fuel_mono.
  - unfold getSceneDepth. destruct (negb _); simpl.
    + by apply dfs_loop_fuel_mono.
    + destruct (depth_loop fuel h s 0) as [d| |] eqn:E; simpl; [|done..].
      rewrite (depth_loop_fuel_mono fuel fuel' h s 0 d) by done. simpl.
      by apply dfs_loop_fuel_mono.
Qed.

(** ** Traversal and cycle detection on small graphs *)

Lemma graph_is_scenes h st g k :
  graph_is h st g → getScene st k = JsMap.get k ((λ e, (e.1.1, e.1.2)) <$> g).
Proof. intros (H & _). unfold getScene. by rewrite H. Qed.

Lemma graph_is_node h st g k l targets :
  graph_is h st g → (k, l, targets) ∈ g →
  key (h !!! l) = k ∧ JsMap.keys (choices (h !!! l)) = targets.
Proof.
  intros (_ & _ & Hall) Hin.
  by apply (proj1 (Forall_forall _ _) Hall (k, l, targets)).
Qed.

Lemma dfs_children_keys h st visited scene targets :
  JsMap.keys (choices (h !!! scene)) = targets →
  dfs_children h st visited scene
  = filter (λ child, key (h !!! child) ∉ visited) (omap (getScene st) targets).
Proof. intros <-. reflexivity. Qed.

Lemma points_to_visited_keys h st visited scene targets :
  JsMap.keys (choices (h !!! scene)) = targets →
  points_to_visited h st visited scene
  = existsb (λ nextKey,
               match getScene st nextKey with
               | Some nextScene => bool_decide (key (h !!! nextScene) ∈ visited)
               | None => false
               end) targets.
Proof. intros <-. reflexivity. Qed.

Ltac in_list := apply list_elem_of_In; simpl; tauto.

Section ThreeScenes.
Variables (h : gmap loc Scene) (st : Story).
Variables (a b c : string) (la lb lc : loc).
Hypothesis Hab : a ≠ b.
Hypothesis Hac : a ≠ c.
Hypothesis Hbc : b ≠ c.

(** The DFS of a story with the scenes [a], [b], [c] whose edges are
    [a → b → c], with or without the back edge [c → a]. *)
Lemma getScenesDFS_three (back : list string) (fuel : nat) :
  back = [] ∨ back = [a] →
  root st = Some la →
  scene_at h st a la [b] → scene_at h st b lb [c] → scene_at h st c lc back →
  (3 ≤ fuel)%nat →
  getScenesDFS fuel h st (root st)
  = Returns [mkSceneRef a la 0; mkSceneRef b lb 1; mkSceneRef c lc 2].
Proof using Hab Hac Hbc.
  intros Hback Hroot (Sa & Ka & Ca) (Sb & Kb & Cb) (Sc & Kc & Cc) Hfuel.
  apply (getScenesDFS_fuel_mono 3); [done|].
  unfold getScenesDFS. rewrite Hroot. rewrite decide_True by done.
  cbn [mbind outcome_bind].
  rewrite dfs_loop_visit by (rewrite Ka; set_solver). cbn zeta.
  rewrite (dfs_children_keys _ _ _ _ _ Ca). cbn [omap list_omap].
  rewrite Sb, Ka. cbn [filter list_filter]. rewrite Kb.
  rewrite decide_True by set_solver. cbn [fmap list_fmap app].
  rewrite dfs_loop_visit by (rewrite Kb; set_solver). cbn zeta.
  rewrite (dfs_children_keys _ _ _ _ _ Cb). cbn [omap list_omap].
  rewrite Sc, Kb. cbn [filter list_filter]. rewrite Kc.
  rewrite decide_True by set_solver. cbn [fmap list_fmap app].
  rewrite dfs_loop_visit by (rewrite Kc; set_solver). cbn zeta.
  rewrite (dfs_children_keys _ _ _ _ _ Cc), Kc.
  destruct Hback as [-> | ->]; cbn [omap list_omap].
  - reflexivity.
  - rewrite Sa. cbn [filter list_filter]. rewrite Ka.
    rewrite decide_False by set_solver. reflexivity.
Qed.

(** [hasCircle] on the same stories: the back edge [c → a] is found
    when [c] is scanned, after [a] and [b] were marked. *)
Lemma hasCircle_three (back : list string) (fuel : nat) :
  back = [] ∨ back = [a] →
  root st = Some la →
  scene_at h st a la [b] → scene_at h st b lb [c] → scene_at h st c lc back →
  (3 ≤ fuel)%nat →
  hasCircle fuel h st = Returns (bool_decide (back = [a])).
Proof using Hab Hac Hbc.
  intros Hback Hroot Ha Hb Hc Hfuel. unfold hasCircle.
  rewrite (getScenesDFS_three back) by done. cbn [mbind outcome_bind mret outcome_ret].
  destruct Ha as (Sa & Ka & Ca), Hb as (Sb & Kb & Cb), Hc as (Sc & Kc & Cc).
  cbn [hasCircle_loop ref_scene].
  rewrite (points_to_visited_keys _ _ _ _ _ Ca). cbn [existsb]. rewrite Sb. cbn beta iota. rewrite ?Kb.
  rewrite bool_decide_eq_false_2 by set_solver. cbn [orb]. rewrite ?Ka.
  rewrite (points_to_visited_keys _ _ _ _ _ Cb). cbn [existsb]. rewrite Sc. cbn beta iota. rewrite ?Kc.
  rewrite bool_decide_eq_false_2 by set_solver. cbn [orb]. rewrite ?Kb.
  rewrite (points_to_visited_keys _ _ _ _ _ Cc).
  destruct Hback as [-> | ->]; cbn [existsb].
  - by rewrite bool_decide_eq_false_2.
  - rewrite Sa. cbn beta iota. rewrite ?Ka.
    rewrite bool_decide_eq_true_2 by set_solver.
    by rewrite bool_decide_eq_true_2.
Qed.
End ThreeScenes.

Section TwoScenes.
Variables (h : gmap loc Scene) (st : Story).
Variables (a b : string) (la lb : loc).
Hypothesis Hab : a ≠ b.

(** The two-scene cycle [a → b → a]. *)
Lemma getScenesDFS_two_cycle (fuel : nat) :
  root st = Some la →
  scene_at h st a la [b] → scene_at h st b lb [a] →
  (2 ≤ fuel)%nat →
  getScenesDFS fuel h st (root st)
  = Returns [mkSceneRef a la 0; mkSceneRef b lb 1].
Proof using Hab.
  intros Hroot (Sa & Ka & Ca) (Sb & Kb & Cb) Hfuel.
  apply (getScenesDFS_fuel_mono 2); [done|].
  unfold getScenesDFS. rewrite Hroot. rewrite decide_True by done.
  cbn [mbind outcome_bind].
  rewrite dfs_loop_visit by (rewrite Ka; set_solver). cbn zeta.
  rewrite (dfs_children_keys _ _ _ _ _ Ca). cbn [omap list_omap].
  rewrite Sb, Ka. cbn [filter list_filter]. rewrite Kb.
  rewrite decide_True by set_solver. cbn [fmap list_fmap app].
  rewrite dfs_loop_visit by (rewrite Kb; set_solver). cbn zeta.
  rewrite (dfs_children_keys _ _ _ _ _ Cb). cbn [omap list_omap].
  rewrite Sa, Kb. cbn [filter list_filter]. rewrite Ka.
  rewrite decide_False by set_solver. reflexivity.
Qed.

Lemma hasCircle_two_cycle (fuel : nat) :
  root st = Some la →
  scene_at h st a la [b] → scene_at h st b lb [a] →
  (2 ≤ fuel)%nat →
  hasCircle fuel h st = Returns true.
Proof using Hab.
  intros Hroot Ha Hb Hfuel. unfold hasCircle.
  rewrite getScenesDFS_two_cycle by done.
  cbn [mbind outcome_bind mret outcome_ret].
  destruct Ha as (Sa & Ka & Ca), Hb as (Sb & Kb & Cb).
  cbn [hasCircle_loop ref_scene].
  rewrite (points_to_visited_keys _ _ _ _ _ Ca). cbn [existsb]. rewrite Sb. cbn beta iota. rewrite ?Kb.
  rewrite bool_decide_eq_false_2 by set_solver. cbn [orb]. rewrite ?Ka.
  rewrite (points_to_visited_keys _ _ _ _ _ Cb). cbn [existsb]. rewrite Sa. cbn beta iota. rewrite ?Ka.
  by rewrite bool_decide_eq_true_2 by set_solver.
Qed.
End TwoScenes.

Section OneScene.
Variables (h : gmap loc Scene) (st : Story).
Variables (a : string) (la : loc).

(** A single scene, without choices or with one choice that targets the
    scene itself. *)
Lemma getScenesDFS_one (self : list string) (fuel : nat) :
  self = [] ∨ self = [a] →
  graph_is h st [(a, la, self)] →
  (1 ≤ fuel)%nat →
  getScenesDFS fuel h st (root st) = Returns [mkSceneRef a la 0].
Proof.
  intros Hself Hg Hfuel.
  pose proof (graph_is_node _ _ _ a la self Hg ltac:(in_list)) as [Ka Ca].
  pose proof (graph_is_scenes _ _ _ a Hg) as Sa.
  cbn in Sa. rewrite decide_True in Sa by done.
  destruct Hg as (_ & Hroot & _). simpl in Hroot.
  apply (getScenesDFS_fuel_mono 1); [done|].
  unfold getScenesDFS. rewrite Hroot. rewrite decide_True by done.
  cbn [mbind outcome_bind].
  rewrite dfs_loop_visit by (rewrite Ka; set_solver). cbn zeta.
  rewrite (dfs_children_keys _ _ _ _ _ Ca), Ka.
  destruct Hself as [-> | ->]; cbn [omap list_omap].
  - reflexivity.
  - rewrite Sa. cbn [filter list_filter]. rewrite Ka.
    rewrite decide_False by set_solver. reflexivity.
Qed.

Lemma hasCircle_one (self : list string) (fuel : nat) :
  self = [] ∨ self = [a] →
  graph_is h st [(a, la, self)] →
  (1 ≤ fuel)%nat →
  hasCircle fuel h st = Returns false.
Proof.
  intros Hself Hg Hfuel. unfold hasCircle.
  rewrite (getScenesDFS_one self) by done.
  cbn [mbind outcome_bind mret outcome_ret].
  pose proof (graph_is_node _ _ _ a la self Hg ltac:(in_list)) as [Ka Ca].
  pose proof (graph_is_scenes _ _ _ a Hg) as Sa.
  cbn in Sa. rewrite decide_True in Sa by done.
  cbn [hasCircle_loop ref_scene].
  rewrite (points_to_visited_keys _ _ _ _ _ Ca).
  destruct Hself as [-> | ->]; cbn [existsb]; [done|].
  rewrite Sa. cbn beta iota. rewrite ?Ka.
  by rewrite bool_decide_eq_false_2 by set_solver.
Qed.
End OneScene.

(** A root without choices: whatever else the collection holds, the DFS
    emits the root alone. *)
Lemma hasCircle_single (h : gmap loc Scene) (st : Story)
    (a : string) (la : loc) (fuel : nat) :
  root st = Some la → scene_at h st a la [] →
  (1 ≤ fuel)%nat →
  hasCircle fuel h st = Returns false.
Proof.
  intros Hroot (Sa & Ka & Ca) Hfuel. unfold hasCircle.
  assert (getScenesDFS fuel h st (root st) = Returns [mkSceneRef a la 0]) as ->.
  { apply (getScenesDFS_fuel_mono 1); [done|].
    unfold getScenesDFS. rewrite Hroot. rewrite decide_True by done.
    cbn [mbind outcome_bind].
    rewrite dfs_loop_visit by (rewrite Ka; set_solver). cbn zeta.
    by rewrite (dfs_children_keys _ _ _ _ _ Ca), Ka. }
  cbn [mbind outcome_bind mret outcome_ret hasCircle_loop ref_scene].
  by rewrite (points_to_visited_keys _ _ _ _ _ Ca).
Qed.

(** Without a root the DFS has no start scene and nothing is scanned. *)
Lemma hasCircle_empty (h : gmap loc Scene) (st : Story) (fuel : nat) :
  root st = None → hasCircle fuel h st = Returns false.
Proof. intros Hroot. unfold hasCircle, getScenesDFS. by rewrite Hroot. Qed.

Ltac graph_is_by_computation :=
  vm_compute; repeat first [ split | constructor | reflexivity ].

(** C1. On the chain [a → b → c], [getScenesDFS] started at the root
    returns the entries of [a], [b], [c] in that order; on the cycle
    [a → b → c → a] it returns, with the same entries, each exactly once.
    The graphs are given by what the keys resolve to and by the choices
    of the three scenes, in whatever order the collection stores them. *)
Theorem getScenesDFS_chain_and_cycle
    (h1 h2 : gmap loc Scene) (st1 st2 : Story)
    (a b c : string) (la lb lc : loc) (fuel : nat) :
  a ≠ b → a ≠ c → b ≠ c →
  (3 ≤ fuel)%nat →
  root st1 = Some la →
  scene_at h1 st1 a la [b] → scene_at h1 st1 b lb [c] → scene_at h1 st1 c lc [] →
  root st2 = Some la →
  scene_at h2 st2 a la [b] → scene_at h2 st2 b lb [c] → scene_at h2 st2 c lc [a] →
  getScenesDFS fuel h1 st1 (root st1)
  = Returns [mkSceneRef a la 0; mkSceneRef b lb 1; mkSceneRef c lc 2]
  ∧ getScenesDFS fuel h2 st2 (root st2)
    = Returns [mkSceneRef a la 0; mkSceneRef b lb 1; mkSceneRef c lc 2].
Proof.
  intros Hab Hac Hbc Hfuel Hr1 Ha1 Hb1 Hc1 Hr2 Ha2 Hb2 Hc2. split.
  - apply (getScenesDFS_three h1 st1 a b c la lb lc Hab Hac Hbc []); auto.
  - apply (getScenesDFS_three h2 st2 a b c la lb lc Hab Hac Hbc [a]); auto.
Qed.

Lemma getScenesDFS_chain_and_cycle_witness :
  JsMap.keys (scenes test_chain_acb.2) = ["A"; "C"; "B"]
  ∧ getScenesDFS 3 test_chain_acb.1 test_chain_acb.2 (root test_chain_acb.2)
    = Returns [mkSceneRef "A" 0%nat 0; mkSceneRef "B" 1%nat 1; mkSceneRef "C" 2%nat 2]
  ∧ getScenesDFS 3 test_cycle3.1 test_cycle3.2 (root test_cycle3.2)
    = Returns [mkSceneRef "A" 0%nat 0; mkSceneRef "B" 1%nat 1; mkSceneRef "C" 2%nat 2].
Proof.
  split; [reflexivity|].
  apply getScenesDFS_chain_and_cycle;
    first [ discriminate | lia | reflexivity
          | split; [reflexivity | split; reflexivity] ].
Defined.

(** C2. [hasCircle] returns true on the cycles [a → b → c → a] and
    [a → b → a], and false on the chain [a → b → c], on a story without
    root (the empty story is one) and on a story whose root has no
    choices. The graphs are given by what the keys resolve to and by the
    choices of the scenes, in whatever order the collection stores them. *)
Theorem hasCircle_examples
    (h1 h2 h3 h4 h5 : gmap loc Scene) (st1 st2 st3 st4 st5 : Story)
    (a b c : string) (la lb lc : loc) (fuel : nat) :
  a ≠ b → a ≠ c → b ≠ c →
  (3 ≤ fuel)%nat →
  root st1 = Some la →
  scene_at h1 st1 a la [b] → scene_at h1 st1 b lb [c] → scene_at h1 st1 c lc [a] →
  root st2 = Some la →
  scene_at h2 st2 a la [b] → scene_at h2 st2 b lb [a] →
  root st3 = Some la →
  scene_at h3 st3 a la [b] → scene_at h3 st3 b lb [c] → scene_at h3 st3 c lc [] →
  root st4 = None →
  root st5 = Some la → scene_at h5 st5 a la [] →
  hasCircle fuel h1 st1 = Returns true
  ∧ hasCircle fuel h2 st2 = Returns true
  ∧ hasCircle fuel h3 st3 = Returns false
  ∧ hasCircle fuel h4 st4 = Returns false
  ∧ hasCircle fuel h5 st5 = Returns false.
Proof.
  intros Hab Hac Hbc Hfuel Hr1 Ha1 Hb1 Hc1 Hr2 Ha2 Hb2 Hr3 Ha3 Hb3 Hc3 Hr4 Hr5 Ha5.
  repeat split.
  - rewrite (hasCircle_three h1 st1 a b c la lb lc Hab Hac Hbc [a]) by auto.
    by rewrite bool_decide_eq_true_2.
  - apply (hasCircle_two_cycle h2 st2 a b la lb Hab); [done.. | lia].
  - rewrite (hasCircle_three h3 st3 a b c la lb lc Hab Hac Hbc []) by auto.
    by rewrite bool_decide_eq_false_2.
  - by apply hasCircle_empty.
  - apply (hasCircle_single h5 st5 a la); [done.. | lia].
Qed.

Lemma hasCircle_examples_witness :
  JsMap.keys (scenes test_chain_acb.2) = ["A"; "C"; "B"]
  ∧ hasCircle 3 test_cycle3.1 test_cycle3.2 = Returns true
  ∧ hasCircle 3 test_cycle2.1 test_cycle2.2 = Returns true
  ∧ hasCircle 3 test_chain_acb.1 test_chain_acb.2 = Returns false
  ∧ hasCircle 3 test_empty.1 test_empty.2 = Returns false
  ∧ hasCircle 3 test_single.1 test_single.2 = Returns false.
Proof.
  split; [reflexivity|].
  apply (hasCircle_examples _ _ _ _ _ _ _ _ _ _ "A" "B" "C" 0%nat 1%nat 2%nat);
    first [ discriminate | lia | reflexivity
          | split; [reflexivity | split; reflexivity] ].
Defined.

(** C10. On a story whose single scene has one choice, targeting the
    scene itself, [hasCircle] returns false: when the edge is scanned the
    scene is not yet in the visited set. *)
Theorem hasCircle_self_loop_false
    (h : gmap loc Scene) (st : Story) (a : string) (la : loc) (fuel : nat) :
  (1 ≤ fuel)%nat →
  graph_is h st [(a, la, [a])] →
  hasCircle fuel h st = Returns false.
Proof. intros Hfuel Hg. apply (hasCircle_one h st a la [a]); auto. Qed.

Lemma hasCircle_self_loop_false_witness :
  hasCircle 1 test_self_loop.1 test_self_loop.2 = Returns false.
Proof.
  apply (hasCircle_self_loop_false _ _ "A" 0%nat).
  - lia.
  - graph_is_by_computation.
Defined.

(** ** Traversal: termination and coverage, for every story *)

Section Traversal.
Variables (h : gmap loc Scene) (st : Story).

Lemma work_mono (cand : list loc) (visited : gset string) (k : string) :
  (work h cand (visited ∪ {[k]}) ≤ work h cand visited)%nat.
Proof.
  induction cand as [|c cand IH]; simpl; [done|].
  destruct (decide (key (h !!! c) ∈ visited)) as [Hin|Hin].
  - rewrite decide_True by set_solver. lia.
  - case_decide; lia.
Qed.

Lemma work_visit (cand : list loc) (visited : gset string) (l : loc) :
  l ∈ cand → key (h !!! l) ∉ visited →
  (work h cand (visited ∪ {[key (h !!! l)]}) + weight h l ≤ work h cand visited)%nat.
Proof.
  intros Hl Hfresh. induction cand as [|c cand IH]; [by apply elem_of_nil in Hl|].
  simpl. apply elem_of_cons in Hl as [<- | Hl].
  - rewrite decide_True by set_solver. rewrite decide_False by done.
    pose proof (work_mono cand visited (key (h !!! l))). lia.
  - specialize (IH Hl).
    destruct (decide (key (h !!! c) ∈ visited)) as [Hin|Hin].
    + rewrite decide_True by set_solver. lia.
    + case_decide; lia.
Qed.

Lemma dfs_children_spec (visited : gset string) (l c : loc) :
  c ∈ dfs_children h st visited l ↔ (key (h !!! c) ∉ visited) ∧ edge h st l c.
Proof.
  unfold dfs_children, edge.
  rewrite list_elem_of_filter, list_elem_of_omap. reflexivity.
Qed.

Lemma dfs_children_length (visited : gset string) (l : loc) :
  (length (dfs_children h st visited l) ≤ length (choices (h !!! l)))%nat.
Proof.
  unfold dfs_children. etrans; [apply length_filter|].
  unfold JsMap.keys.
  generalize (choices (h !!! l)). intros m.
  induction m as [|[k v] m IH]; [done|].
  rewrite fmap_cons. cbn [omap list_omap fst length].
  destruct (getScene st k); cbn [length].
  - apply (proj1 (Nat.succ_le_mono _ _) IH).
  - etrans; [apply IH | apply Nat.le_succ_diag_r].
Qed.

Lemma getScene_values (k : string) (l : loc) :
  getScene st k = Some l → l ∈ JsMap.values (scenes st).
Proof.
  unfold getScene. intros H%jsmap_get_Some_elem.
  by apply (list_elem_of_fmap_2 snd) in H.
Qed.

(** The loop rule: an invariant kept by both kinds of iteration holds when
    the loop ends, and the loop ends within [length stack + work] steps. *)
Lemma dfs_loop_rule
    (I : list (loc * Z) → gset string → list SceneRef → Prop) (cand : list loc) :
  JsMap.values (scenes st) ⊆ cand →
  (∀ scene depth stack visited result,
     I ((scene, depth) :: stack) visited result →
     key (h !!! scene) ∈ visited →
     I stack visited result) →
  (∀ scene depth stack visited result,
     I ((scene, depth) :: stack) visited result →
     key (h !!! scene) ∉ visited →
     let visited' := visited ∪ {[key (h !!! scene)]} in
     I (((λ c, (c, depth + 1)) <$> dfs_children h st visited' scene) ++ stack)
       visited'
       (result ++ [mkSceneRef (key (h !!! scene)) scene depth])) →
  ∀ fuel stack visited result,
    I stack visited result →
    Forall (λ e, e.1 ∈ cand) stack →
    (length stack + work h cand visited ≤ fuel)%nat →
    ∃ visited' result',
      dfs_loop fuel h st stack visited result = Returns result'
      ∧ I [] visited' result'.
Proof.
  intros Hcand Hskip Hvisit fuel.
  induction fuel as [|fuel IH]; intros stack visited result HI Hstack Hfuel.
  - destruct stack; simpl in *; [|lia]. eauto.
  - destruct stack as [|[scene depth] stack]; [simpl; eauto|].
    apply Forall_cons in Hstack as [Hscene Hstack]. simpl in Hscene, Hfuel.
    destruct (decide (key (h !!! scene) ∈ visited)) as [Hin|Hin].
    + rewrite dfs_loop_skip by done. apply IH; [eauto | done | lia].
    + rewrite dfs_loop_visit by done. cbn zeta. apply IH.
      * by apply Hvisit.
      * apply Forall_app. split; [|done].
        apply Forall_fmap, Forall_forall. intros c [_ (k & _ & Hk)]%dfs_children_spec.
        simpl. apply Hcand. by eapply getScene_values.
      * rewrite length_app, length_fmap.
        pose proof (dfs_children_length (visited ∪ {[key (h !!! scene)]}) scene).
        pose proof (work_visit cand visited scene Hscene Hin).
        unfold weight in *. lia.
Qed.

(** The DFS loop returns for every story and every start scene. *)
Lemma dfs_loop_returns (start : loc) (depth : Z) (fuel : nat) :
  (dfs_fuel h st start ≤ fuel)%nat →
  ∃ result, dfs_loop fuel h st [(start, depth)] ∅ [] = Returns result.
Proof.
  intros Hfuel.
  destruct (dfs_loop_rule (λ _ _ _, True) (start :: JsMap.values (scenes st)))
    with (fuel := fuel) (stack := [(start, depth)])
         (visited := (∅ : gset string)) (result := @nil SceneRef)
    as (V & R & HR & _); try done.
  - intros x Hx. by right.
  - apply Forall_singleton. simpl. left.
  - eauto.
Qed.
End Traversal.

Section Coverage.
Variables (h : gmap loc Scene) (st : Story).
Hypothesis Hwf : story_wf h st.

Lemma story_wf_key (k : string) (l : loc) :
  getScene st k = Some l → key (h !!! l) = k.
Proof using Hwf.
  unfold getScene. intros Hin%jsmap_get_Some_elem.
  destruct Hwf as [_ Hall].
  apply (proj1 (Forall_forall _ _) Hall (k, l) Hin).
Qed.

Lemma story_wf_registered (k : string) (l : loc) :
  getScene st k = Some l → getScene st (key (h !!! l)) = Some l.
Proof using Hwf. intros H. by rewrite (story_wf_key k l H). Qed.

Lemma edge_registered (l c : loc) :
  edge h st l c → getScene st (key (h !!! c)) = Some c.
Proof using Hwf. intros (k & _ & Hk). by eapply story_wf_registered. Qed.

Lemma covers_skip start scene depth stack visited result :
  covers h st start ((scene, depth) :: stack) visited result →
  key (h !!! scene) ∈ visited →
  covers h st start stack visited result.
Proof.
  intros (Hres & Hreg & Hstart & Hedge) Hin.
  apply Forall_cons in Hreg as [_ Hreg].
  split; [done|]. split; [done|]. split.
  - destruct Hstart as [?|Hs]; [by left|].
    simpl in Hs. apply elem_of_cons in Hs as [->|?]; [by left | by right].
  - intros l c Hl Hlreg Hlc.
    destruct (Hedge l c Hl Hlreg Hlc) as [?|Hs]; [by left|].
    simpl in Hs. apply elem_of_cons in Hs as [->|?]; [by left | by right].
Qed.

Lemma covers_visit start scene depth stack visited result :
  covers h st start ((scene, depth) :: stack) visited result →
  key (h !!! scene) ∉ visited →
  let visited' := visited ∪ {[key (h !!! scene)]} in
  covers h st start
    (((λ c, (c, depth + 1)) <$> dfs_children h st visited' scene) ++ stack)
    visited'
    (result ++ [mkSceneRef (key (h !!! scene)) scene depth]).
Proof using Hwf.
  intros (Hres & Hreg & Hstart & Hedge) Hfresh visited'.
  apply Forall_cons in Hreg as [Hscene Hreg]. simpl in Hscene.
  assert (∀ c, c ∈ (scene :: stack.*1) →
               key (h !!! c) ∈ visited'
               ∨ c ∈ (((λ c, (c, depth + 1)) <$> dfs_children h st visited' scene)
                        ++ stack).*1) as Hpop.
  { intros c [->|Hc]%elem_of_cons.
    - left. unfold visited'. set_solver.
    - right. rewrite fmap_app. apply elem_of_app. by right. }
  split; [|split; [|split]].
  - intros k Hk. rewrite fmap_app. apply elem_of_app.
    apply elem_of_union in Hk as [Hk|Hk]; [left; by apply Hres|].
    right. apply elem_of_singleton in Hk as ->. simpl. left.
  - apply Forall_app. split; [|done].
    apply Forall_fmap, Forall_forall. intros c [_ Hc]%dfs_children_spec.
    simpl. by eapply edge_registered.
  - destruct Hstart as [Hs|Hs].
    + left. unfold visited'. set_solver.
    + by apply Hpop.
  - intros l c Hl Hlreg Hlc.
    apply elem_of_union in Hl as [Hl|Hl].
    + destruct (Hedge l c Hl Hlreg Hlc) as [Hc|Hc].
      * left. unfold visited'. set_solver.
      * by apply Hpop.
    + apply elem_of_singleton in Hl.
      assert (l = scene) as -> by congruence.
      destruct (decide (key (h !!! c) ∈ visited')) as [Hc|Hc]; [by left|].
      right. rewrite fmap_app. apply elem_of_app. left.
      rewrite <- list_fmap_compose.
      apply list_elem_of_fmap. exists c. split; [done|].
      by apply dfs_children_spec.
Qed.

(** Coverage: the DFS started at a scene of the collection emits the key
    of every scene reachable from it. *)
Lemma dfs_loop_covers (start : loc) (depth : Z) (fuel : nat) (result : list SceneRef) :
  getScene st (key (h !!! start)) = Some start →
  dfs_loop fuel h st [(start, depth)] ∅ [] = Returns result →
  ∀ l, rtc (edge h st) start l → key (h !!! l) ∈ ref_key <$> result.
Proof using Hwf.
  intros Hstart Hrun.
  destruct (dfs_loop_rule h st (covers h st start) (start :: JsMap.values (scenes st)))
    with (fuel := (fuel `max` dfs_fuel h st start)%nat)
         (stack := [(start, depth)])
         (visited := (∅ : gset string)) (result := @nil SceneRef)
    as (V & R & HR & Hres & _ & Hs & Hedge).
  - intros x Hx. by right.
  - intros. by eapply covers_skip.
  - intros. by apply covers_visit.
  - split; [set_solver|]. split; [by apply Forall_singleton|].
    split; [right; simpl; left | set_solver].
  - apply Forall_singleton. simpl. left.
  - unfold dfs_fuel. simpl length. lia.
  - rewrite (dfs_loop_fuel_mono fuel _ h st _ _ _ result) in HR by (done || lia).
    injection HR as <-.
    destruct Hs as [Hs|Hs]; [|by apply elem_of_nil in Hs].
    assert (∀ l, rtc (edge h st) start l →
                 key (h !!! l) ∈ V ∧ getScene st (key (h !!! l)) = Some l) as Hall.
    { apply (rtc_ind_r (λ l, key (h !!! l) ∈ V
                              ∧ getScene st (key (h !!! l)) = Some l));
        [done|].
      intros l c Hl Hlc [IHv IHr]. split.
      - destruct (Hedge l c IHv IHr Hlc) as [?|Hc]; [done|].
        by apply elem_of_nil in Hc.
      - by eapply edge_registered. }
    intros l Hl. apply Hres. by apply Hall.
Qed.
End Coverage.

(** ** Cascade delete *)

Lemma getScenesDFS_returns (h : gmap loc Scene) (st : Story) (s : loc)
    (n : nat) (d0 : Z) (fuel : nat) :
  Some s = root st ∨ getSceneDepth n h (scenes st) s = Returns d0 →
  (n `max` dfs_fuel h st s ≤ fuel)%nat →
  ∃ result, getScenesDFS fuel h st (Some s) = Returns result.
Proof.
  intros Hdepth Hfuel. unfold getScenesDFS.
  destruct (decide (Some s = root st)) as [Heq|Hne]; cbn [mbind outcome_bind].
  - apply dfs_loop_returns. lia.
  - destruct Hdepth as [?|Hdepth]; [done|].
    assert (getSceneDepth fuel h (scenes st) s = Returns d0) as ->.
    { revert Hdepth. unfold getSceneDepth. destruct (negb _); [done|].
      apply depth_loop_fuel_mono. lia. }
    apply dfs_loop_returns. lia.
Qed.

Lemma getScenesDFS_covers (h : gmap loc Scene) (st : Story) (s : loc)
    (fuel : nat) (result : list SceneRef) :
  story_wf h st →
  getScene st (key (h !!! s)) = Some s →
  getScenesDFS fuel h st (Some s) = Returns result →
  ∀ l, rtc (edge h st) s l → key (h !!! l) ∈ ref_key <$> result.
Proof.
  intros Hwf Hs. unfold getScenesDFS.
  destruct (if decide (Some s = root st) then Returns 0
            else getSceneDepth fuel h (scenes st) s) as [d| |];
    cbn [mbind outcome_bind]; [|done..].
  by apply dfs_loop_covers.
Qed.

Lemma foldl_remove_get (m : JsMap.t loc) (refs : list SceneRef) (k : string) :
  JsMap.wf m →
  JsMap.get k (foldl (λ m r, JsMap.remove (ref_key r) m) m refs)
  = if decide (k ∈ ref_key <$> refs) then None else JsMap.get k m.
Proof.
  revert m. induction refs as [|r refs IH]; intros m Hwf.
  - cbn [foldl]. case_decide as Hin; [by apply elem_of_nil in Hin | done].
  - rewrite fmap_cons. cbn [foldl].
    rewrite IH by by apply jsmap_wf_remove.
    rewrite jsmap_get_remove by done.
    destruct (decide (k ∈ ref_key r :: (ref_key <$> refs))) as [Hin|Hin].
    + apply elem_of_cons in Hin as [->|Hin].
      * case_decide; [done|]. by rewrite decide_True.
      * by rewrite decide_True.
    + apply not_elem_of_cons in Hin as [Hne Hin].
      rewrite decide_False by done. by rewrite decide_False.
Qed.

Lemma foldl_remove_wf (m : JsMap.t loc) (refs : list SceneRef) :
  JsMap.wf m → JsMap.wf (foldl (λ m r, JsMap.remove (ref_key r) m) m refs).
Proof.
  revert m. induction refs as [|r refs IH]; intros m Hwf; simpl; [done|].
  apply IH. by apply jsmap_wf_remove.
Qed.

Lemma detached_key h scene l : key (detached h scene !!! l) = key (h !!! l).
Proof.
  unfold detached. destruct (parent (h !!! scene)); [|done].
  apply key_call_removeChoice.
Qed.

Lemma detached_parent h scene l : parent (detached h scene !!! l) = parent (h !!! l).
Proof.
  unfold detached. destruct (parent (h !!! scene)); [|done].
  rewrite call_removeChoice_lookup. by case_decide; subst.
Qed.

Lemma depth_loop_detached fuel h scene current depth :
  depth_loop fuel (detached h scene) current depth = depth_loop fuel h current depth.
Proof.
  revert current depth. induction fuel as [|fuel IH]; intros current depth; simpl;
    rewrite detached_parent; destruct (parent (h !!! current)); auto.
Qed.

Lemma getSceneDepth_detached fuel h sc scene s :
  getSceneDepth fuel (detached h scene) sc s = getSceneDepth fuel h sc s.
Proof.
  unfold getSceneDepth. by rewrite detached_key, depth_loop_detached.
Qed.

Lemma removeScene_found (fuel : nat) (k : string) h st scene :
  getScene st k = Some scene →
  removeScene fuel k h st
  = (allScenesBelow ← getScenesDFS fuel (detached h scene) st (Some scene);
     mret (detached h scene,
           mkStory (foldl (λ m r, JsMap.remove (ref_key r) m) (scenes st)
                          (reverse allScenesBelow))
                   (root st),
           true)).
Proof. unfold getScene, removeScene. by intros ->. Qed.

(** ** The root across sequences of operations *)

Lemma addScene_key scene h st l :
  key ((addScene scene h st).1.1 !!! l) = key (h !!! l).
Proof.
  unfold addScene.
  repeat case_match; simpl;
    rewrite ?key_call_addChoice, ?key_write_parent, ?key_call_addChoice; done.
Qed.

Lemma addScene_root scene h st r :
  root st = Some r → root (addScene scene h st).1.2 = Some r.
Proof. intros Hr. unfold addScene. rewrite Hr. by case_match. Qed.

Lemma addScene_scenes scene h st r :
  root st = Some r →
  scenes (addScene scene h st).1.2
  = if JsMap.has (key (h !!! scene)) (scenes st) then scenes st
    else JsMap.set (key (h !!! scene)) scene (scenes st).
Proof. intros Hr. unfold addScene. rewrite Hr. by case_match. Qed.

Lemma addScene_getScene scene h st r k l :
  root st = Some r →
  getScene st k = Some l → getScene (addScene scene h st).1.2 k = Some l.
Proof.
  intros Hr Hk. unfold getScene in *. rewrite (addScene_scenes _ _ _ r Hr).
  destruct (JsMap.has _ _) eqn:Hhas; [done|].
  rewrite jsmap_get_set. case_decide as E; [|done]. subst.
  apply jsmap_has_false in Hhas. congruence.
Qed.

Lemma updateContent_key newText newChoices (s s' : Scene) (b : bool) :
  updateContent newText newChoices s = Returns (s', b) → key s' = key s.
Proof.
  unfold updateContent.
  destruct newText as [t|]; [case_decide|];
    (destruct (choicesAreEqual newChoices _) as [[]| |];
     cbn [mbind outcome_bind]; [| |done..];
     destruct newChoices; intros [= <- <-]; reflexivity).
Qed.

Lemma editScene_key k newText newChoices h st h' b l :
  editScene k newText newChoices h st = Returns (h', b) →
  key (h' !!! l) = key (h !!! l).
Proof.
  unfold editScene. destruct (JsMap.get k (scenes st)) as [scene|]; [|by intros [= <- <-]].
  destruct (updateContent newText newChoices (h !!! scene)) as [[s' e]| |] eqn:E;
    cbn [mbind outcome_bind]; [|done..].
  intros [= <- <-]. rewrite lookup_total_insert. case_decide; [subst|done].
  by eapply updateContent_key.
Qed.

Lemma changeSceneParent_key k newParentKey h st h' b l :
  changeSceneParent k newParentKey h st = Returns (h', b) →
  key (h' !!! l) = key (h !!! l).
Proof.
  unfold changeSceneParent. repeat case_match; try done; intros [= <- <-];
    by rewrite ?key_call_addChoice, ?key_write_parent, ?key_call_removeChoice.
Qed.

Lemma removeScene_inv fuel k h st h' st' b :
  JsMap.wf (scenes st) →
  removeScene fuel k h st = Returns (h', st', b) →
  root st' = root st
  ∧ JsMap.wf (scenes st')
  ∧ (∀ l, key (h' !!! l) = key (h !!! l))
  ∧ (∀ k' l, getScene st' k' = Some l → getScene st k' = Some l)
  ∧ (∀ k' l, getScene st k' = Some l → JsMap.has k' (scenes st') = true →
             getScene st' k' = Some l).
Proof.
  intros Hwf. unfold removeScene.
  destruct (JsMap.get k (scenes st)) as [scene|] eqn:Hk.
  - fold (detached h scene).
    destruct (getScenesDFS fuel (detached h scene) st (Some scene)) as [refs| |];
      cbn [mbind outcome_bind mret outcome_ret]; [|done..].
    intros [= <- <- <-]. cbn [root scenes].
    split; [done|]. split; [by apply foldl_remove_wf|].
    split; [intros l; apply detached_key|].
    unfold getScene, JsMap.has. cbn [scenes]. split; intros k' l.
    + rewrite foldl_remove_get by done. by case_decide.
    + rewrite foldl_remove_get by done. by case_decide.
  - intros [= <- <- <-]. repeat split; auto.
Qed.

Lemma addScene_wf scene h st r :
  root st = Some r → JsMap.wf (scenes st) →
  JsMap.wf (scenes (addScene scene h st).1.2).
Proof.
  intros Hr Hwf. rewrite (addScene_scenes _ _ _ r Hr).
  destruct (JsMap.has _ _); [done | by apply jsmap_wf_set].
Qed.

(** What one returning call keeps: the root reference, the [key] of every
    object, the uniqueness of the collection's keys and, unless the call
    is [removeScene], every entry of the collection. *)
Lemma step_inv (fuel : nat) (op : Op) h st h' st' (r : loc) :
  root st = Some r → JsMap.wf (scenes st) →
  step fuel op (h, st) = Returns (h', st') →
  root st' = Some r
  ∧ JsMap.wf (scenes st')
  ∧ (∀ l, key (h' !!! l) = key (h !!! l))
  ∧ (¬ is_remove op → ∀ k l, getScene st k = Some l → getScene st' k = Some l).
Proof.
  intros Hr Hwf. destruct op as [scene|k t c|k np|k]; cbn [step].
  - destruct (addScene scene h st) as [[h1 st1] b] eqn:E.
    cbn [mret outcome_ret fst]. intros [= <- <-].
    replace h1 with (addScene scene h st).1.1 by by rewrite E.
    replace st1 with (addScene scene h st).1.2 by by rewrite E.
    split; [by apply addScene_root|].
    split; [by apply (addScene_wf _ _ _ r)|].
    split; [intros l; apply addScene_key|].
    intros _ k l. by apply (addScene_getScene _ _ _ r).
  - destruct (editScene k t c h st) as [[h1 b]| |] eqn:E;
      cbn [mbind outcome_bind mret outcome_ret fst]; [|done..].
    intros [= <- <-]. repeat split; auto.
    intros l. by eapply editScene_key.
  - destruct (changeSceneParent k np h st) as [[h1 b]| |] eqn:E;
      cbn [mbind outcome_bind mret outcome_ret fst]; [|done..].
    intros [= <- <-]. repeat split; auto.
    intros l. by eapply changeSceneParent_key.
  - destruct (removeScene fuel k h st) as [[[h1 st1] b]| |] eqn:E;
      cbn [mbind outcome_bind mret outcome_ret fst]; [|done..].
    intros [= <- <-].
    destruct (removeScene_inv _ _ _ _ _ _ _ Hwf E) as (Hroot & Hwf1 & Hkey & _).
    split; [congruence|]. split; [done|]. split; [done|].
    intros Hnot. exfalso. by apply Hnot.
Qed.

Lemma run_inv (fuel : nat) (ops : list Op) h st h' st' (r : loc) :
  root st = Some r → JsMap.wf (scenes st) →
  run fuel ops (h, st) = Returns (h', st') →
  root st' = Some r
  ∧ JsMap.wf (scenes st')
  ∧ (∀ l, key (h' !!! l) = key (h !!! l))
  ∧ (Forall (λ op, ¬ is_remove op) ops →
     ∀ k l, getScene st k = Some l → getScene st' k = Some l).
Proof.
  revert h st. induction ops as [|op ops IH]; intros h st Hr Hwf; cbn [run].
  - intros [= <- <-]. repeat split; auto.
  - destruct (step fuel op (h, st)) as [[h1 st1]| |] eqn:E;
      cbn [mbind outcome_bind]; [|done..].
    intros Hrun.
    destruct (step_inv _ _ _ _ _ _ _ Hr Hwf E) as (Hr1 & Hwf1 & Hkey1 & Hget1).
    destruct (IH _ _ Hr1 Hwf1 Hrun) as (Hr' & Hwf' & Hkey' & Hget').
    split; [done|]. split; [done|]. split.
    + intros l. by rewrite Hkey', Hkey1.
    + intros [Hop Hops]%Forall_cons k l Hk. apply Hget'; [done|]. by apply Hget1.
Qed.

(** C9, as stated: from a story that owns its root, adding [B], detaching
    it and removing the root [A] leaves a non-empty collection whose root
    reference is the removed scene. *)
Lemma removeScene_breaks_root_ownership :
  let '(h, st) := root_only_story in
  root_owned h st
  ∧ ∃ h' st',
      run 2 [OpAddScene 1%nat; OpChangeSceneParent "B" "Z"; OpRemoveScene "A"] (h, st)
      = Returns (h', st')
      ∧ scenes st' = [("B", 1%nat)]
      ∧ root st' = Some 0%nat
      ∧ ¬ root_owned h' st'.
Proof.
  vm_compute root_only_story. cbv beta iota. split.
  - exists 0%nat. split; reflexivity.
  - eexists _, _. split; [vm_compute; reflexivity|].
    split; [reflexivity|]. split; [reflexivity|].
    intros (r & Hr & Hget). vm_compute in Hr. injection Hr as <-.
    vm_compute in Hget. discriminate.
Qed.

(** C9, amended. Once the root is set no sequence of core operations
    changes it; the collection keeps mapping the root's key to the root
    scene across [addScene], [editScene] and [changeSceneParent]; a
    [removeScene] never updates the root, so it preserves the invariant
    exactly when the root's key is still in the collection afterwards. *)
Theorem root_kept_but_not_owned_after_removal
    (fuel : nat) (h : gmap loc Scene) (st : Story) :
  JsMap.wf (scenes st) →
  root_owned h st →
  (∀ ops h' st',
     run fuel ops (h, st) = Returns (h', st') →
     root st' = root st
     ∧ (Forall (λ op, ¬ is_remove op) ops → root_owned h' st'))
  ∧ (∀ k h' st' b r,
       removeScene fuel k h st = Returns (h', st', b) →
       root st = Some r →
       root st' = Some r
       ∧ (root_owned h' st' ↔ JsMap.has (key (h !!! r)) (scenes st') = true)).
Proof.
  intros Hwf (r & Hr & Hget). split.
  - intros ops h' st' Hrun.
    destruct (run_inv _ _ _ _ _ _ _ Hr Hwf Hrun) as (Hr' & _ & Hkey & Hkeep).
    split; [congruence|].
    intros Hops. exists r. split; [done|]. rewrite Hkey. by apply Hkeep.
  - intros k h' st' b r' Hrm Hr'. assert (r' = r) as -> by congruence.
    destruct (removeScene_inv _ _ _ _ _ _ _ Hwf Hrm)
      as (Hroot & _ & Hkey & Hsub & Hkeep).
    split; [congruence|]. split.
    + intros (r2 & Hr2 & Hget2). assert (r2 = r) as -> by congruence.
      rewrite Hkey in Hget2. unfold getScene in Hget2.
      unfold JsMap.has. by rewrite Hget2.
    + intros Hhas. exists r. split; [congruence|].
      rewrite Hkey. by apply Hkeep.
Qed.

Lemma root_kept_but_not_owned_after_removal_witness :
  let h := root_only_story.1 in
  let st := root_only_story.2 in
  (∀ ops h' st',
     run 2 ops (h, st) = Returns (h', st') →
     root st' = root st
     ∧ (Forall (λ op, ¬ is_remove op) ops → root_owned h' st'))
  ∧ (∀ k h' st' b r,
       removeScene 2 k h st = Returns (h', st', b) →
       root st = Some r →
       root st' = Some r
       ∧ (root_owned h' st' ↔ JsMap.has (key (h !!! r)) (scenes st') = true)).
Proof.
  intros h st. apply (root_kept_but_not_owned_after_removal 2 h st).
  - apply (bool_decide_unpack _). vm_compute. exact I.
  - exists 0%nat. split; reflexivity.
Defined.

(** * Further properties of the core *)

(** ** Choice tables *)

Lemma jsmap_remove_fresh {V} (k : string) (v : V) (m : JsMap.t V) :
  JsMap.get k m = None → JsMap.remove k (m ++ [(k, v)]) = m.
Proof.
  induction m as [|[k' v'] m IH]; simpl.
  - intros _. by rewrite decide_True.
  - case_decide; [done|]. intros Hm. by rewrite IH.
Qed.

Lemma jsmap_get_app_fresh {V} (k k' : string) (v : V) (m : JsMap.t V) :
  JsMap.get k' (m ++ [(k, v)])
  = match JsMap.get k' m with
    | Some x => Some x
    | None => if decide (k' = k) then Some v else None
    end.
Proof.
  induction m as [|[k0 v0] m IH]; simpl; [done|].
  destruct (decide (k' = k0)); [done | apply IH].
Qed.

Lemma jsmap_keys_set {V} (k : string) (v : V) (m : JsMap.t V) :
  JsMap.keys (JsMap.set k v m)
  = if JsMap.has k m then JsMap.keys m else JsMap.keys m ++ [k].
Proof.
  unfold JsMap.has, JsMap.keys.
  induction m as [|[k0 v0] m IH]; simpl; [done|].
  destruct (decide (k = k0)) as [->|Hne]; simpl; [done|].
  change (list_fmap _ _ fst (JsMap.set k v m)) with ((JsMap.set k v m).*1).
  rewrite IH. by destruct (JsMap.get k m).
Qed.

Lemma set_choices_id (s : Scene) : set_choices (choices s) s = s.
Proof. by destruct s. Qed.

(** X1. [addChoice] never overwrites: it returns whether the target was
    absent; the target then maps to its old label if it had one and to the
    new label otherwise; every other target keeps its label; a new target
    is placed last. *)
Theorem addChoice_no_overwrite (t next : string) (s : Scene) :
  let r := addChoice t next s in
  r.2 = negb (JsMap.has next (choices s))
  ∧ JsMap.get next (choices r.1) = Some (default t (JsMap.get next (choices s)))
  ∧ (∀ k, k ≠ next → JsMap.get k (choices r.1) = JsMap.get k (choices s))
  ∧ JsMap.keys (choices r.1)
    = (if JsMap.has next (choices s) then JsMap.keys (choices s)
       else JsMap.keys (choices s) ++ [next])
  ∧ key r.1 = key s ∧ text r.1 = text s ∧ parent r.1 = parent s.
Proof.
  cbn zeta. split; [|split; [apply choices_addChoice|]].
  - unfold addChoice. by destruct (JsMap.has next (choices s)).
  - unfold addChoice. destruct (JsMap.has next (choices s)) eqn:Hhas; simpl.
    + done.
    + rewrite jsmap_keys_set, Hhas. split; [|done].
      intros k Hk. rewrite jsmap_get_set. by rewrite decide_False.
Qed.

(** X2. Removing a choice that was just added for a fresh target gives
    the scene back, and reports that an entry was removed. *)
Theorem removeChoice_after_addChoice (t next : string) (s : Scene) :
  JsMap.get next (choices s) = None →
  removeChoice next (addChoice t next s).1 = (s, true).
Proof.
  intros Hfresh. unfold addChoice, removeChoice, JsMap.delete, JsMap.has.
  rewrite Hfresh. cbn [fst choices set_choices].
  rewrite jsmap_set_fresh by done. rewrite jsmap_remove_fresh by done.
  rewrite jsmap_get_app_fresh, Hfresh. rewrite decide_True by done.
  by destruct s.
Qed.

Lemma removeChoice_after_addChoice_witness :
  let s := newScene "A" "Root Scene" None (InitPairs [mkChoice "Go to B" "B"]) in
  removeChoice "C" (addChoice "Go to C" "C" s).1 = (s, true).
Proof. intros s. apply removeChoice_after_addChoice. reflexivity. Defined.

(** ** Construction and deserialisation *)

(** X3. Rebuilding a scene from its [getAllChoices] snapshot gives the
    scene back, provided no target and no label is the empty string (the
    constructor drops such array elements). *)
Theorem newScene_of_getAllChoices (s : Scene) :
  JsMap.wf (choices s) →
  Forall (λ e, e.1 ≠ "" ∧ e.2 ≠ "") (choices s) →
  newScene (key s) (text s) (parent s) (InitPairs (getAllChoices s)) = s.
Proof.
  intros Hwf Hne. destruct s as [k t p m]. unfold newScene, getAllChoices.
  cbn [key text parent choices] in *. f_equal.
  enough (∀ acc, NoDup (JsMap.keys (acc ++ m)) →
            foldl (λ acc0 c, if decide (c_next c ≠ "" ∧ c_text c ≠ "")
                             then JsMap.set (c_next c) (c_text c) acc0 else acc0)
                  acc ((λ '(next, t0), mkChoice t0 next) <$> m) = acc ++ m) as H
    by exact (H [] Hwf).
  clear Hwf. induction m as [|[n l] m IH]; intros acc Hnd.
  - simpl. by rewrite app_nil_r.
  - apply Forall_cons in Hne as [[Hn Hl] Hne]. cbn [fst snd] in Hn, Hl.
    rewrite fmap_cons. cbn [foldl c_next c_text].
    rewrite decide_True by done.
    assert (JsMap.get n acc = None) as Hfresh.
    { apply jsmap_get_None. unfold JsMap.keys in *.
      rewrite fmap_app in Hnd. apply NoDup_app in Hnd as (_ & Hdis & _).
      intros Hin. apply (Hdis _ Hin). left. }
    rewrite jsmap_set_fresh by done.
    rewrite IH; [by rewrite <- app_assoc | done | by rewrite <- app_assoc].
Qed.

Lemma newScene_of_getAllChoices_witness :
  let s := mkScene "A" "Root Scene" (Some 3%nat) [("B", "Go to B"); ("C", "Go to C")] in
  newScene (key s) (text s) (parent s) (InitPairs (getAllChoices s)) = s.
Proof.
  intros s. apply newScene_of_getAllChoices.
  - apply (bool_decide_unpack _). vm_compute. exact I.
  - repeat constructor; discriminate.
Defined.

Lemma constructor_pairs_snoc (cs : list Choice) (c : Choice) (n : string) :
  let f := λ (acc : JsMap.t string) (c : Choice),
             if decide (c_next c ≠ "" ∧ c_text c ≠ "")
             then JsMap.set (c_next c) (c_text c) acc else acc in
  JsMap.get n (foldl f [] (cs ++ [c]))
  = if decide (kept_by_constructor c ∧ c_next c = n) then Some (c_text c)
    else JsMap.get n (foldl f [] cs).
Proof.
  cbn zeta. rewrite foldl_app. cbn [foldl]. unfold kept_by_constructor.
  destruct (decide (c_next c ≠ "" ∧ c_text c ≠ "")) as [Hk|Hk].
  - rewrite jsmap_get_set.
    destruct (decide (n = c_next c)) as [->|Hn].
    + by rewrite decide_True.
    + rewrite decide_False; [done|]. intros [_ ?]. by apply Hn.
  - rewrite decide_False; [done|]. by intros [? _].
Qed.

(** X4. In the constructor's array form the last kept element for a
    target decides its label: elements whose text or target is empty are
    dropped, and a later element overwrites an earlier one. *)
Theorem newScene_last_label_wins
    (k t : string) (p : option loc) (cs : list Choice) (n : string) :
  JsMap.get n (choices (newScene k t p (InitPairs cs)))
  = c_text <$> last (filter (λ c, kept_by_constructor c ∧ c_next c = n) cs).
Proof.
  unfold newScene. cbn [choices].
  induction cs as [|c cs IH] using rev_ind; [done|].
  rewrite constructor_pairs_snoc, filter_app, IH.
  rewrite filter_cons, filter_nil.
  destruct (decide (kept_by_constructor c ∧ c_next c = n)) as [Hc|Hc].
  - by rewrite last_snoc.
  - by rewrite app_nil_r.
Qed.

Lemma fromJson_choice_record (s : Scene) (c : Choice) :
  fromJson_choice s (choice_record c) = (addChoice (c_text c) (c_next c) s).1.
Proof. reflexivity. Qed.

Lemma addChoice_get (t next k : string) (s : Scene) :
  JsMap.get k (choices (addChoice t next s).1)
  = match JsMap.get k (choices s) with
    | Some x => Some x
    | None => if decide (k = next) then Some t else None
    end.
Proof.
  unfold addChoice, JsMap.has.
  destruct (JsMap.get next (choices s)) eqn:E; simpl.
  - destruct (JsMap.get k (choices s)) eqn:Ek; [done|].
    rewrite decide_False; [done | congruence].
  - rewrite jsmap_get_set. destruct (decide (k = next)) as [->|Hne].
    + by rewrite E.
    + by destruct (JsMap.get k (choices s)).
Qed.

Lemma foldl_fromJson_choice_get (s : Scene) (cs : list Choice) (n : string) :
  JsMap.get n (choices (foldl fromJson_choice s (choice_record <$> cs)))
  = match JsMap.get n (choices s) with
    | Some x => Some x
    | None => c_text <$> head (filter (λ c, c_next c = n) cs)
    end.
Proof.
  revert s. induction cs as [|c cs IH]; intros s.
  - simpl. by destruct (JsMap.get n (choices s)).
  - rewrite fmap_cons. cbn [foldl]. rewrite fromJson_choice_record, IH.
    rewrite addChoice_get, filter_cons.
    destruct (JsMap.get n (choices s)); [done|].
    destruct (decide (n = c_next c)) as [->|Hne].
    + by rewrite decide_True.
    + rewrite decide_False; [done | congruence].
Qed.

(** X5. In deserialisation the first record for a target decides its
    label, and records with an empty text or target are kept: the opposite
    of the constructor on both counts. *)
Theorem fromJson_first_label_wins
    (JSON_parse : string → option JValue) (k t : string) (cs : list Choice)
    (n : string) :
  k ≠ "" → t ≠ "" →
  ∃ s, fromJson JSON_parse k
         (JObj [("text", JStr t); ("choices", JArr (choice_record <$> cs))])
       = Returns (Some s)
       ∧ JsMap.get n (choices s)
         = c_text <$> head (filter (λ c, c_next c = n) cs).
Proof.
  intros Hk Ht. eexists. split.
  - unfold fromJson. rewrite bool_decide_eq_false_2 by done.
    cbn [orb falsy].
    change (prop (JObj _) "text") with (Some (JStr t)).
    change (prop (JObj _) "choices") with (Some (JArr (choice_record <$> cs))).
    cbv iota. rewrite bool_decide_eq_false_2 by done. reflexivity.
  - by rewrite foldl_fromJson_choice_get.
Qed.

Lemma fromJson_first_label_wins_witness :
  ∃ s, fromJson (λ _, None) "A"
         (JObj [("text", JStr "Root Scene");
                ("choices", JArr (choice_record <$>
                   [mkChoice "first" "B"; mkChoice "second" "B"]))])
       = Returns (Some s)
       ∧ JsMap.get "B" (choices s)
         = c_text <$> head (filter (λ c, c_next c = "B")
                              [mkChoice "first" "B"; mkChoice "second" "B"]).
Proof. apply fromJson_first_label_wins; discriminate. Defined.

(** ** Content updates *)

Lemma choicesAreEqual_true (nc : JsMap.t string) (s : Scene) :
  choicesAreEqual (Some nc) s = Returns true
  ↔ length (choices s) = length nc
    ∧ ∀ k v, (k, v) ∈ choices s → JsMap.get k nc = Some v.
Proof.
  unfold choicesAreEqual, JsMap.size.
  destruct (Nat.eqb_spec (length (choices s)) (length nc)) as [Hlen|Hlen]; simpl.
  - split.
    + intros [= Hall]. split; [done|]. intros k v Hin.
      rewrite forallb_forall in Hall.
      specialize (Hall (k, v) (proj1 (list_elem_of_In _ _) Hin)).
      by apply bool_decide_eq_true in Hall.
    + intros [_ Hall]. f_equal. apply forallb_forall. intros [k v] Hin.
      apply bool_decide_eq_true, Hall. by apply list_elem_of_In.
  - split; [done | by intros [? _]].
Qed.

(** X6. [choicesAreEqual] compares the two tables as maps, not as
    sequences: on tables with unique targets it answers true exactly when
    every target has the same label in both, whatever the order. *)
Theorem choicesAreEqual_ignores_order (nc : JsMap.t string) (s : Scene) :
  JsMap.wf (choices s) → JsMap.wf nc →
  choicesAreEqual (Some nc) s = Returns true
  ↔ ∀ k, JsMap.get k nc = JsMap.get k (choices s).
Proof.
  intros Hwf Hwfnc. rewrite choicesAreEqual_true. split.
  - intros [Hlen Hall] k.
    assert (JsMap.keys (choices s) ≡ₚ JsMap.keys nc) as Hperm.
    { apply submseteq_length_Permutation.
      - apply NoDup_submseteq; [done|]. intros x Hx.
        apply list_elem_of_fmap in Hx as ([k' v'] & -> & Hin).
        cbn [fst]. apply jsmap_has_true. unfold JsMap.has.
        by rewrite (Hall k' v' Hin).
      - unfold JsMap.keys. rewrite !length_fmap. lia. }
    destruct (JsMap.get k (choices s)) as [v|] eqn:E.
    + apply Hall. by apply jsmap_get_Some_elem.
    + apply jsmap_get_None. rewrite <- Hperm. by apply jsmap_get_None.
  - intros Heq.
    assert (JsMap.keys (choices s) ≡ₚ JsMap.keys nc) as Hperm.
    { apply NoDup_Permutation; [done..|]. intros x.
      rewrite <- !jsmap_has_true. unfold JsMap.has. by rewrite Heq. }
    split.
    + apply Permutation_length in Hperm. unfold JsMap.keys in Hperm.
      by rewrite !length_fmap in Hperm.
    + intros k v Hin. rewrite Heq. by apply jsmap_get_elem.
Qed.

Lemma choicesAreEqual_ignores_order_witness :
  let s := mkScene "A" "Root Scene" None [("B", "Go to B"); ("C", "Go to C")] in
  let nc := [("C", "Go to C"); ("B", "Go to B")] in
  choicesAreEqual (Some nc) s = Returns true
  ↔ ∀ k, JsMap.get k nc = JsMap.get k (choices s).
Proof.
  intros s nc. apply choicesAreEqual_ignores_order.
  - apply (bool_decide_unpack _). vm_compute. exact I.
  - apply (bool_decide_unpack _). vm_compute. exact I.
Defined.

(** X7. A reordering of the current choices is not an edit: called with
    a permutation of the scene's table and a new text that is not a
    string or is blank, [updateContent] returns false and leaves the
    scene, order included, as it was. *)
Theorem updateContent_ignores_reordering
    (newText : option string) (nc : JsMap.t string) (s : Scene) :
  (∀ t, newText = Some t → trim t = "") →
  JsMap.wf (choices s) → nc ≡ₚ choices s →
  updateContent newText (Some nc) s = Returns (s, false).
Proof.
  intros Hblank Hwf Hperm. unfold updateContent.
  assert ((match newText with
           | Some t => if decide (trim t ≠ "") then (set_text t s, true)
                       else (s, false)
           | None => (s, false)
           end) = (s, false)) as ->.
  { destruct newText as [t|]; [|done].
    by rewrite decide_False by (intros Hne; by apply Hne, Hblank). }
  assert (choicesAreEqual (Some nc) s = Returns true) as ->; [|done].
  apply choicesAreEqual_true. split; [by rewrite Hperm|].
  intros k v Hin. apply jsmap_get_elem.
  - unfold JsMap.wf, JsMap.keys. by rewrite Hperm.
  - by rewrite Hperm.
Qed.

Lemma updateContent_ignores_reordering_witness :
  let s := mkScene "A" "Root Scene" None [("B", "Go to B"); ("C", "Go to C")] in
  updateContent (Some "   ") (Some [("C", "Go to C"); ("B", "Go to B")]) s
  = Returns (s, false).
Proof.
  intros s. apply updateContent_ignores_reordering.
  - intros t [= <-]. reflexivity.
  - apply (bool_decide_unpack _). vm_compute. exact I.
  - apply Permutation_swap.
Defined.

Lemma updateContent_false_unchanged_aux
    (newText : option string) (newChoices : option (JsMap.t string))
    (s s' : Scene) (b : bool) :
  updateContent newText newChoices s = Returns (s', b) →
  key s' = key s ∧ parent s' = parent s.
Proof.
  unfold updateContent.
  destruct newText as [t|]; [case_decide|];
    (destruct (choicesAreEqual newChoices _) as [[]| |];
     cbn [mbind outcome_bind]; [| |done..];
     destruct newChoices; intros [= <- <-]; repeat split; done).
Qed.

(** X8. A false result of [updateContent] means that nothing was
    changed; and whatever the result, the key and the parent are kept. *)
Theorem updateContent_false_unchanged
    (newText : option string) (newChoices : option (JsMap.t string))
    (s s' : Scene) (b : bool) :
  updateContent newText newChoices s = Returns (s', b) →
  key s' = key s ∧ parent s' = parent s ∧ (b = false → s' = s).
Proof.
  unfold updateContent.
  destruct newText as [t|]; [case_decide|];
    (destruct (choicesAreEqual newChoices _) as [[]| |];
     cbn [mbind outcome_bind]; [| |done..];
     destruct newChoices; intros [= <- <-]; repeat split; done).
Qed.

Lemma updateContent_false_unchanged_witness :
  let s := mkScene "A" "Root Scene" None [("B", "Go to B")] in
  key s = key s ∧ parent s = parent s ∧ (false = false → s = s).
Proof.
  intros s.
  apply (updateContent_false_unchanged (Some "  ") (Some [("B", "Go to B")]) s s false).
  reflexivity.
Defined.

(** ** Deserialisation: what comes out, and when it throws *)

Lemma fromJson_choice_inv (s : Scene) (c : JValue) :
  key (fromJson_choice s c) = key s
  ∧ text (fromJson_choice s c) = text s
  ∧ parent (fromJson_choice s c) = parent s
  ∧ (JsMap.wf (choices s) → JsMap.wf (choices (fromJson_choice s c))).
Proof.
  unfold fromJson_choice. destruct (falsy c); [done|].
  destruct (prop c "text") as [[]|]; try done.
  destruct (prop c "next") as [[]|]; try done.
  unfold addChoice. destruct (JsMap.has _ _); [done|]. simpl.
  repeat split; try done. by apply jsmap_wf_set.
Qed.

Lemma foldl_fromJson_choice_inv (s : Scene) (cs : list JValue) :
  key (foldl fromJson_choice s cs) = key s
  ∧ text (foldl fromJson_choice s cs) = text s
  ∧ parent (foldl fromJson_choice s cs) = parent s
  ∧ (JsMap.wf (choices s) → JsMap.wf (choices (foldl fromJson_choice s cs))).
Proof.
  revert s. induction cs as [|c cs IH]; intros s; [done|]. cbn [foldl].
  destruct (IH (fromJson_choice s c)) as (-> & -> & -> & Hwf).
  destruct (fromJson_choice_inv s c) as (-> & -> & -> & Hwf').
  repeat split; auto.
Qed.

Lemma fromJson_scene_shape
    (JSON_parse : string → option JValue) (k : string) (json : JValue) (s : Scene) :
  fromJson JSON_parse k json = Returns (Some s) →
  key s = k ∧ k ≠ "" ∧ text s ≠ "" ∧ parent s = None ∧ JsMap.wf (choices s).
Proof.
  unfold fromJson.
  destruct (bool_decide (k = "")) eqn:Ek; [done|].
  apply bool_decide_eq_false in Ek.
  destruct (falsy json); [done|]. cbn [orb].
  destruct (match json with
            | JStr raw => JSON_parse raw
            | JArr _ | JObj _ => Some json
            | _ => None
            end) as [parsedObject|]; [|done].
  destruct (prop parsedObject "text") as [[| | | |txt| |]|]; try done.
  destruct (bool_decide (txt = "")) eqn:Et; [done|].
  apply bool_decide_eq_false in Et.
  destruct (prop parsedObject "choices") as [[| | | | |cs|]|];
    intros [= <-]; try (repeat split; try done; apply NoDup_nil_2).
  destruct (foldl_fromJson_choice_inv (newScene k txt None (InitPairs [])) cs)
    as (-> & -> & -> & Hwf).
  repeat split; try done. apply Hwf, NoDup_nil_2.
Qed.

(** X9. Every scene that [Scene.fromJson] returns has the given key,
    which is not empty, a non-empty text, no parent and a choice table
    with unique targets; serialising it and deserialising again under its
    key returns the same scene. *)
Theorem fromJson_result
    (JSON_parse : string → option JValue) (k : string) (json : JValue) (s : Scene) :
  fromJson JSON_parse k json = Returns (Some s) →
  key s = k ∧ k ≠ "" ∧ text s ≠ "" ∧ parent s = None ∧ JsMap.wf (choices s)
  ∧ fromJson JSON_parse k (toJSON s) = Returns (Some s).
Proof.
  intros Hres.
  destruct (fromJson_scene_shape _ _ _ _ Hres) as (Hk & Hne & Ht & Hp & Hwf).
  repeat split; try done. subst k.
  rewrite fromJson_toJSON by done.
  unfold set_parent. rewrite <- Hp. by destruct s.
Qed.

Lemma fromJson_result_witness :
  let json := JObj [("text", JStr "Root Scene");
                    ("choices", JArr [JObj [("text", JStr "Go to B");
                                            ("next", JStr "B")]; JNull])] in
  let s := mkScene "A" "Root Scene" None [("B", "Go to B")] in
  key s = "A" ∧ "A" ≠ "" ∧ text s ≠ "" ∧ parent s = None ∧ JsMap.wf (choices s)
  ∧ fromJson (λ _, None) "A" (toJSON s) = Returns (Some s).
Proof.
  intros json s. apply (fromJson_result (λ _, None) "A" json s). reflexivity.
Defined.

(** X10. [Scene.fromJson] throws in one situation only: it is given a
    non-empty key and a non-empty string that [JSON.parse] turns into
    [null] (or [undefined]), whose [text] is then read. On every other
    input, parsed objects included, it returns. *)
Theorem fromJson_throws_iff
    (JSON_parse : string → option JValue) (k : string) (json : JValue) :
  fromJson JSON_parse k json = Throws
  ↔ k ≠ "" ∧ ∃ raw, json = JStr raw ∧ raw ≠ ""
              ∧ (JSON_parse raw = Some JNull ∨ JSON_parse raw = Some JUndefined).
Proof.
  unfold fromJson. split.
  - destruct (bool_decide (k = "")) eqn:Ek; [done|].
    apply bool_decide_eq_false in Ek.
    destruct json as [| |[]|n|raw|items|fields]; try done.
    + by destruct n.
    + destruct raw as [|a raw]; [done|]. cbn [orb falsy].
      destruct (JSON_parse (String a raw)) as [parsed|] eqn:Ep; [|done].
      intros Hthrow. split; [done|]. exists (String a raw).
      split; [done|]. split; [done|].
      destruct parsed as [| |b|n|str|its|fs]; cbn [prop] in Hthrow; auto;
        cbv beta iota zeta in Hthrow; try done.
      destruct (default JUndefined (JsMap.get "text" fs)) as [| | | |txt| |];
        try done.
      destruct (bool_decide (txt = "")); [done|].
      by destruct (default JUndefined (JsMap.get "choices" fs)).
    + cbn [orb falsy prop]. cbv beta iota zeta.
      destruct (default JUndefined (JsMap.get "text" fields)) as [| | | |txt| |];
        try done.
      destruct (bool_decide (txt = "")); [done|].
      by destruct (default JUndefined (JsMap.get "choices" fields)).
  - intros (Hk & raw & -> & Hraw & Hp).
    rewrite bool_decide_eq_false_2 by done.
    destruct raw as [|a raw]; [done|]. cbn [orb falsy].
    by destruct Hp as [-> | ->].
Qed.

(** ** Adding scenes *)

Lemma Forall_jsmap_set {V} (P : string * V → Prop) (k : string) (v : V)
    (m : JsMap.t V) :
  Forall P m → P (k, v) → Forall P (JsMap.set k v m).
Proof.
  intros Hm Hkv. induction m as [|[k0 v0] m IH]; simpl.
  - by apply Forall_singleton.
  - apply Forall_cons in Hm as [H0 Hm]. case_decide; subst.
    + by apply Forall_cons.
    + apply Forall_cons. split; [done | by apply IH].
Qed.

Lemma addScene_story_wf (scene : loc) (h : gmap loc Scene) (st : Story) :
  story_wf h st →
  story_wf (addScene scene h st).1.1 (addScene scene h st).1.2.
Proof.
  intros [Hwf Hall].
  assert (∀ sc, Forall (λ e, key (h !!! e.2) = e.1) sc →
                Forall (λ e, key ((addScene scene h st).1.1 !!! e.2) = e.1) sc)
    as Hkeys.
  { intros sc Hsc. eapply Forall_impl; [exact Hsc|].
    intros [k l]. simpl. by rewrite addScene_key. }
  destruct (root st) as [r|] eqn:Hr.
  - split; [by apply (addScene_wf _ _ _ r)|].
    rewrite (addScene_scenes _ _ _ r Hr).
    destruct (JsMap.has _ _); apply Hkeys; [done|].
    by apply Forall_jsmap_set.
  - unfold addScene. rewrite Hr.
    destruct (JsMap.has _ _) eqn:Hhas; cbn [fst snd scenes]; [done|].
    split; [by apply jsmap_wf_set | by apply Forall_jsmap_set].
Qed.

(** X11. [addScene] keeps the collection well formed: keys stay unique
    and every scene, the new one included, is stored under its own key. *)
Theorem addScene_keeps_story_wf (scene : loc) (h : gmap loc Scene) (st : Story) :
  story_wf h st →
  story_wf (addScene scene h st).1.1 (addScene scene h st).1.2.
Proof. apply addScene_story_wf. Qed.

Lemma addScene_keeps_story_wf_witness :
  story_wf (addScene 1%nat root_only_story.1 root_only_story.2).1.1
           (addScene 1%nat root_only_story.1 root_only_story.2).1.2.
Proof.
  apply addScene_keeps_story_wf. split.
  - apply (bool_decide_unpack _). vm_compute. exact I.
  - vm_compute. repeat constructor.
Defined.

Lemma has_addChoice (t next : string) (s : Scene) :
  JsMap.has next (choices (addChoice t next s).1) = true.
Proof. unfold JsMap.has. by rewrite choices_addChoice. Qed.

Lemma has_addChoice_mono (t next k : string) (s : Scene) :
  JsMap.has k (choices s) = true →
  JsMap.has k (choices (addChoice t next s).1) = true.
Proof.
  unfold JsMap.has. rewrite addChoice_get.
  by destruct (JsMap.get k (choices s)).
Qed.

Lemma has_call_addChoice_mono h l t next k l' :
  JsMap.has k (choices (h !!! l')) = true →
  JsMap.has k (choices (call_addChoice h l t next !!! l')) = true.
Proof.
  intros H. rewrite call_addChoice_lookup. case_decide; [subst|done].
  by apply has_addChoice_mono.
Qed.

Lemma parent_call_addChoice h l t next l' :
  parent (call_addChoice h l t next !!! l') = parent (h !!! l').
Proof.
  rewrite call_addChoice_lookup. case_decide; [subst|done].
  apply parent_addChoice.
Qed.

Lemma find_Some_has {A} (f : A → bool) (l : list A) (x : A) :
  find f l = Some x → f x = true ∧ x ∈ l.
Proof.
  induction l as [|a l IH]; simpl; [done|].
  destruct (f a) eqn:E.
  - intros [= <-]. split; [done | left].
  - intros H. destruct (IH H). split; [done | by right].
Qed.

Lemma addScene_links_to_parent_full
    (scene : loc) (h : gmap loc Scene) (st : Story) (r : loc) :
  root st = Some r →
  JsMap.has (key (h !!! scene)) (scenes st) = false →
  parent (h !!! scene) = None →
  let h' := (addScene scene h st).1.1 in
  let st' := (addScene scene h st).1.2 in
  (addScene scene h st).2 = true
  ∧ ∃ p, parent (h' !!! scene) = Some p
         ∧ JsMap.has (key (h !!! scene)) (choices (h' !!! p)) = true
         ∧ (findParent h st' (key (h !!! scene)) = Some p
            ∨ (findParent h st' (key (h !!! scene)) = None ∧ p = r)).
Proof.
  intros Hr Hhas Hpar. cbn zeta. unfold addScene.
  rewrite Hhas, Hr, Hpar. cbn [fst snd].
  set (k := key (h !!! scene)).
  set (sc := JsMap.set k scene (scenes st)).
  set (label := label_or_default (Some (text (h !!! scene))) k).
  assert (Nat.ltb 0 (JsMap.size sc) = true) as ->.
  { apply Nat.ltb_lt. unfold sc, JsMap.size.
    destruct (scenes st) as [|[??]?]; simpl; [lia|]. case_decide; simpl; lia. }
  split; [done|].
  destruct (findParent h (mkStory sc (Some r)) k) as [p|] eqn:Hfind.
  - exists p.
    assert (JsMap.has k (choices (h !!! p)) = true) as Hp.
    { unfold findParent in Hfind. by apply find_Some_has in Hfind as [? _]. }
    set (h1 := call_addChoice (write_parent h scene (Some p)) p label k).
    assert (parent (h1 !!! scene) = Some p) as Hp1.
    { unfold h1. rewrite parent_call_addChoice, write_parent_lookup.
      by rewrite decide_True. }
    assert (JsMap.has k (choices (h1 !!! p)) = true) as Hc1.
    { unfold h1. rewrite call_addChoice_lookup, decide_True by done.
      apply has_addChoice. }
    rewrite Hp1.
    destruct (JsMap.get (key (h1 !!! p)) sc) as [p'|];
      (split; [by rewrite ?parent_call_addChoice|]);
      (split; [|by left]); [by apply has_call_addChoice_mono | done].
  - exists r.
    set (h1 := write_parent (call_addChoice h r label k) scene (Some r)).
    assert (parent (h1 !!! scene) = Some r) as Hp1.
    { unfold h1. rewrite write_parent_lookup. by rewrite decide_True. }
    assert (JsMap.has k (choices (h1 !!! r)) = true) as Hc1.
    { unfold h1. rewrite write_parent_lookup.
      assert (JsMap.has k (choices (call_addChoice h r label k !!! r)) = true) as Hc.
      { rewrite call_addChoice_lookup, decide_True by done. apply has_addChoice. }
      by case_decide; subst. }
    rewrite Hp1.
    destruct (JsMap.get (key (h1 !!! r)) sc) as [p'|];
      (split; [by rewrite ?parent_call_addChoice|]);
      (split; [|by right]); [by apply has_call_addChoice_mono | done].
Qed.


(** X12. When a scene without parent is added to a story that has a root,
    it ends up with a parent that holds a choice to it: the first scene of
    the collection, in insertion order, that already has a choice for its
    key (possibly the new scene itself), or else the root. *)
Theorem addScene_links_to_parent
    (scene : loc) (h : gmap loc Scene) (st : Story) (r : loc) :
  root st = Some r →
  JsMap.has (key (h !!! scene)) (scenes st) = false →
  parent (h !!! scene) = None →
  let h' := (addScene scene h st).1.1 in
  let st' := (addScene scene h st).1.2 in
  (addScene scene h st).2 = true
  ∧ ∃ p, parent (h' !!! scene) = Some p
         ∧ JsMap.has (key (h !!! scene)) (choices (h' !!! p)) = true
         ∧ (findParent h st' (key (h !!! scene)) = Some p
            ∨ (findParent h st' (key (h !!! scene)) = None ∧ p = r)).
Proof. apply addScene_links_to_parent_full. Qed.

Lemma addScene_links_to_parent_aux
    (scene : loc) (h : gmap loc Scene) (st : Story) (r : loc) :
  root st = Some r →
  JsMap.has (key (h !!! scene)) (scenes st) = false →
  parent (h !!! scene) = None →
  ∃ p, parent ((addScene scene h st).1.1 !!! scene) = Some p
       ∧ (findParent h (addScene scene h st).1.2 (key (h !!! scene)) = Some p
          ∨ (findParent h (addScene scene h st).1.2 (key (h !!! scene)) = None
             ∧ p = r)).
Proof.
  intros Hr Hhas Hpar.
  destruct (addScene_links_to_parent_full scene h st r Hr Hhas Hpar)
    as (_ & p & Hp & _ & Hfind).
  by exists p.
Qed.

Lemma addScene_links_to_parent_witness :
  let h := root_only_story.1 in
  let st := root_only_story.2 in
  let h' := (addScene 1%nat h st).1.1 in
  let st' := (addScene 1%nat h st).1.2 in
  (addScene 1%nat h st).2 = true
  ∧ ∃ p, parent (h' !!! 1%nat) = Some p
         ∧ JsMap.has (key (h !!! 1%nat)) (choices (h' !!! p)) = true
         ∧ (findParent h st' (key (h !!! 1%nat)) = Some p
            ∨ (findParent h st' (key (h !!! 1%nat)) = None ∧ p = 0%nat)).
Proof.
  intros h st. apply (addScene_links_to_parent 1%nat h st 0%nat); reflexivity.
Defined.

(** ** Depth of a scene *)

Lemma depth_loop_path (h : gmap loc Scene) (l : loc) (n : nat) :
  parent_path h l n →
  ∀ fuel d, (n ≤ fuel)%nat → depth_loop fuel h l d = Returns (d + Z.of_nat n).
Proof.
  induction 1 as [l Hend | l p n Hp Hpath IH]; intros fuel d Hfuel.
  - destruct fuel; simpl; rewrite Hend; f_equal; lia.
  - destruct fuel as [|fuel]; [lia|]. simpl. rewrite Hp.
    rewrite IH by lia. f_equal. lia.
Qed.

(** X13. For a scene whose parent chain ends after [n] links,
    [getSceneDepth] returns [n] if the scene's key is in the collection
    and -1 if it is not. *)
Theorem getSceneDepth_counts_parents
    (h : gmap loc Scene) (sc : JsMap.t loc) (scene : loc) (n fuel : nat) :
  parent_path h scene n → (n ≤ fuel)%nat →
  getSceneDepth fuel h sc scene
  = Returns (if JsMap.has (key (h !!! scene)) sc then Z.of_nat n else -1).
Proof.
  intros Hpath Hfuel. unfold getSceneDepth.
  destruct (JsMap.has _ _); simpl; [|done].
  by rewrite (depth_loop_path h scene n).
Qed.

Lemma getSceneDepth_counts_parents_witness :
  getSceneDepth 2 test_chain.1 (scenes test_chain.2) 2%nat = Returns 2
  ∧ getSceneDepth 2 test_chain.1 [("A", 0%nat)] 2%nat = Returns (-1).
Proof.
  assert (parent_path test_chain.1 2%nat 2) as Hpath.
  { apply (parent_path_step _ _ 1%nat); [reflexivity|].
    apply (parent_path_step _ _ 0%nat); [reflexivity|].
    apply parent_path_end. reflexivity. }
  split.
  - apply (getSceneDepth_counts_parents test_chain.1 (scenes test_chain.2)
             2%nat 2 2 Hpath). lia.
  - apply (getSceneDepth_counts_parents test_chain.1 [("A", 0%nat)]
             2%nat 2 2 Hpath). lia.
Defined.

Lemma depth_loop_trap (h : gmap loc Scene) (S : loc → Prop) :
  parent_trap h S →
  ∀ fuel l d, S l → depth_loop fuel h l d = OutOfFuel.
Proof.
  intros Htrap fuel. induction fuel as [|fuel IH]; intros l d Hl;
    destruct (Htrap l Hl) as (p & Hp & HSp); simpl; rewrite Hp; [done|].
  by apply IH.
Qed.

(** X14. On a cycle of parent references [getSceneDepth] does not return,
    and neither does [removeScene] of a scene on the cycle other than the
    root: no amount of fuel is enough. *)
Theorem parent_cycle_diverges
    (h : gmap loc Scene) (st : Story) (S : loc → Prop) (k : string) (scene : loc)
    (fuel : nat) :
  parent_trap h S → S scene →
  getScene st k = Some scene → key (h !!! scene) = k →
  Some scene ≠ root st →
  getSceneDepth fuel h (scenes st) scene = OutOfFuel
  ∧ removeScene fuel k h st = OutOfFuel.
Proof.
  intros Htrap HS Hk Hkey Hroot.
  assert (JsMap.has (key (h !!! scene)) (scenes st) = true) as Hhas.
  { rewrite Hkey. unfold JsMap.has. unfold getScene in Hk. by rewrite Hk. }
  assert (getSceneDepth fuel h (scenes st) scene = OutOfFuel) as Hdepth.
  { unfold getSceneDepth. rewrite Hhas. simpl. by apply (depth_loop_trap h S). }
  split; [done|].
  rewrite (removeScene_found fuel k h st scene Hk).
  unfold getScenesDFS. rewrite decide_False by done.
  by rewrite getSceneDepth_detached, Hdepth.
Qed.

(** X15. Reparenting a scene under itself is accepted:
    [changeSceneParent(k, k)] on a scene whose parent holds a choice for
    it returns true and leaves the scene as its own parent, with a choice
    to itself. *)
Theorem changeSceneParent_self
    (h : gmap loc Scene) (st : Story) (k : string) (scene x : loc) (L : string) :
  getScene st k = Some scene → key (h !!! scene) = k →
  parent (h !!! scene) = Some x →
  JsMap.get k (choices (h !!! x)) = Some L →
  ∃ h', changeSceneParent k k h st = Returns (h', true)
        ∧ parent (h' !!! scene) = Some scene
        ∧ JsMap.has k (choices (h' !!! scene)) = true
        ∧ key (h' !!! scene) = k
        ∧ parent_trap h' (λ l, l = scene).
Proof.
  unfold getScene. intros Hk Hkey Hpar HL.
  unfold changeSceneParent. rewrite Hk, Hpar, Hkey, HL.
  eexists. split; [reflexivity|].
  assert (parent (call_addChoice
                    (write_parent (call_removeChoice h x k) scene (Some scene))
                    scene (label_or_default (string_prop_text L) k) k !!! scene)
          = Some scene) as Hp.
  { rewrite parent_call_addChoice, write_parent_lookup. by rewrite decide_True. }
  split; [done|]. split; [|split].
  - rewrite call_addChoice_lookup, decide_True by done. apply has_addChoice.
  - by rewrite key_call_addChoice, key_write_parent, key_call_removeChoice.
  - intros l ->. by exists scene.
Qed.

Lemma changeSceneParent_self_witness :
  let h := reparent_story.1 in
  let st := reparent_story.2 in
  ∃ h', changeSceneParent "B" "B" h st = Returns (h', true)
        ∧ parent (h' !!! 2%nat) = Some 2%nat
        ∧ JsMap.has "B" (choices (h' !!! 2%nat)) = true
        ∧ key (h' !!! 2%nat) = "B"
        ∧ parent_trap h' (λ l, l = 2%nat).
Proof.
  intros h st.
  apply (changeSceneParent_self h st "B" 2%nat 0%nat "Go to B"); reflexivity.
Defined.

Lemma parent_cycle_diverges_witness :
  let h : gmap loc Scene :=
    {[ 0%nat := mkScene "A" "Root Scene" None [];
       1%nat := mkScene "B" "Scene B" (Some 1%nat) [("B", "to B")] ]} in
  let st := mkStory [("A", 0%nat); ("B", 1%nat)] (Some 0%nat) in
  getSceneDepth 5 h (scenes st) 1%nat = OutOfFuel
  ∧ removeScene 5 "B" h st = OutOfFuel.
Proof.
  intros h st.
  apply (parent_cycle_diverges h st (λ l, l = 1%nat) "B" 1%nat 5).
  - intros l ->. exists 1%nat. split; reflexivity.
  - reflexivity.
  - reflexivity.
  - reflexivity.
  - discriminate.
Defined.

Lemma find_app_None {A} (f : A → bool) (l1 l2 : list A) :
  (∀ x, x ∈ l1 → f x = false) → find f (l1 ++ l2) = find f l2.
Proof.
  induction l1 as [|a l1 IH]; intros Hall; simpl; [done|].
  rewrite (Hall a) by left. apply IH. intros x Hx. apply Hall. by right.
Qed.

(** X16. A scene that holds a choice to its own key, and that no scene of
    the collection references, becomes its own parent when it is added:
    [findParent] scans the collection after the insertion and finds the
    new scene itself. *)
Theorem addScene_self_reference
    (scene : loc) (h : gmap loc Scene) (st : Story) (r : loc) :
  root st = Some r →
  JsMap.has (key (h !!! scene)) (scenes st) = false →
  parent (h !!! scene) = None →
  JsMap.has (key (h !!! scene)) (choices (h !!! scene)) = true →
  (∀ l, l ∈ JsMap.values (scenes st) →
        JsMap.has (key (h !!! scene)) (choices (h !!! l)) = false) →
  let h' := (addScene scene h st).1.1 in
  parent (h' !!! scene) = Some scene ∧ parent_trap h' (λ l, l = scene).
Proof.
  intros Hr Hhas Hpar Hself Hnone. cbn zeta.
  destruct (addScene_links_to_parent_aux scene h st r Hr Hhas Hpar)
    as (p & Hp & Hfind).
  assert (findParent h (addScene scene h st).1.2 (key (h !!! scene)) = Some scene)
    as Hscene.
  { unfold findParent. rewrite (addScene_scenes _ _ _ r Hr), Hhas.
    rewrite jsmap_set_fresh by by apply jsmap_has_false.
    unfold JsMap.values. rewrite fmap_app, find_app_None by done.
    simpl. by rewrite Hself. }
  assert (p = scene) as -> by (destruct Hfind as [?|[? _]]; congruence).
  split; [done|]. intros l ->. by exists scene.
Qed.

Lemma addScene_self_reference_witness :
  let h : gmap loc Scene :=
    {[ 0%nat := mkScene "A" "Root Scene" None [];
       1%nat := mkScene "B" "Scene B" None [("B", "again")] ]} in
  let st := mkStory [("A", 0%nat)] (Some 0%nat) in
  let h' := (addScene 1%nat h st).1.1 in
  parent (h' !!! 1%nat) = Some 1%nat ∧ parent_trap h' (λ l, l = 1%nat).
Proof.
  intros h st. apply (addScene_self_reference 1%nat h st 0%nat); try reflexivity.
  intros l Hl. apply list_elem_of_singleton in Hl as ->. reflexivity.
Defined.

(** ** Traversal: what the result contains *)

(** The invariant of the DFS loop that gives soundness: emitted keys are
    exactly the visited ones and are pairwise distinct; every entry, and
    every scene on the stack, is reached from the start by a path whose
    length is the entry's depth above the base depth; the first entry is
    the start scene. *)
Lemma dfs_loop_sound (h : gmap loc Scene) (st : Story) (start : loc) (d0 : Z)
    (fuel : nat) (result : list SceneRef) :
  dfs_loop fuel h st [(start, d0)] ∅ [] = Returns result →
  NoDup (ref_key <$> result)
  ∧ head result = Some (mkSceneRef (key (h !!! start)) start d0)
  ∧ Forall (λ r, ref_key r = key (h !!! ref_scene r)
                 ∧ ∃ n : nat, ref_depth r = d0 + Z.of_nat n
                              ∧ nsteps (edge h st) n start (ref_scene r)) result.
Proof.
  intros Hrun.
  set (reached := λ (l : loc) (d : Z),
         ∃ n : nat, d = d0 + Z.of_nat n ∧ nsteps (edge h st) n start l).
  set (I := λ (stack : list (loc * Z)) (V : gset string) (R : list SceneRef),
         (∀ k, k ∈ V ↔ k ∈ ref_key <$> R)
         ∧ NoDup (ref_key <$> R)
         ∧ Forall (λ r, ref_key r = key (h !!! ref_scene r)
                        ∧ reached (ref_scene r) (ref_depth r)) R
         ∧ Forall (λ e, reached e.1 e.2) stack
         ∧ match R with
           | [] => stack = [(start, d0)]
           | r :: _ => r = mkSceneRef (key (h !!! start)) start d0
           end).
  destruct (dfs_loop_rule h st I (start :: JsMap.values (scenes st)))
    with (fuel := (fuel `max` dfs_fuel h st start)%nat)
         (stack := [(start, d0)])
         (visited := (∅ : gset string)) (result := @nil SceneRef)
    as (V & R & HR & _ & Hnd & Hall & _ & Hhead).
  - intros x Hx. by right.
  - intros scene depth stack V R (HV & Hnd & HR & Hst & Hhead) Hin.
    apply Forall_cons in Hst as [_ Hst].
    split; [done|]. split; [done|]. split; [done|]. split; [done|].
    destruct R as [|r R]; [|done].
    apply HV in Hin. by apply elem_of_nil in Hin.
  - intros scene depth stack V R (HV & Hnd & HR & Hst & Hhead) Hin V'.
    apply Forall_cons in Hst as [Hscene Hst]. cbn [fst snd] in Hscene.
    split; [|split; [|split; [|split]]].
    + intros k. unfold V'. rewrite elem_of_union, elem_of_singleton, fmap_app.
      rewrite elem_of_app, HV. cbn. rewrite list_elem_of_singleton. done.
    + rewrite fmap_app. apply NoDup_app. split; [done|]. split.
      * intros k Hk Hk'. cbn in Hk'. apply list_elem_of_singleton in Hk' as ->.
        by apply Hin, HV.
      * apply NoDup_singleton.
    + apply Forall_app. split; [done|]. by apply Forall_singleton.
    + apply Forall_app. split; [|done].
      apply Forall_fmap, Forall_forall. intros c [_ Hc]%dfs_children_spec.
      destruct Hscene as (n & -> & Hn). exists (S n). cbn [fst snd]. split; [lia|].
      by eapply nsteps_r.
    + destruct R as [|r R]; [|done]. by injection Hhead as -> ->.
  - split; [set_solver|]. split; [apply NoDup_nil_2|].
    split; [done|]. split; [|done].
    apply Forall_singleton. exists 0%nat. split; [cbn; lia | constructor].
  - apply Forall_singleton. simpl. left.
  - unfold dfs_fuel. simpl length. lia.
  - rewrite (dfs_loop_fuel_mono fuel _ h st _ _ _ result) in HR by (done || lia).
    injection HR as <-. split; [done|]. split; [|done].
    destruct result as [|r R]; [done|]. by rewrite Hhead.
Qed.

Lemma getScenesDFS_paths
    (h : gmap loc Scene) (st : Story) (s : loc) (fuel : nat)
    (result : list SceneRef) :
  getScenesDFS fuel h st (Some s) = Returns result →
  NoDup (ref_key <$> result)
  ∧ ∃ d0, head result = Some (mkSceneRef (key (h !!! s)) s d0)
          ∧ (Some s = root st → d0 = 0)
          ∧ Forall (λ r, ref_key r = key (h !!! ref_scene r)
                         ∧ ∃ n : nat, ref_depth r = d0 + Z.of_nat n
                                      ∧ nsteps (edge h st) n s (ref_scene r))
                   result.
Proof.
  unfold getScenesDFS.
  destruct (decide (Some s = root st)) as [Hroot|Hroot]; cbn [mbind outcome_bind].
  - intros (Hnd & Hhead & Hall)%dfs_loop_sound. split; [done|]. by exists 0.
  - destruct (getSceneDepth fuel h (scenes st) s) as [d| |];
      cbn [mbind outcome_bind]; [|done..].
    intros (Hnd & Hhead & Hall)%dfs_loop_sound. split; [done|]. by exists d.
Qed.



(** X18. [getScenesDFS] from the root and [hasCircle] return on every
    story, cyclic or not: a number of loop iterations bounded by the size
    of the story is enough. *)
Theorem traversal_from_root_returns (h : gmap loc Scene) (st : Story) :
  ∃ fuel0, ∀ fuel, (fuel0 ≤ fuel)%nat →
    ∃ result b, getScenesDFS fuel h st (root st) = Returns result
                ∧ hasCircle fuel h st = Returns b.
Proof.
  destruct (root st) as [r|] eqn:Hr.
  - exists (dfs_fuel h st r). intros fuel Hfuel.
    destruct (getScenesDFS_returns h st r 0%nat 0 fuel) as [result Hres].
    + left. by rewrite Hr.
    + lia.
    + exists result, (hasCircle_loop h st result ∅). unfold hasCircle.
      rewrite Hr, Hres. done.
  - exists 0%nat. intros fuel _. exists [], false.
    unfold hasCircle. by rewrite Hr.
Qed.

Lemma reachable_registered (h : gmap loc Scene) (st : Story) (s l : loc) :
  story_wf h st →
  getScene st (key (h !!! s)) = Some s →
  rtc (edge h st) s l → getScene st (key (h !!! l)) = Some l.
Proof.
  intros Hwf Hs Hl. revert l Hl.
  apply (rtc_ind_r (λ l, getScene st (key (h !!! l)) = Some l)); [done|].
  intros l c _ Hlc _. by eapply edge_registered.
Qed.

Lemma getScenesDFS_reachable
    (h : gmap loc Scene) (st : Story) (s : loc) (fuel : nat)
    (result : list SceneRef) :
  story_wf h st →
  getScene st (key (h !!! s)) = Some s →
  getScenesDFS fuel h st (Some s) = Returns result →
  ∀ l, l ∈ ref_scene <$> result ↔ rtc (edge h st) s l.
Proof.
  intros Hwf Hs Hres.
  destruct (getScenesDFS_paths h st s fuel result Hres) as (_ & d0 & _ & _ & Hall).
  assert (∀ l, rtc (edge h st) s l → getScene st (key (h !!! l)) = Some l) as Hreg.
  { intros l Hl. revert l Hl.
    apply (rtc_ind_r (λ l, getScene st (key (h !!! l)) = Some l)); [done|].
    intros l c _ Hlc _. by eapply edge_registered. }
  intros l. split.
  - intros (r & -> & Hr)%list_elem_of_fmap.
    destruct (proj1 (Forall_forall _ _) Hall r Hr) as (_ & n & _ & Hn).
    by eapply rtc_nsteps_2.
  - intros Hl.
    pose proof (getScenesDFS_covers h st s fuel result Hwf Hs Hres l Hl) as Hk.
    apply list_elem_of_fmap in Hk as (r & Hkey & Hr).
    apply list_elem_of_fmap. exists r. split; [|done].
    destruct (proj1 (Forall_forall _ _) Hall r Hr) as (Hrk & n & _ & Hn).
    apply rtc_nsteps_2 in Hn. apply Hreg in Hn. apply Hreg in Hl.
    rewrite <- Hrk, <- Hkey in Hn. congruence.
Qed.

(** X19. On a well-formed story, started at a scene of the collection,
    [getScenesDFS] emits exactly the scenes that are reachable from the
    start through choices that resolve. *)
Theorem getScenesDFS_exact
    (h : gmap loc Scene) (st : Story) (s : loc) (fuel : nat)
    (result : list SceneRef) :
  story_wf h st →
  getScene st (key (h !!! s)) = Some s →
  getScenesDFS fuel h st (Some s) = Returns result →
  ∀ l, l ∈ ref_scene <$> result ↔ rtc (edge h st) s l.
Proof. apply getScenesDFS_reachable. Qed.

Lemma getScenesDFS_exact_witness :
  let h := shared_child_story.1 in
  let st := shared_child_story.2 in
  2%nat ∈ ref_scene <$> [mkSceneRef "A" 1%nat 1; mkSceneRef "D" 2%nat 2]
  ↔ rtc (edge h st) 1%nat 2%nat.
Proof.
  intros h st.
  apply (getScenesDFS_exact h st 1%nat 2).
  - split.
    + apply (bool_decide_unpack _). vm_compute. exact I.
    + vm_compute. repeat constructor.
  - reflexivity.
  - reflexivity.
Defined.

(** ** Cycle detection: what is detected *)

Lemma points_to_visited_true
    (h : gmap loc Scene) (st : Story) (visited : gset string) (l : loc) :
  points_to_visited h st visited l = true
  ↔ ∃ c, edge h st l c ∧ key (h !!! c) ∈ visited.
Proof.
  unfold points_to_visited, edge. rewrite existsb_exists. split.
  - intros (k & Hk%list_elem_of_In & Hc).
    destruct (getScene st k) as [c|] eqn:E; [|done].
    apply bool_decide_eq_true in Hc. exists c. eauto.
  - intros (c & (k & Hk & Hget) & Hc). exists k.
    split; [by apply list_elem_of_In|]. rewrite Hget.
    by apply bool_decide_eq_true.
Qed.

Lemma hasCircle_loop_true
    (h : gmap loc Scene) (st : Story) (refs : list SceneRef) (visited : gset string) :
  hasCircle_loop h st refs visited = true
  ↔ ∃ (i : nat) r c,
      refs !! i = Some r ∧ edge h st (ref_scene r) c
      ∧ (key (h !!! c) ∈ visited
         ∨ ∃ (j : nat) r', (j < i)%nat ∧ refs !! j = Some r'
                           ∧ key (h !!! ref_scene r') = key (h !!! c)).
Proof.
  revert visited. induction refs as [|r refs IH]; intros visited.
  - simpl. split; [done | by intros (i & ? & ? & ? & _)].
  - cbn [hasCircle_loop].
    destruct (points_to_visited h st visited (ref_scene r)) eqn:Hp.
    + split; [intros _ | done].
      apply points_to_visited_true in Hp as (c & Hc & Hin).
      exists 0%nat, r, c. eauto.
    + rewrite IH. split.
      * intros (i & r1 & c & Hi & Hc & Hor). exists (S i), r1, c.
        split; [done|]. split; [done|].
        destruct Hor as [[Hin | ->%elem_of_singleton]%elem_of_union
                        | (j & r' & Hj & Hr' & Hkey)].
        -- by left.
        -- right. exists 0%nat, r. split; [lia | done].
        -- right. exists (S j), r'. split; [lia | done].
      * intros (i & r1 & c & Hi & Hc & Hor). destruct i as [|i].
        -- cbn in Hi. injection Hi as <-. exfalso.
           destruct Hor as [Hin | (j & _ & Hj & _)]; [|lia].
           assert (points_to_visited h st visited (ref_scene r) = true) as Ht
             by (apply points_to_visited_true; eauto).
           congruence.
        -- cbn in Hi. exists i, r1, c. split; [done|]. split; [done|].
           destruct Hor as [Hin | (j & r' & Hj & Hr' & Hkey)].
           ++ left. set_solver.
           ++ destruct j as [|j].
              ** cbn in Hr'. injection Hr' as <-. left. set_solver.
              ** right. exists j, r'. split; [lia | done].
Qed.

(** X20. [hasCircle] answers true exactly when some scene of the DFS
    result has a choice that resolves to a scene with the key of an entry
    emitted earlier. An edge to the scene itself or to a later entry does
    not count; an edge to any earlier entry does, whether or not it closes
    a cycle. *)
Theorem hasCircle_iff
    (h : gmap loc Scene) (st : Story) (fuel : nat) (refs : list SceneRef) :
  getScenesDFS fuel h st (root st) = Returns refs →
  ∃ b, hasCircle fuel h st = Returns b
       ∧ (b = true
          ↔ ∃ (i j : nat) r r' c,
              (j < i)%nat ∧ refs !! i = Some r ∧ refs !! j = Some r'
              ∧ edge h st (ref_scene r) c
              ∧ key (h !!! c) = key (h !!! ref_scene r')).
Proof.
  intros Hrefs. exists (hasCircle_loop h st refs ∅). split.
  - unfold hasCircle. by rewrite Hrefs.
  - rewrite hasCircle_loop_true. split.
    + intros (i & r & c & Hi & Hc & [Hin | (j & r' & Hj & Hr' & Hkey)]);
        [set_solver|].
      exists i, j, r, r', c. eauto.
    + intros (i & j & r & r' & c & Hj & Hi & Hr' & Hc & Hkey).
      exists i, r, c. split; [done|]. split; [done|]. right. eauto.
Qed.

Lemma hasCircle_iff_witness :
  let h := test_cycle2.1 in
  let st := test_cycle2.2 in
  let refs := [mkSceneRef "A" 0%nat 0; mkSceneRef "B" 1%nat 1] in
  ∃ b, hasCircle 2 h st = Returns b
       ∧ (b = true
          ↔ ∃ (i j : nat) r r' c,
              (j < i)%nat ∧ refs !! i = Some r ∧ refs !! j = Some r'
              ∧ edge h st (ref_scene r) c
              ∧ key (h !!! c) = key (h !!! ref_scene r')).
Proof. intros h st refs. apply (hasCircle_iff h st 2 refs). reflexivity. Defined.

Section Diamond.
Variables (h : gmap loc Scene) (st : Story).
Variables (a b c d : string) (la lb lc ld : loc).
Hypothesis Hab : a ≠ b.
Hypothesis Hac : a ≠ c.
Hypothesis Had : a ≠ d.
Hypothesis Hbc : b ≠ c.
Hypothesis Hbd : b ≠ d.
Hypothesis Hcd : c ≠ d.
Hypothesis Hg :
  graph_is h st [(a, la, [b; c]); (b, lb, [d]); (c, lc, [d]); (d, ld, [])].

Lemma diamond_facts :
  (key (h !!! la) = a ∧ JsMap.keys (choices (h !!! la)) = [b; c])
  ∧ (key (h !!! lb) = b ∧ JsMap.keys (choices (h !!! lb)) = [d])
  ∧ (key (h !!! lc) = c ∧ JsMap.keys (choices (h !!! lc)) = [d])
  ∧ (key (h !!! ld) = d ∧ JsMap.keys (choices (h !!! ld)) = [])
  ∧ getScene st a = Some la ∧ getScene st b = Some lb
  ∧ getScene st c = Some lc ∧ getScene st d = Some ld
  ∧ (∀ k l, getScene st k = Some l →
            (k = a ∧ l = la) ∨ (k = b ∧ l = lb) ∨ (k = c ∧ l = lc)
            ∨ (k = d ∧ l = ld)).
Proof using Hab Hac Had Hbc Hbd Hcd Hg.
  pose proof (graph_is_node _ _ _ a la [b; c] Hg ltac:(in_list)) as Na.
  pose proof (graph_is_node _ _ _ b lb [d] Hg ltac:(in_list)) as Nb.
  pose proof (graph_is_node _ _ _ c lc [d] Hg ltac:(in_list)) as Nc.
  pose proof (graph_is_node _ _ _ d ld [] Hg ltac:(in_list)) as Nd.
  pose proof (graph_is_scenes _ _ _ a Hg) as Sa.
  pose proof (graph_is_scenes _ _ _ b Hg) as Sb.
  pose proof (graph_is_scenes _ _ _ c Hg) as Sc.
  pose proof (graph_is_scenes _ _ _ d Hg) as Sd.
  cbn in Sa, Sb, Sc, Sd. rewrite decide_True in Sa by done.
  rewrite decide_False, decide_True in Sb by done.
  rewrite !decide_False, decide_True in Sc by done.
  rewrite !decide_False, decide_True in Sd by done.
  repeat (split; [done|]).
  intros k l. rewrite (graph_is_scenes _ _ _ k Hg). cbn.
  repeat case_decide; intros [= <-]; subst; tauto.
Qed.

Lemma getScenesDFS_diamond (fuel : nat) :
  (4 ≤ fuel)%nat →
  getScenesDFS fuel h st (root st)
  = Returns [mkSceneRef a la 0; mkSceneRef b lb 1; mkSceneRef d ld 2;
             mkSceneRef c lc 1].
Proof using Hab Hac Had Hbc Hbd Hcd Hg.
  intros Hfuel.
  destruct diamond_facts
    as ([Ka Ca] & [Kb Cb] & [Kc Cc] & [Kd Cd] & Sa & Sb & Sc & Sd & _).
  destruct Hg as (_ & Hroot & _). simpl in Hroot.
  apply (getScenesDFS_fuel_mono 4); [done|].
  unfold getScenesDFS. rewrite Hroot. rewrite decide_True by done.
  cbn [mbind outcome_bind].
  rewrite dfs_loop_visit by (rewrite Ka; set_solver). cbn zeta.
  rewrite (dfs_children_keys _ _ _ _ _ Ca). cbn [omap list_omap].
  rewrite Sb, Sc, Ka. cbn [filter list_filter]. rewrite Kb.
  rewrite decide_True by set_solver. cbn [filter list_filter]. rewrite Kc.
  rewrite decide_True by set_solver. cbn [filter list_filter fmap list_fmap app].
  rewrite dfs_loop_visit by (rewrite Kb; set_solver). cbn zeta.
  rewrite (dfs_children_keys _ _ _ _ _ Cb). cbn [omap list_omap].
  rewrite Sd, Kb. cbn [filter list_filter]. rewrite Kd.
  rewrite decide_True by set_solver. cbn [filter list_filter fmap list_fmap app].
  rewrite dfs_loop_visit by (rewrite Kd; set_solver). cbn zeta.
  rewrite (dfs_children_keys _ _ _ _ _ Cd). cbn [omap list_omap].
  cbn [filter list_filter fmap list_fmap app]. rewrite Kd.
  rewrite dfs_loop_visit by (rewrite Kc; set_solver). cbn zeta.
  rewrite (dfs_children_keys _ _ _ _ _ Cc). cbn [omap list_omap].
  rewrite Sd, Kc. cbn [filter list_filter]. rewrite Kd.
  rewrite decide_False by set_solver. reflexivity.
Qed.

Lemma diamond_acyclic : ∀ l, ¬ tc (edge h st) l l.
Proof using Hab Hac Had Hbc Hbd Hcd Hg.
  destruct diamond_facts
    as ([Ka Ca] & [Kb Cb] & [Kc Cc] & [Kd Cd] & Sa & Sb & Sc & Sd & Hall).
  set (rank := λ l : loc,
         if decide (l = ld) then 3%nat
         else if decide (l = lb ∨ l = lc) then 2%nat
         else if decide (l = la) then 1%nat else 0%nat).
  assert (la ≠ lb ∧ la ≠ lc ∧ la ≠ ld ∧ lb ≠ ld ∧ lc ≠ ld)
    as (Hlab & Hlac & Hlad & Hlbd & Hlcd)
    by (repeat split; intros E; congruence).
  assert (rank la = 1%nat ∧ rank lb = 2%nat ∧ rank lc = 2%nat ∧ rank ld = 3%nat)
    as (Ra & Rb & Rc & Rd).
  { unfold rank. repeat split.
    - rewrite decide_False by done. rewrite decide_False by (intros [?|?]; done).
      by rewrite decide_True.
    - rewrite decide_False by done. by rewrite decide_True by (by left).
    - rewrite decide_False by done. by rewrite decide_True by (by right).
    - by rewrite decide_True. }
  assert (∀ x y, edge h st x y → (rank x < rank y)%nat) as Hstep.
  { intros x y (k & Hk & Hy).
    destruct (decide (x = ld)) as [->|Hxd].
    { rewrite Cd in Hk. by apply elem_of_nil in Hk. }
    destruct (decide (x = lb)) as [->|Hxb].
    { rewrite Cb in Hk. apply list_elem_of_singleton in Hk as ->.
      assert (y = ld) as -> by congruence. lia. }
    destruct (decide (x = lc)) as [->|Hxc].
    { rewrite Cc in Hk. apply list_elem_of_singleton in Hk as ->.
      assert (y = ld) as -> by congruence. lia. }
    destruct (decide (x = la)) as [->|Hxa].
    { rewrite Ca in Hk. apply elem_of_cons in Hk as [->|Hk].
      - assert (y = lb) as -> by congruence. lia.
      - apply list_elem_of_singleton in Hk as ->.
        assert (y = lc) as -> by congruence. lia. }
    assert (rank x = 0%nat) as ->.
    { unfold rank. rewrite decide_False by done.
      rewrite decide_False by (intros [?|?]; done). by rewrite decide_False. }
    destruct (Hall k y Hy) as [[_ ->]|[[_ ->]|[[_ ->]|[_ ->]]]]; lia. }
  assert (∀ x y, tc (edge h st) x y → (rank x < rank y)%nat) as Htc.
  { intros x y Hxy. induction Hxy as [x y Hxy | x y z Hxy _ IH].
    - by apply Hstep.
    - apply Hstep in Hxy. lia. }
  intros l Hl. apply Htc in Hl. lia.
Qed.
End Diamond.

(** X21. On the diamond [a → b → d], [a → c → d], which has no cycle,
    [hasCircle] returns true: when [c] is scanned, its choice leads to
    [d], which was emitted before [c]. *)
Theorem hasCircle_diamond_false_positive
    (h : gmap loc Scene) (st : Story) (a b c d : string) (la lb lc ld : loc)
    (fuel : nat) :
  NoDup [a; b; c; d] →
  graph_is h st [(a, la, [b; c]); (b, lb, [d]); (c, lc, [d]); (d, ld, [])] →
  (4 ≤ fuel)%nat →
  hasCircle fuel h st = Returns true ∧ ∀ l, ¬ tc (edge h st) l l.
Proof.
  intros Hnd Hg Hfuel.
  assert (a ≠ b ∧ a ≠ c ∧ a ≠ d ∧ b ≠ c ∧ b ≠ d ∧ c ≠ d)
    as (Hab & Hac & Had & Hbc & Hbd & Hcd).
  { apply NoDup_cons in Hnd as [Ha Hnd]. apply NoDup_cons in Hnd as [Hb Hnd].
    apply NoDup_cons in Hnd as [Hc _].
    repeat split; intros ->;
      first [apply Ha; in_list | apply Hb; in_list | apply Hc; in_list]. }
  split; [|by apply (diamond_acyclic h st a b c d la lb lc ld)].
  destruct (diamond_facts h st a b c d la lb lc ld)
    as ([Ka Ca] & [Kb Cb] & [Kc Cc] & [Kd Cd] & Sa & Sb & Sc & Sd & _); try done.
  unfold hasCircle.
  rewrite (getScenesDFS_diamond h st a b c d la lb lc ld) by done.
  cbn [mbind outcome_bind mret outcome_ret]. f_equal.
  apply hasCircle_loop_true.
  exists 3%nat, (mkSceneRef c lc 1), ld. split; [done|]. split.
  - cbn [ref_scene]. exists d. split; [rewrite Cc; left | done].
  - right. exists 2%nat, (mkSceneRef d ld 2). split; [lia|]. split; done.
Qed.

Lemma hasCircle_diamond_false_positive_witness :
  let hs := add_all [0; 1; 2; 3]%nat
    {[ 0%nat := scene_with "A" "Scene A" None
                  [mkChoice "Go to B" "B"; mkChoice "Go to C" "C"];
       1%nat := scene_with "B" "Scene B" None [mkChoice "Go to D" "D"];
       2%nat := scene_with "C" "Scene C" None [mkChoice "Go to D" "D"];
       3%nat := scene_with "D" "Scene D" None [] ]}
    (mkStory [] None) in
  hasCircle 4 hs.1 hs.2 = Returns true ∧ ∀ l, ¬ tc (edge hs.1 hs.2) l l.
Proof.
  intros hs.
  apply (hasCircle_diamond_false_positive _ _ "A" "B" "C" "D" 0%nat 1%nat 2%nat 3%nat).
  - apply (bool_decide_unpack _). vm_compute. exact I.
  - graph_is_by_computation.
  - lia.
Defined.

(** ** Editing and reparenting: frame and failure conditions *)

(** X22. [editScene] touches the addressed scene only: a missing key
    gives false with the store unchanged, and otherwise every other object
    of the store, and the key and parent of the edited scene, are left as
    they were. *)
Theorem editScene_frame
    (k : string) (newText : option string) (newChoices : option (JsMap.t string))
    (h h' : gmap loc Scene) (st : Story) (b : bool) :
  editScene k newText newChoices h st = Returns (h', b) →
  (getScene st k = None → h' = h ∧ b = false)
  ∧ (∀ l, getScene st k ≠ Some l → h' !!! l = h !!! l)
  ∧ (∀ l, key (h' !!! l) = key (h !!! l) ∧ parent (h' !!! l) = parent (h !!! l)).
Proof.
  unfold editScene, getScene.
  destruct (JsMap.get k (scenes st)) as [scene|] eqn:Hk.
  - destruct (updateContent newText newChoices (h !!! scene)) as [[s' e]| |] eqn:E;
      cbn [mbind outcome_bind]; [|done..].
    intros [= <- <-]. split; [done|]. split.
    + intros l Hl. rewrite lookup_total_insert_ne; [done | congruence].
    + intros l. rewrite lookup_total_insert. case_decide; [subst|done].
      destruct (updateContent_false_unchanged_aux _ _ _ _ _ E) as [? ?]. done.
  - intros [= <- <-]. done.
Qed.

Lemma editScene_frame_witness :
  let h := test_chain.1 in
  let st := test_chain.2 in
  ∃ h', editScene "B" (Some "New text") (Some []) h st = Returns (h', true)
        ∧ (getScene st "B" = None → h' = h ∧ true = false)
        ∧ (∀ l, getScene st "B" ≠ Some l → h' !!! l = h !!! l)
        ∧ (∀ l, key (h' !!! l) = key (h !!! l)
                ∧ parent (h' !!! l) = parent (h !!! l)).
Proof.
  intros h st. eexists. split; [reflexivity|].
  eapply (editScene_frame "B" (Some "New text") (Some []) h _ st true).
  reflexivity.
Defined.

(** X23. [changeSceneParent] throws exactly when the key is not in the
    collection, or the scene has no parent, or the parent holds no choice
    for the scene; in every other case it returns, and its result tells
    whether the new parent key resolved. *)
Theorem changeSceneParent_outcome
    (k newParentKey : string) (h : gmap loc Scene) (st : Story) :
  let faults :=
    match getScene st k with
    | None => True
    | Some scene =>
        match parent (h !!! scene) with
        | None => True
        | Some p => JsMap.get (key (h !!! scene)) (choices (h !!! p)) = None
        end
    end in
  (faults ↔ changeSceneParent k newParentKey h st = Throws)
  ∧ (¬ faults ↔
     ∃ h', changeSceneParent k newParentKey h st
           = Returns (h', JsMap.has newParentKey (scenes st))).
Proof.
  cbn zeta. unfold changeSceneParent, getScene, JsMap.has.
  destruct (JsMap.get k (scenes st)) as [scene|].
  2: { split; [done|]. split; [tauto | by intros [? ?]]. }
  destruct (parent (h !!! scene)) as [p|].
  2: { split; [done|]. split; [tauto | by intros [? ?]]. }
  destruct (JsMap.get (key (h !!! scene)) (choices (h !!! p))) as [label|].
  - destruct (JsMap.get newParentKey (scenes st)); (split; [done|]);
      (split; [intros _; eauto | by intros _ ?]).
  - split; [done|]. split; [tauto | by intros [? ?]].
Qed.

Lemma jsmap_get_remove_ne {V} (k k' : string) (m : JsMap.t V) :
  k' ≠ k → JsMap.get k' (JsMap.remove k m) = JsMap.get k' m.
Proof.
  intros Hne. induction m as [|[k0 v0] m IH]; cbn [JsMap.remove JsMap.get]; [done|].
  destruct (decide (k = k0)) as [->|Hk].
  - by rewrite decide_False.
  - cbn [JsMap.get]. by rewrite IH.
Qed.

Lemma call_removeChoice_frame h p k l :
  key (call_removeChoice h p k !!! l) = key (h !!! l)
  ∧ text (call_removeChoice h p k !!! l) = text (h !!! l)
  ∧ parent (call_removeChoice h p k !!! l) = parent (h !!! l)
  ∧ ∀ k', k' ≠ k →
      JsMap.get k' (choices (call_removeChoice h p k !!! l))
      = JsMap.get k' (choices (h !!! l)).
Proof.
  rewrite call_removeChoice_lookup.
  destruct (decide (p = l)) as [->|]; [|done].
  repeat split. intros k' Hne. by apply jsmap_get_remove_ne.
Qed.

Lemma call_removeChoice_removed h p k :
  JsMap.wf (choices (h !!! p)) →
  JsMap.get k (choices (call_removeChoice h p k !!! p)) = None.
Proof.
  intros Hwf. rewrite call_removeChoice_lookup, decide_True by done.
  cbn [removeChoice JsMap.delete fst choices set_choices].
  rewrite jsmap_get_remove by done. by rewrite decide_True.
Qed.

(** X24. Reparenting under a key that does not resolve detaches the
    scene: the call returns false, the old parent loses its choice for the
    scene and the scene has no parent afterwards. Nothing else is touched:
    every object keeps its key and text, every other object its parent,
    and every table its entries for all other targets. *)
Theorem changeSceneParent_detaches
    (h : gmap loc Scene) (st : Story) (k newParentKey : string) (scene x : loc)
    (L : string) :
  getScene st k = Some scene → key (h !!! scene) = k →
  parent (h !!! scene) = Some x →
  JsMap.wf (choices (h !!! x)) →
  JsMap.get k (choices (h !!! x)) = Some L →
  getScene st newParentKey = None →
  ∃ h', changeSceneParent k newParentKey h st = Returns (h', false)
        ∧ parent (h' !!! scene) = None
        ∧ JsMap.get k (choices (h' !!! x)) = None
        ∧ (∀ l, key (h' !!! l) = key (h !!! l) ∧ text (h' !!! l) = text (h !!! l))
        ∧ (∀ l, l ≠ scene → parent (h' !!! l) = parent (h !!! l))
        ∧ (∀ l k', k' ≠ k →
             JsMap.get k' (choices (h' !!! l)) = JsMap.get k' (choices (h !!! l))).
Proof.
  unfold getScene. intros Hk Hkey Hpar Hwf HL Hnp.
  unfold changeSceneParent. rewrite Hk, Hpar, Hkey, HL, Hnp.
  eexists. split; [reflexivity|].
  assert (∀ l, choices (write_parent (call_removeChoice h x k) scene None !!! l)
               = choices (call_removeChoice h x k !!! l)) as Hch.
  { intros l. rewrite write_parent_lookup. by case_decide; subst. }
  split; [|split; [|split; [|split]]].
  - rewrite write_parent_lookup. by rewrite decide_True.
  - rewrite Hch. by apply call_removeChoice_removed.
  - intros l. rewrite write_parent_lookup.
    destruct (call_removeChoice_frame h x k l) as (Hkl & Htl & _).
    case_decide; subst; by split.
  - intros l Hl. rewrite write_parent_lookup, decide_False by done.
    apply call_removeChoice_frame.
  - intros l k' Hne. rewrite Hch. by apply call_removeChoice_frame.
Qed.

Lemma changeSceneParent_detaches_witness :
  let h := reparent_story.1 in
  let st := reparent_story.2 in
  ∃ h', changeSceneParent "B" "Z" h st = Returns (h', false)
        ∧ parent (h' !!! 2%nat) = None
        ∧ JsMap.get "B" (choices (h' !!! 0%nat)) = None
        ∧ (∀ l, key (h' !!! l) = key (h !!! l) ∧ text (h' !!! l) = text (h !!! l))
        ∧ (∀ l, l ≠ 2%nat → parent (h' !!! l) = parent (h !!! l))
        ∧ (∀ l k', k' ≠ "B" →
             JsMap.get k' (choices (h' !!! l)) = JsMap.get k' (choices (h !!! l))).
Proof.
  intros h st.
  apply (changeSceneParent_detaches h st "B" "Z" 2%nat 0%nat "Go to B");
    try reflexivity.
  apply (bool_decide_unpack _). vm_compute. exact I.
Defined.

(** ** Removal *)

Lemma detached_frame h scene l :
  key (detached h scene !!! l) = key (h !!! l)
  ∧ text (detached h scene !!! l) = text (h !!! l)
  ∧ parent (detached h scene !!! l) = parent (h !!! l)
  ∧ ∀ k', k' ≠ key (h !!! scene) →
      JsMap.get k' (choices (detached h scene !!! l))
      = JsMap.get k' (choices (h !!! l)).
Proof.
  unfold detached. destruct (parent (h !!! scene)); [|done].
  apply call_removeChoice_frame.
Qed.

(** The children that the DFS pushes do not depend on a choice whose
    target resolves to a scene that is already visited. *)
Lemma dfs_children_remove (h : gmap loc Scene) (st : Story) (visited : gset string)
    (k : string) (m : JsMap.t string) :
  (∀ c, getScene st k = Some c → key (h !!! c) ∈ visited) →
  filter (λ child, key (h !!! child) ∉ visited)
         (omap (getScene st) (JsMap.keys (JsMap.remove k m)))
  = filter (λ child, key (h !!! child) ∉ visited)
           (omap (getScene st) (JsMap.keys m)).
Proof.
  intros Hk. unfold JsMap.keys.
  induction m as [|[k0 v0] m IH]; cbn [JsMap.remove]; [done|].
  destruct (decide (k = k0)) as [<-|Hne].
  - rewrite fmap_cons. cbn [fst omap list_omap].
    destruct (getScene st k) as [c|] eqn:Hc; [|done].
    rewrite filter_cons_False; [done|]. intros Hnot. by apply Hnot, Hk.
  - rewrite !fmap_cons. cbn [fst omap list_omap].
    destruct (getScene st k0) as [c|]; [|exact IH].
    rewrite !filter_cons. by rewrite IH.
Qed.

Section Detached.
Variables (h : gmap loc Scene) (st : Story) (scene : loc).
Hypothesis Hscene : getScene st (key (h !!! scene)) = Some scene.

(** One iteration of the DFS loop reads the same from the store in which
    the parent has lost its choice for [scene], once the key of [scene] is
    in the visited set: that choice resolves to [scene] and is filtered
    out. *)
Lemma dfs_body_detached top stack (visited : gset string) result :
  key (h !!! scene) ∈ visited ∪ {[key (h !!! top.1)]} →
  dfs_body (detached h scene) st top stack visited result
  = dfs_body h st top stack visited result.
Proof using Hscene.
  destruct top as [l depth]. cbn [fst]. intros Hin. unfold dfs_body.
  rewrite detached_key. case_decide; [done|].
  do 2 f_equal. f_equal. unfold dfs_children.
  assert (∀ cs, filter (λ child, key (detached h scene !!! child)
                                   ∉ visited ∪ {[key (h !!! l)]}) cs
                = filter (λ child, key (h !!! child)
                                     ∉ visited ∪ {[key (h !!! l)]}) cs) as ->.
  { intros cs. apply list_filter_iff. intros c. by rewrite detached_key. }
  unfold detached. destruct (parent (h !!! scene)) as [p|]; [|done].
  rewrite call_removeChoice_lookup. destruct (decide (p = l)) as [->|]; [|done].
  cbn [removeChoice JsMap.delete fst choices set_choices].
  apply dfs_children_remove. intros c Hc.
  rewrite Hscene in Hc. by injection Hc as <-.
Qed.

Lemma dfs_loop_detached fuel stack (visited : gset string) result :
  key (h !!! scene) ∈ visited ∨ (∃ d rest, stack = (scene, d) :: rest) →
  dfs_loop fuel (detached h scene) st stack visited result
  = dfs_loop fuel h st stack visited result.
Proof using Hscene.
  revert stack visited result.
  induction fuel as [|fuel IH]; intros stack visited result Hinv;
    destruct stack as [|top stack]; cbn [dfs_loop]; try done.
  assert (key (h !!! scene) ∈ visited ∪ {[key (h !!! top.1)]}) as Hin.
  { destruct Hinv as [?|(d & rest & [= -> ->])]; cbn [fst]; set_solver. }
  rewrite (dfs_body_detached top stack visited result Hin).
  destruct (dfs_body h st top stack visited result) as [[stack1 visited1] result1]
    eqn:Hbody.
  apply IH. left.
  destruct top as [l depth]. unfold dfs_body in Hbody. cbn [fst] in Hin.
  case_decide as Hl; injection Hbody as <- <- <-; set_solver.
Qed.

(** [removeScene] runs its DFS after the parent has lost its choice for
    the scene; the result is that of the DFS on the story before the call. *)
Lemma getScenesDFS_detached fuel :
  getScenesDFS fuel (detached h scene) st (Some scene)
  = getScenesDFS fuel h st (Some scene).
Proof using Hscene.
  unfold getScenesDFS. rewrite getSceneDepth_detached.
  destruct (if decide (Some scene = root st) then Returns 0
            else getSceneDepth fuel h (scenes st) scene) as [d| |];
    cbn [mbind outcome_bind]; [|done..].
  apply dfs_loop_detached. right. by exists d, [].
Qed.
End Detached.

(** The keys that the DFS emits are those of the scenes reachable from
    the start. *)
Lemma getScenesDFS_keys (h : gmap loc Scene) (st : Story) (s : loc) (fuel : nat)
    (result : list SceneRef) (k : string) (l : loc) :
  story_wf h st →
  getScene st (key (h !!! s)) = Some s →
  getScenesDFS fuel h st (Some s) = Returns result →
  getScene st k = Some l →
  k ∈ ref_key <$> result ↔ rtc (edge h st) s l.
Proof.
  intros Hwf Hs Hres Hk.
  destruct (getScenesDFS_paths h st s fuel result Hres) as (_ & d0 & _ & _ & Hall).
  pose proof (story_wf_key h st Hwf k l Hk) as Hkl.
  split.
  - intros (r & -> & Hr)%list_elem_of_fmap.
    destruct (proj1 (Forall_forall _ _) Hall r Hr) as (Hrk & n & _ & Hn).
    apply rtc_nsteps_2 in Hn.
    pose proof (reachable_registered h st s _ Hwf Hs Hn) as Hreg.
    rewrite <- Hrk, Hk in Hreg. by injection Hreg as ->.
  - intros Hl. rewrite <- Hkl.
    by apply (getScenesDFS_covers h st s fuel result).
Qed.

(** C5, as stated: on [shared_child_story], [D] is a child of the removed
    scene [A] and is also referenced by [R], which stays in the collection;
    [removeScene("A")] nevertheless deletes [D], and [R] is left with a
    dangling choice. *)
Lemma removeScene_deletes_shared_descendant :
  let '(h, st) := shared_child_story in
  edge h st 1%nat 2%nat
  ∧ edge h st 0%nat 2%nat
  ∧ ∃ h' st', removeScene 2 "A" h st = Returns (h', st', true)
              ∧ getScene st' "D" = None
              ∧ getScene st' "R" = Some 0%nat
              ∧ JsMap.get "D" (choices (h' !!! 0%nat)) = Some "Go to D".
Proof.
  vm_compute shared_child_story. cbv beta iota.
  split; [|split].
  - exists "D". split; [vm_compute; left | reflexivity].
  - exists "D". split; [vm_compute; right; left | reflexivity].
  - eexists _, _. split; [vm_compute; reflexivity|]. by vm_compute.
Qed.

(** C5, amended. [removeScene(key)] deletes the scenes reachable from the
    removed scene through choice edges, and no others, whether or not a
    scene outside the removed subtree also references them: the call
    returns true; an entry is left in the collection exactly when its
    scene is not reachable from the removed one; and every scene object,
    the parent included, keeps its key, text and parent and every choice
    for a target other than the removed key, so a choice that led to a
    deleted descendant stays behind, dangling. The parent walk of
    [getSceneDepth] must end, or the removed scene be the root. *)
Theorem removeScene_cascades_to_every_reachable
    (h : gmap loc Scene) (st : Story) (k : string) (scene : loc) (n : nat) (d0 : Z) :
  story_wf h st →
  getScene st k = Some scene →
  Some scene = root st ∨ getSceneDepth n h (scenes st) scene = Returns d0 →
  ∃ fuel0 h' st',
    (∀ fuel, (fuel0 ≤ fuel)%nat → removeScene fuel k h st = Returns (h', st', true))
    ∧ (∀ d, rtc (edge h st) scene d → getScene st' (key (h !!! d)) = None)
    ∧ (∀ k' l, getScene st' k' = Some l
               ↔ getScene st k' = Some l ∧ ¬ rtc (edge h st) scene l)
    ∧ (∀ x, key (h' !!! x) = key (h !!! x) ∧ text (h' !!! x) = text (h !!! x)
            ∧ parent (h' !!! x) = parent (h !!! x))
    ∧ (∀ x k', k' ≠ k →
         JsMap.get k' (choices (h' !!! x)) = JsMap.get k' (choices (h !!! x))).
Proof.
  intros Hwf Hk Hdepth.
  pose proof (story_wf_key h st Hwf k scene Hk) as Hkey.
  assert (getScene st (key (h !!! scene)) = Some scene) as Hreg by by rewrite Hkey.
  set (fuel0 := (n `max` dfs_fuel h st scene)%nat).
  destruct (getScenesDFS_returns h st scene n d0 fuel0 Hdepth) as [refs Hrefs];
    [done|].
  set (st' := mkStory (foldl (λ m r, JsMap.remove (ref_key r) m) (scenes st)
                             (reverse refs))
                      (root st)).
  assert (∀ k', getScene st' k'
                = if decide (k' ∈ ref_key <$> refs) then None else getScene st k')
    as Hst'.
  { intros k'. unfold getScene, st'. cbn [scenes].
    rewrite foldl_remove_get by apply Hwf.
    destruct (decide (k' ∈ ref_key <$> reverse refs)) as [Hin|Hin];
      rewrite fmap_reverse, elem_of_reverse in Hin.
    - by rewrite decide_True.
    - by rewrite decide_False. }
  exists fuel0, (detached h scene), st'.
  split; [|split; [|split; [|split]]].
  - intros fuel Hfuel. rewrite (removeScene_found fuel k h st scene Hk).
    rewrite (getScenesDFS_detached h st scene Hreg).
    by rewrite (getScenesDFS_fuel_mono fuel0 fuel h st _ refs).
  - intros d Hd. rewrite Hst', decide_True; [done|].
    by apply (getScenesDFS_covers h st scene fuel0 refs).
  - intros k' l. rewrite Hst'. split.
    + case_decide as Hin; [done|]. intros Hl. split; [done|].
      intros Hreach. apply Hin.
      by apply (getScenesDFS_keys h st scene fuel0 refs k' l).
    + intros [Hl Hreach]. rewrite decide_False; [done|].
      intros Hin. apply Hreach.
      by apply (getScenesDFS_keys h st scene fuel0 refs k' l).
  - intros x. destruct (detached_frame h scene x) as (? & ? & ? & _). done.
  - intros x k' Hne. apply detached_frame. by rewrite Hkey.
Qed.

Lemma removeScene_cascades_to_every_reachable_witness :
  let h := shared_child_story.1 in
  let st := shared_child_story.2 in
  ∃ fuel0 h' st',
    (∀ fuel, (fuel0 ≤ fuel)%nat → removeScene fuel "A" h st = Returns (h', st', true))
    ∧ (∀ d, rtc (edge h st) 1%nat d → getScene st' (key (h !!! d)) = None)
    ∧ (∀ k' l, getScene st' k' = Some l
               ↔ getScene st k' = Some l ∧ ¬ rtc (edge h st) 1%nat l)
    ∧ (∀ x, key (h' !!! x) = key (h !!! x) ∧ text (h' !!! x) = text (h !!! x)
            ∧ parent (h' !!! x) = parent (h !!! x))
    ∧ (∀ x k', k' ≠ "A" →
         JsMap.get k' (choices (h' !!! x)) = JsMap.get k' (choices (h !!! x))).
Proof.
  intros h st.
  apply (removeScene_cascades_to_every_reachable h st "A" 1%nat 1%nat 1).
  - split.
    + apply (bool_decide_unpack _). vm_compute. exact I.
    + vm_compute. repeat constructor.
  - reflexivity.
  - right. reflexivity.
Defined.

(** X25. What [removeScene] does: it returns whether the key was present
    and never changes the root reference; every object keeps its key,
    text and parent and every choice for a target other than the key. If
    the key was absent nothing changes. If it was present, the parent of
    the scene has lost its choice for it, the keys that the DFS from the
    scene emits on the story as it was before the call are deleted, and
    every other entry is kept. *)
Theorem removeScene_effect
    (fuel : nat) (k : string) (h h' : gmap loc Scene) (st st' : Story) (b : bool) :
  story_wf h st →
  removeScene fuel k h st = Returns (h', st', b) →
  b = JsMap.has k (scenes st)
  ∧ root st' = root st
  ∧ (∀ l, key (h' !!! l) = key (h !!! l) ∧ text (h' !!! l) = text (h !!! l)
          ∧ parent (h' !!! l) = parent (h !!! l))
  ∧ (∀ l k', k' ≠ k →
       JsMap.get k' (choices (h' !!! l)) = JsMap.get k' (choices (h !!! l)))
  ∧ match getScene st k with
    | None => h' = h ∧ st' = st
    | Some scene =>
        (∀ p, parent (h !!! scene) = Some p → JsMap.wf (choices (h !!! p)) →
              JsMap.get k (choices (h' !!! p)) = None)
        ∧ ∃ refs, getScenesDFS fuel h st (Some scene) = Returns refs
                  ∧ ∀ k', getScene st' k'
                          = if decide (k' ∈ ref_key <$> refs) then None
                            else getScene st k'
    end.
Proof.
  intros Hwf Hrun.
  destruct (getScene st k) as [scene|] eqn:Hk.
  - pose proof (story_wf_key h st Hwf k scene Hk) as Hkey.
    assert (getScene st (key (h !!! scene)) = Some scene) as Hreg by by rewrite Hkey.
    rewrite (removeScene_found fuel k h st scene Hk) in Hrun.
    rewrite (getScenesDFS_detached h st scene Hreg) in Hrun.
    destruct (getScenesDFS fuel h st (Some scene)) as [refs| |] eqn:Hrefs;
      cbn [mbind outcome_bind mret outcome_ret] in Hrun; [|done..].
    injection Hrun as <- <- <-. cbn [root scenes].
    split; [|split; [|split; [|split; [|split]]]].
    + unfold JsMap.has. unfold getScene in Hk. by rewrite Hk.
    + done.
    + intros l. destruct (detached_frame h scene l) as (? & ? & ? & _). done.
    + intros l k' Hne. apply detached_frame. by rewrite Hkey.
    + intros p Hp Hpwf. unfold detached. rewrite Hp, Hkey.
      by apply call_removeChoice_removed.
    + exists refs. split; [done|]. intros k'. unfold getScene. cbn [scenes].
      rewrite foldl_remove_get by apply Hwf.
      destruct (decide (k' ∈ ref_key <$> reverse refs)) as [Hin|Hin];
        rewrite fmap_reverse, elem_of_reverse in Hin.
      * by rewrite decide_True.
      * by rewrite decide_False.
  - revert Hrun. unfold removeScene, JsMap.has.
    unfold getScene in Hk. rewrite Hk. by intros [= <- <- <-].
Qed.

Lemma removeScene_effect_witness :
  let h := shared_child_story.1 in
  let st := shared_child_story.2 in
  ∃ h' st',
    removeScene 2 "A" h st = Returns (h', st', true)
    ∧ true = JsMap.has "A" (scenes st)
    ∧ root st' = root st
    ∧ (∀ l, key (h' !!! l) = key (h !!! l) ∧ text (h' !!! l) = text (h !!! l)
            ∧ parent (h' !!! l) = parent (h !!! l))
    ∧ (∀ l k', k' ≠ "A" →
         JsMap.get k' (choices (h' !!! l)) = JsMap.get k' (choices (h !!! l)))
    ∧ match getScene st "A" with
      | None => h' = h ∧ st' = st
      | Some scene =>
          (∀ p, parent (h !!! scene) = Some p → JsMap.wf (choices (h !!! p)) →
                JsMap.get "A" (choices (h' !!! p)) = None)
          ∧ ∃ refs, getScenesDFS 2 h st (Some scene) = Returns refs
                    ∧ ∀ k', getScene st' k'
                            = if decide (k' ∈ ref_key <$> refs) then None
                              else getScene st k'
      end.
Proof.
  intros h st. eexists _, _. split; [reflexivity|].
  eapply (removeScene_effect 2 "A" h _ st _ true).
  - split.
    + apply (bool_decide_unpack _). vm_compute. exact I.
    + vm_compute. repeat constructor.
  - reflexivity.
Defined.

(** ** Obfuscated export: the round trip *)

Lemma lxor_byte (x y : Z) : is_byte x → is_byte y → is_byte (Z.lxor x y).
Proof.
  unfold is_byte. intros [Hx0 Hx] [Hy0 Hy].
  assert (0 ≤ Z.lxor x y) as H0 by (apply Z.lxor_nonneg; tauto).
  split; [done|].
  destruct (decide (Z.lxor x y = 0)) as [->|Hne]; [lia|].
  change 256 with (2 ^ 8). apply Z.log2_lt_pow2; [lia|].
  pose proof (Z.log2_lxor x y Hx0 Hy0) as Hlog.
  assert (Z.log2 x < 8) as Hlx.
  { destruct (decide (x = 0)) as [->|?]; [done|].
    apply Z.log2_lt_pow2; [lia|]. by change (2 ^ 8) with 256. }
  assert (Z.log2 y < 8) as Hly.
  { destruct (decide (y = 0)) as [->|?]; [done|].
    apply Z.log2_lt_pow2; [lia|]. by change (2 ^ 8) with 256. }
  lia.
Qed.

Lemma land_255_byte (i : nat) : is_byte (Z.land (Z.of_nat i) 255).
Proof.
  unfold is_byte. change 255 with (Z.ones 8).
  rewrite Z.land_ones by lia. change (2 ^ 8) with 256.
  apply Z.mod_pos_bound. lia.
Qed.

Lemma key_byte_byte (keyBytes : list Z) (i : nat) :
  Forall is_byte keyBytes → is_byte (key_byte keyBytes i).
Proof.
  intros Hkey. unfold key_byte. destruct keyBytes as [|k0 ks]; [by unfold is_byte|].
  destruct ((k0 :: ks) !! (i mod length (k0 :: ks))%nat) as [b|] eqn:E.
  - simpl. apply (proj1 (Forall_forall _ _) Hkey b).
    by eapply list_elem_of_lookup_2.
  - by unfold is_byte.
Qed.

Lemma mix_byte (keyBytes : list Z) (i : nat) (b : Z) :
  Forall is_byte keyBytes → is_byte b →
  mix keyBytes i b
  = Z.lxor (Z.lxor b (key_byte keyBytes i)) (Z.land (Z.of_nat i) 255)
  ∧ is_byte (mix keyBytes i b).
Proof.
  intros Hkey Hb.
  assert (is_byte (Z.lxor (Z.lxor b (key_byte keyBytes i))
                          (Z.land (Z.of_nat i) 255))) as Hr.
  { apply lxor_byte; [apply lxor_byte|]; auto using key_byte_byte, land_255_byte. }
  unfold mix, to_uint8. rewrite Z.mod_small by apply Hr. done.
Qed.

(** The XOR layer undoes itself. *)
Lemma mix_involutive (keyBytes : list Z) (i : nat) (b : Z) :
  Forall is_byte keyBytes → is_byte b →
  mix keyBytes i (mix keyBytes i b) = b.
Proof.
  intros Hkey Hb.
  destruct (mix_byte keyBytes i b Hkey Hb) as [Hm Hmb].
  destruct (mix_byte keyBytes i (mix keyBytes i b) Hkey Hmb) as [-> _].
  rewrite Hm.
  set (k := key_byte keyBytes i). set (m := Z.land (Z.of_nat i) 255).
  rewrite (Z.lxor_assoc b k m), (Z.lxor_assoc (Z.lxor b (Z.lxor k m)) k m).
  rewrite Z.lxor_assoc, Z.lxor_nilpotent. apply Z.lxor_0_r.
Qed.

(** Every byte is written as two lower-case hexadecimal digits, from which
    [parseInt] reads the byte back; checked on the 256 bytes. *)
Lemma byte_to_hex_parse_all :
  forallb (λ n,
             match byte_to_hex (Z.of_nat n) with
             | String c1 (String c2 EmptyString) =>
                 (default (-1) (parseInt16 (String c1 (String c2 "")))
                  =? Z.of_nat n)
                 && bool_decide (is_Some (hex_value c1))
                 && bool_decide (is_Some (hex_value c2))
             | _ => false
             end)
          (seq 0 256) = true.
Proof. vm_compute. reflexivity. Qed.

Lemma byte_to_hex_parse (b : Z) :
  is_byte b →
  ∃ c1 c2, byte_to_hex b = String c1 (String c2 "")
           ∧ parseInt16 (String c1 (String c2 "")) = Some b
           ∧ is_Some (hex_value c1) ∧ is_Some (hex_value c2).
Proof.
  intros [H0 H256].
  pose proof (proj1 (forallb_forall _ _) byte_to_hex_parse_all (Z.to_nat b)) as H.
  assert (In (Z.to_nat b) (seq 0 256)) as Hin by (apply in_seq; lia).
  specialize (H Hin). cbv beta in H. rewrite Z2Nat.id in H by done.
  destruct (byte_to_hex b) as [|c1 [|c2 [|]]]; try done.
  exists c1, c2. split; [done|].
  apply andb_prop in H as [H Hc2]. apply andb_prop in H as [H Hc1].
  apply bool_decide_eq_true in Hc1, Hc2.
  destruct (parseInt16 (String c1 (String c2 ""))) as [v|];
    cbn [default from_option id] in H.
  - apply Z.eqb_eq in H. subst v. done.
  - apply Z.eqb_eq in H. lia.
Qed.

Lemma append_String (c : ascii) (s t : string) :
  String c s +:+ t = String c (s +:+ t).
Proof. reflexivity. Qed.

Lemma append_empty_l (s : string) : "" +:+ s = s.
Proof. reflexivity. Qed.

Lemma append_String_assoc (s1 s2 s3 : string) :
  (s1 +:+ s2) +:+ s3 = s1 +:+ (s2 +:+ s3).
Proof.
  induction s1 as [|c s1 IH]; [done|]. by rewrite !append_String, IH.
Qed.

Lemma append_empty_r (s : string) : s +:+ "" = s.
Proof. induction s as [|c s IH]; [done|]. by rewrite append_String, IH. Qed.

Lemma encrypt_fold (bs : list Z) (s : string) :
  foldl (λ hexString b, hexString +:+ byte_to_hex b) s bs
  = s +:+ foldr (λ b r, byte_to_hex b +:+ r) "" bs.
Proof.
  revert s. induction bs as [|b bs IH]; intros s; cbn [foldl foldr].
  - by rewrite append_empty_r.
  - by rewrite IH, append_String_assoc.
Qed.

Lemma hex_chunks_bytes (bs : list Z) :
  Forall is_byte bs →
  let hex := foldr (λ b r, byte_to_hex b +:+ r) "" bs in
  String.length hex = (2 * length bs)%nat
  ∧ (λ chunk, to_uint8 (default 0 (parseInt16 chunk))) <$> hex_chunks hex = bs
  ∧ ∀ i c, String.get i hex = Some c → is_Some (hex_value c).
Proof.
  cbn zeta. induction 1 as [|b bs Hb Hbs IH]; simpl.
  - split; [done|]. split; [done|]. by intros [|i] c.
  - destruct (byte_to_hex_parse b Hb) as (c1 & c2 & -> & Hparse & Hc1 & Hc2).
    destruct IH as (Hlen & Hchunks & Hchars).
    rewrite !append_String, append_empty_l.
    cbn [String.length hex_chunks fmap list_fmap].
    split; [rewrite Hlen; lia|]. split.
    + rewrite Hparse, Hchunks. cbn [default]. f_equal.
      unfold to_uint8. apply Z.mod_small. apply Hb.
    + intros [|[|i]] c; cbn [String.get]; [by intros [= <-]..|]. apply Hchars.
Qed.

(** X26. The viewer's [decryptStory] undoes [#encryptStory]: for every
    non-empty byte sequence and every key, decrypting the hex string
    under the same key gives the bytes back. The hex string has two
    hexadecimal digits per byte. *)
Theorem decryptStory_encryptStory (utf8Bytes keyBytes : list Z) :
  Forall is_byte utf8Bytes → Forall is_byte keyBytes → utf8Bytes ≠ [] →
  decryptStory (encryptStory utf8Bytes keyBytes) keyBytes = Some utf8Bytes
  ∧ String.length (encryptStory utf8Bytes keyBytes) = (2 * length utf8Bytes)%nat
  ∧ ∀ i c, String.get i (encryptStory utf8Bytes keyBytes) = Some c →
           is_Some (hex_value c).
Proof.
  intros Hbs Hkey Hne. unfold encryptStory.
  rewrite encrypt_fold, append_empty_l.
  assert (Forall is_byte (imap (mix keyBytes) utf8Bytes)) as Henc.
  { apply Forall_forall. intros x Hx.
    apply list_elem_of_lookup in Hx as [i Hi].
    rewrite list_lookup_imap in Hi.
    destruct (utf8Bytes !! i) as [b|] eqn:E; [|done]. injection Hi as <-.
    apply mix_byte; [done|].
    apply (proj1 (Forall_forall _ _) Hbs b). by eapply list_elem_of_lookup_2. }
  destruct (hex_chunks_bytes _ Henc) as (Hlen & Hchunks & Hchars).
  rewrite length_imap in Hlen.
  split; [|by split].
  unfold decryptStory. rewrite Hlen, Hchunks.
  destruct utf8Bytes as [|b0 bs]; [done|].
  replace (Nat.eqb (2 * length (b0 :: bs)) 0) with false
    by (symmetry; apply Nat.eqb_neq; simpl; lia).
  f_equal.
  replace (2 * length (b0 :: bs) / 2)%nat with (length (b0 :: bs))
    by (symmetry; rewrite Nat.mul_comm; apply Nat.div_mul; lia).
  rewrite firstn_all2 by (rewrite length_imap; lia).
  apply list_eq. intros i. rewrite !list_lookup_imap.
  destruct ((b0 :: bs) !! i) as [b|] eqn:E; [|done]. simpl. f_equal.
  apply mix_involutive; [done|].
  apply (proj1 (Forall_forall _ _) Hbs b). by eapply list_elem_of_lookup_2.
Qed.

Lemma decryptStory_encryptStory_witness :
  let bytes := [123; 34; 97; 34; 58; 49; 125] in
  let key := [57; 111; 106] in
  decryptStory (encryptStory bytes key) key = Some bytes
  ∧ String.length (encryptStory bytes key) = (2 * length bytes)%nat
  ∧ ∀ i c, String.get i (encryptStory bytes key) = Some c →
           is_Some (hex_value c).
Proof.
  intros bytes key. apply decryptStory_encryptStory.
  - repeat constructor; unfold is_byte; lia.
  - repeat constructor; unfold is_byte; lia.
  - discriminate.
Defined.

(** ** The ASCII tree *)

(** X27. [generateTreeAscii] throws when there is no target element or
    the story has no root: both are read for the log line before they
    are checked, so the "no tree yet" placeholder is never written. With
    an element and a root it returns the element with its text replaced
    by the drawing. *)
Theorem generateTreeAscii_outcome
    (fuel : nat) (h : gmap loc Scene) (st : Story) (parentElement : option Element) :
  (∀ r, root st = Some r → (dfs_fuel h st r ≤ fuel)%nat) →
  ∃ text,
    generateTreeAscii fuel h st parentElement =
    match parentElement, root st with
    | Some el, Some _ => Returns (Some (mkElement (el_id el) text))
    | _, _ => Throws
    end.
Proof.
  intros Hfuel. unfold generateTreeAscii.
  destruct parentElement as [el|]; [|by exists ""].
  destruct (root st) as [r|] eqn:Hr; [|by exists ""].
  destruct (getScenesDFS_returns h st r 0%nat 0 fuel) as [refs Hrefs];
    [left; by rewrite Hr | specialize (Hfuel r eq_refl); lia |].
  rewrite Hrefs. cbn [mbind outcome_bind mret outcome_ret]. eauto.
Qed.

Lemma generateTreeAscii_outcome_witness :
  ∃ text,
    generateTreeAscii 20 test_chain.1 test_chain.2 (Some (mkElement "tree" "")) =
    Returns (Some (mkElement "tree" text)).
Proof.
  apply (generateTreeAscii_outcome 20 test_chain.1 test_chain.2
           (Some (mkElement "tree" ""))).
  intros r [= <-]. vm_compute. lia.
Defined.

(** ** Story: serialisation *)

Lemma get_insert_index (k' k : string) (n : N) (v : JValue)
    (fields : list (string * JValue)) :
  JsMap.get k fields = None →
  JsMap.get k' (insert_index n k v fields)
  = if decide (k' = k) then Some v else JsMap.get k' fields.
Proof.
  induction fields as [|[k0 v0] fields IH]; intros Hk.
  - done.
  - cbn [JsMap.get] in Hk. destruct (decide (k = k0)) as [|Hne]; [done|].
    cbn [insert_index].
    destruct (array_index k0) as [n'|]; [destruct (n' <? n)%N|];
      cbn [JsMap.get]; try done.
    rewrite (IH Hk).
    destruct (decide (k' = k0)) as [->|]; [by rewrite decide_False|done].
Qed.

Lemma get_obj_assign (k' k : string) (v : JValue) (fields : list (string * JValue)) :
  JsMap.get k' (obj_assign k v fields)
  = if decide (k = "__proto__") then JsMap.get k' fields
    else if decide (k' = k) then Some v else JsMap.get k' fields.
Proof.
  unfold obj_assign. destruct (decide (k = "__proto__")); [done|].
  destruct (JsMap.has k fields) eqn:Hhas; [apply jsmap_get_set|].
  apply jsmap_has_false in Hhas.
  destruct (array_index k); [by apply get_insert_index|].
  rewrite jsmap_get_app_fresh.
  destruct (decide (k' = k)) as [->|]; [by rewrite Hhas|].
  by destruct (JsMap.get k' fields).
Qed.

Lemma Story_toJSON_get (h : gmap loc Scene) (k : string)
    (entries : JsMap.t loc) (acc : list (string * JValue)) :
  JsMap.wf entries →
  JsMap.get k (foldl (λ result '(k, scene), obj_assign k (toJSON (h !!! scene)) result)
                     acc entries)
  = if decide (k = "__proto__") then JsMap.get k acc
    else match JsMap.get k entries with
         | Some scene => Some (toJSON (h !!! scene))
         | None => JsMap.get k acc
         end.
Proof.
  revert acc. induction entries as [|[k0 l0] entries IH]; intros acc Hwf.
  - cbn [foldl JsMap.get]. by case_decide.
  - apply NoDup_cons in Hwf as [Hk0 Hwf]. cbn [foldl JsMap.get].
    rewrite (IH _ Hwf), get_obj_assign.
    destruct (decide (k = "__proto__")) as [->|Hk].
    + by destruct (decide (k0 = "__proto__")) as [->|]; [|rewrite decide_False].
    + destruct (decide (k = k0)) as [->|Hne].
      * assert (JsMap.get k0 entries = None) as ->
          by (apply jsmap_get_None; exact Hk0).
        by rewrite decide_False.
      * destruct (JsMap.get k entries); [done|]. by case_decide.
Qed.

Lemma Story_toJSON_order (h : gmap loc Scene)
    (entries : JsMap.t loc) (acc : list (string * JValue)) :
  NoDup (JsMap.keys acc ++ JsMap.keys entries) →
  (∀ k, k ∈ JsMap.keys entries → k ≠ "__proto__" ∧ array_index k = None) →
  foldl (λ result '(k, scene), obj_assign k (toJSON (h !!! scene)) result) acc entries
  = acc ++ ((λ e, (e.1, toJSON (h !!! e.2))) <$> entries).
Proof.
  revert acc. induction entries as [|[k0 l0] entries IH]; intros acc Hnd Hplain.
  - cbn [foldl]. by rewrite fmap_nil, app_nil_r.
  - cbn [foldl]. rewrite fmap_cons. cbn [fst snd].
    destruct (Hplain k0) as [Hproto Hidx]; [left|].
    assert (JsMap.has k0 acc = false) as Hhas.
    { apply jsmap_has_false, jsmap_get_None. intros Hin.
      apply NoDup_app in Hnd as (_ & Hdisj & _). apply (Hdisj k0 Hin). left. }
    assert (obj_assign k0 (toJSON (h !!! l0)) acc = acc ++ [(k0, toJSON (h !!! l0))])
      as ->.
    { unfold obj_assign. by rewrite decide_False, Hhas, Hidx. }
    rewrite IH.
    + by rewrite <-app_assoc.
    + unfold JsMap.keys in *. rewrite fmap_app, <-app_assoc. exact Hnd.
    + intros k Hin. apply Hplain. by right.
Qed.

(** X28. [Story.toJSON] stores every scene's record under its key,
    except a scene keyed [__proto__], which is left out of the result.
    When no key is a canonical array index or [__proto__] the fields come
    in the order of the scenes; an index-like key would be moved to the
    front by the object. *)
Theorem Story_toJSON_fields (h : gmap loc Scene) (st : Story) :
  JsMap.wf (scenes st) →
  ∃ fields,
    Story_toJSON h st = JObj fields
    ∧ (∀ k, JsMap.get k fields
            = if decide (k = "__proto__") then None
              else (λ scene, toJSON (h !!! scene)) <$> getScene st k)
    ∧ ((∀ k, k ∈ JsMap.keys (scenes st) → k ≠ "__proto__" ∧ array_index k = None) →
       fields = (λ e, (e.1, toJSON (h !!! e.2))) <$> scenes st).
Proof.
  intros Hwf. eexists. split; [reflexivity|]. split.
  - intros k. rewrite (Story_toJSON_get h k (scenes st) [] Hwf).
    unfold getScene. cbn [JsMap.get].
    case_decide; [done|]. by destruct (JsMap.get k (scenes st)).
  - intros Hplain. by rewrite (Story_toJSON_order h (scenes st) []).
Qed.

Lemma Story_toJSON_fields_witness :
  ∃ fields,
    Story_toJSON test_chain.1 test_chain.2 = JObj fields
    ∧ (∀ k, JsMap.get k fields
            = if decide (k = "__proto__") then None
              else (λ scene, toJSON (test_chain.1 !!! scene))
                     <$> getScene test_chain.2 k)
    ∧ ((∀ k, k ∈ JsMap.keys (scenes test_chain.2) →
             k ≠ "__proto__" ∧ array_index k = None) →
       fields = (λ e, (e.1, toJSON (test_chain.1 !!! e.2))) <$> scenes test_chain.2).
Proof.
  apply (Story_toJSON_fields test_chain.1 test_chain.2).
  apply (bool_decide_unpack _). vm_compute. exact I.
Defined.

(** ** Story: loading *)

Lemma addScene_dom (scene : loc) (h : gmap loc Scene) (st : Story) :
  dom h ⊆ dom (addScene scene h st).1.1.
Proof.
  unfold addScene, call_addChoice, write_parent.
  repeat case_match; cbn [fst snd]; rewrite ?dom_insert; set_solver.
Qed.

Lemma fromJson_entries_inv
    (JSON_parse : string → option JValue) (entries : list (string * JValue))
    (h : gmap loc Scene) (st : Story) (h' : gmap loc Scene) (st' : Story) :
  story_wf h st →
  Forall (λ e, e.2 ∈ dom h) (scenes st) →
  root st = snd <$> head (scenes st) →
  NoDup (JsMap.keys (scenes st) ++ entries.*1) →
  fromJson_entries JSON_parse entries h st = Returns (Some (h', st')) →
  story_wf h' st'
  ∧ root st' = snd <$> head (scenes st')
  ∧ JsMap.keys (scenes st') = JsMap.keys (scenes st) ++ entries.*1
  ∧ Forall (λ e, ∃ s, fromJson JSON_parse e.1 e.2 = Returns (Some s)) entries.
Proof.
  revert h st. induction entries as [|[k v] entries IH];
    intros h st Hwf Hdom Hroot Hnd Hres.
  - cbn [fromJson_entries] in Hres. injection Hres as <- <-.
    by rewrite fmap_nil, app_nil_r.
  - cbn [fromJson_entries] in Hres.
    destruct (fromJson JSON_parse k v) as [[s|]| |] eqn:Hs;
      cbn [mbind outcome_bind] in Hres; try done.
    destruct (fromJson_scene_shape _ _ _ _ Hs) as (Hk & _).
    set (scene := fresh (dom h)) in *.
    set (h1 := <[scene := s]> h) in *.
    assert (scene ∉ dom h) as Hfresh by apply is_fresh.
    assert (key (h1 !!! scene) = k) as Hkey
      by (unfold h1; by rewrite lookup_total_insert_eq).
    assert (story_wf h1 st) as Hwf1.
    { destruct Hwf as [Hw Hall]. split; [done|].
      rewrite Forall_forall in Hall, Hdom. apply Forall_forall. intros e He.
      unfold h1. rewrite lookup_total_insert_ne; [by apply Hall|].
      intros ->. by apply Hfresh, Hdom. }
    assert (JsMap.has k (scenes st) = false) as Hhas.
    { apply jsmap_has_false, jsmap_get_None. intros Hin.
      apply NoDup_app in Hnd as (_ & Hdisj & _). apply (Hdisj k Hin). left. }
    assert (scenes (addScene scene h1 st).1.2 = scenes st ++ [(k, scene)]
            ∧ root (addScene scene h1 st).1.2
              = snd <$> head (scenes st ++ [(k, scene)])) as [Hsc Hrt].
    { unfold addScene. rewrite Hkey, Hhas.
      rewrite jsmap_set_fresh by by apply jsmap_has_false.
      destruct (root st) as [r|] eqn:Hr; cbn [fst snd scenes root].
      - split; [done|]. destruct (scenes st); [done|]. by rewrite Hroot.
      - split; [done|]. by destruct (scenes st). }
    pose proof (addScene_story_wf scene h1 st Hwf1) as Hwf2.
    pose proof (addScene_dom scene h1 st) as Hdom2.
    destruct (addScene scene h1 st) as [[h2 st2] b] eqn:Hadd.
    cbn [fst snd] in *.
    destruct (IH h2 st2) as (Hwf' & Hroot' & Hkeys' & Hall'); try done.
    + rewrite Hsc. apply Forall_app. split.
      * eapply Forall_impl; [exact Hdom|]. intros e He. cbn beta in *.
        apply Hdom2. unfold h1. rewrite dom_insert. set_solver.
      * apply Forall_singleton. cbn [snd]. apply Hdom2.
        unfold h1. rewrite dom_insert. set_solver.
    + by rewrite Hrt, Hsc.
    + rewrite Hsc. unfold JsMap.keys in *. rewrite fmap_app, <-app_assoc. exact Hnd.
    + split; [done|]. split; [done|]. split.
      * rewrite Hkeys', Hsc. unfold JsMap.keys. by rewrite fmap_app, <-app_assoc.
      * apply Forall_cons. split; [by exists s | done].
Qed.

Lemma fromJson_entries_returns
    (JSON_parse : string → option JValue) (entries : list (string * JValue))
    (h : gmap loc Scene) (st : Story) :
  Forall (λ e, ∃ s, fromJson JSON_parse e.1 e.2 = Returns (Some s)) entries →
  ∃ h' st', fromJson_entries JSON_parse entries h st = Returns (Some (h', st')).
Proof.
  revert h st. induction entries as [|[k v] entries IH]; intros h st Hall.
  - by exists h, st.
  - apply Forall_cons in Hall as [[s Hs] Hall]. cbn [fst snd] in Hs.
    cbn [fromJson_entries]. rewrite Hs. cbn [mbind outcome_bind].
    destruct (addScene _ _ st) as [[h2 st2] b]. by apply IH.
Qed.

(** X29. A story that [Story.fromJson] returns holds one scene for every
    record of the input, under the record's key and in the input's
    order; the scene of the first record is the root and is stored
    under its own key; keys are unique and every scene is stored under
    its key. *)
Theorem Story_fromJson_loaded
    (JSON_parse : string → option JValue) (parsedJson : JValue)
    (h h' : gmap loc Scene) (st' : Story) :
  NoDup (object_entries parsedJson).*1 →
  Story_fromJson JSON_parse parsedJson h = Returns (Some (h', st')) →
  JsMap.keys (scenes st') = (object_entries parsedJson).*1
  ∧ root st' = snd <$> head (scenes st')
  ∧ root_owned h' st'
  ∧ story_wf h' st'.
Proof.
  intros Hnd Hres.
  assert (∃ h0 st0,
            fromJson_entries JSON_parse (object_entries parsedJson) h (mkStory [] None)
            = Returns (Some (h0, st0))
            ∧ (JsMap.size (scenes st0) =? 0)%nat = false
            ∧ h' = h0 ∧ st' = st0) as (h0 & st0 & Hloop & Hsize & -> & ->).
  { unfold Story_fromJson in Hres.
    destruct parsedJson; try done;
      destruct (fromJson_entries _ _ _ _) as [[[h0 st0]|]| |];
      cbn [mbind outcome_bind] in Hres; try done;
      destruct (JsMap.size (scenes st0) =? 0)%nat eqn:Hsize; try done;
      injection Hres as <- <-; by exists h0, st0. }
  destruct (fromJson_entries_inv JSON_parse (object_entries parsedJson)
              h (mkStory [] None) h0 st0)
    as (Hwf & Hroot & Hkeys & _);
    [split; [apply NoDup_nil_2 | apply Forall_nil_2]
    | apply Forall_nil_2 | done | done | done |].
  split; [done|]. split; [done|]. split; [|done].
  destruct (scenes st0) as [|[k0 r] sc] eqn:Hsc; [done|].
  exists r. split; [by rewrite Hroot|].
  destruct Hwf as [_ Hall]. rewrite Hsc in Hall.
  apply Forall_cons in Hall as [Hk0 _]. cbn [fst snd] in Hk0.
  unfold getScene. rewrite Hk0, Hsc. cbn [JsMap.get]. by rewrite decide_True.
Qed.

(** X30. Loading is all or nothing: [Story.fromJson] returns a story
    exactly when the input has at least one record and [Scene.fromJson]
    accepts every record. *)
Theorem Story_fromJson_succeeds_iff
    (JSON_parse : string → option JValue) (parsedJson : JValue) (h : gmap loc Scene) :
  NoDup (object_entries parsedJson).*1 →
  (∃ h' st', Story_fromJson JSON_parse parsedJson h = Returns (Some (h', st')))
  ↔ object_entries parsedJson ≠ []
    ∧ Forall (λ e, ∃ s, fromJson JSON_parse e.1 e.2 = Returns (Some s))
             (object_entries parsedJson).
Proof.
  intros Hnd.
  assert (∀ h0 st0,
            fromJson_entries JSON_parse (object_entries parsedJson) h (mkStory [] None)
            = Returns (Some (h0, st0)) →
            JsMap.size (scenes st0) = length (object_entries parsedJson)
            ∧ Forall (λ e, ∃ s, fromJson JSON_parse e.1 e.2 = Returns (Some s))
                     (object_entries parsedJson)) as Hloop.
  { intros h0 st0 Hres.
    destruct (fromJson_entries_inv JSON_parse (object_entries parsedJson)
                h (mkStory [] None) h0 st0)
      as (_ & _ & Hkeys & Hall);
      [split; [apply NoDup_nil_2 | apply Forall_nil_2]
      | apply Forall_nil_2 | done | done | done |].
    split; [|done]. unfold JsMap.size.
    rewrite <-(length_fmap fst (scenes st0)), <-(length_fmap fst (object_entries _)).
    unfold JsMap.keys in Hkeys. by rewrite Hkeys. }
  split.
  - intros (h' & st' & Hres). unfold Story_fromJson in Hres.
    destruct parsedJson; try done;
      destruct (fromJson_entries _ _ _ _) as [[[h0 st0]|]| |] eqn:Hl;
      cbn [mbind outcome_bind] in Hres; try done;
      destruct (Hloop h0 st0 eq_refl) as [Hlen Hall];
      (split; [|done]); intros Hnil; rewrite Hnil in Hlen;
      cbn [length] in Hlen; rewrite Hlen in Hres; done.
  - intros [Hne Hall].
    destruct (fromJson_entries_returns JSON_parse _ h (mkStory [] None) Hall)
      as (h0 & st0 & Hres).
    destruct (Hloop h0 st0 Hres) as [Hlen _].
    exists h0, st0. unfold Story_fromJson.
    destruct parsedJson; try done; rewrite Hres; cbn [mbind outcome_bind];
      rewrite Hlen; by destruct (object_entries _).
Qed.

Lemma Story_fromJson_loaded_witness :
  let parsedJson := JObj [("A", JObj [("text", JStr "Root")]);
                          ("B", JObj [("text", JStr "Side")])] in
  let st' := mkStory [("A", 0%nat); ("B", 1%nat)] (Some 0%nat) in
  let h' : gmap loc Scene :=
    <[1%nat := mkScene "B" "Side" (Some 0%nat) []]>
      (<[0%nat := mkScene "A" "Root" None [("B", "Side")]]> ∅) in
  JsMap.keys (scenes st') = ["A"; "B"]
  ∧ root st' = snd <$> head (scenes st')
  ∧ root_owned h' st'
  ∧ story_wf h' st'.
Proof.
  intros parsedJson st' h'.
  apply (Story_fromJson_loaded (λ _, None) parsedJson ∅ h' st').
  - apply (bool_decide_unpack _). vm_compute. exact I.
  - vm_compute. reflexivity.
Defined.

Lemma Story_fromJson_succeeds_iff_witness :
  let parsedJson := JObj [("A", JObj [("text", JStr "Root")]);
                          ("B", JObj [("text", JStr "")])] in
  (∃ h' st', Story_fromJson (λ _, None) parsedJson ∅ = Returns (Some (h', st')))
  ↔ object_entries parsedJson ≠ []
    ∧ Forall (λ e, ∃ s, fromJson (λ _, None) e.1 e.2 = Returns (Some s))
             (object_entries parsedJson).
Proof.
  intros parsedJson. apply (Story_fromJson_succeeds_iff (λ _, None) parsedJson ∅).
  apply (bool_decide_unpack _). vm_compute. exact I.
Defined.
